(** * reco-bin: command dispatch and child-process supervision

    A shallow embedding of [lib/command.js] (class [CommonBin]) and of the
    helper module ([forkNode], [spawn], [gracefull], [extractExecArgv],
    [unparseArgv]), with the properties of the specification that were
    checked against them.

    Definitions:
    - [Js]       JavaScript values, plain objects, [Map], array primitives;
    - [Helper]   the helper module: exec-argv extraction and the process
                 supervisor (registry of children, signal hooks, promises);
    - [Command]  [CommonBin]: registry ([add], [alias]), [context],
                 [DISPATCH] and [start], over a store of argument arrays;
    - [Webpack]  the webpack runner and [WebpackError];
    - [Dump]     [convertObject] and [convertValue];
    - [Binding]  the [helper] getter of a command;
    - [Demo]     a concrete platform and class table for the examples.

    Proofs: [JsFacts], [ExtractFacts], [SupervisorFacts], [ContextFacts],
    [RegistryFacts], [DispatchFacts], and the modules whose names end in
    [More]. *)

From Stdlib Require Import Floats.PrimFloat ZArith NArith Ascii String List Bool Lia.
From Stdlib Require Import DecimalString Uint63.
From stdpp Require Import base list strings.
Import ListNotations.

Local Open Scope string_scope.
Local Open Scope list_scope.

(* ===================================================================== *)
(** * JavaScript data *)
(* ===================================================================== *)

Module Js.

#[local] Set Warnings "-register-all".

(** Values that occur in a yargs result: [undefined], [null], booleans,
    numbers (IEEE doubles), strings, arrays and nested objects. *)
Inductive value :=
| VUndefined
| VNull
| VBool (b : bool)
| VNum (x : float)
| VStr (s : string)
| VArr (items : list value)
| VObj (fields : list (string * value)).

(** A plain object: its own enumerable properties, in the order in which
    [Object.keys] enumerates them. *)
Definition obj := list (string * value).

(** [ToBoolean]. *)
Definition truthy (v : value) : bool :=
  match v with
  | VUndefined | VNull => false
  | VBool b => b
  | VNum x => negb (PrimFloat.eqb x 0%float || negb (PrimFloat.eqb x x))
  | VStr s => negb (String.eqb s "")
  | VArr _ | VObj _ => true
  end.

(** [a || b] *)
Definition or_else (a b : value) : value := if truthy a then a else b.

(** [typeof v === 'number'] *)
Definition is_number (v : value) : bool :=
  match v with VNum _ => true | _ => false end.

(** [v === undefined] *)
Definition is_undefined (v : value) : bool :=
  match v with VUndefined => true | _ => false end.

(** ** Property access *)

Fixpoint lookup (k : string) (o : obj) : option value :=
  match o with
  | [] => None
  | (k', v) :: o' => if String.eqb k' k then Some v else lookup k o'
  end.

(** [o[k]]: a missing property reads as [undefined]. *)
Definition get (o : obj) (k : string) : value :=
  match lookup k o with Some v => v | None => VUndefined end.

(** [Object.keys(o)] *)
Definition keys (o : obj) : list string := map fst o.

Definition has_key (k : string) (o : obj) : bool :=
  existsb (fun kv => String.eqb (fst kv) k) o.

(** Array indices (canonical decimal strings below 2^32 - 1) are enumerated
    first, in ascending order; every other key follows in creation order. *)
Definition digit_of (c : ascii) : option N :=
  let n := N_of_ascii c in
  if ((48 <=? n) && (n <=? 57))%N then Some (n - 48)%N else None.

Fixpoint digits_value (s : string) (acc : N) : option N :=
  match s with
  | EmptyString => Some acc
  | String c s' =>
      match digit_of c with
      | Some d => digits_value s' (10 * acc + d)%N
      | None => None
      end
  end.

Definition array_index (k : string) : option N :=
  match k with
  | EmptyString => None
  | String c rest =>
      if Ascii.eqb c "0"%char
      then (match rest with EmptyString => Some 0%N | _ => None end)
      else match digits_value k 0%N with
           | Some n => if (n <? 4294967295)%N then Some n else None
           | None => None
           end
  end.

Fixpoint insert_index (n : N) (k : string) (v : value) (o : obj) : obj :=
  match o with
  | [] => [(k, v)]
  | (k', v') :: o' =>
      match array_index k' with
      | Some m => if (m <? n)%N then (k', v') :: insert_index n k v o'
                  else (k, v) :: o
      | None => (k, v) :: o
      end
  end.

Fixpoint update (k : string) (v : value) (o : obj) : obj :=
  match o with
  | [] => []
  | (k', v') :: o' =>
      if String.eqb k' k then (k', v) :: o' else (k', v') :: update k v o'
  end.

(** [o[k] = v] *)
Definition set (k : string) (v : value) (o : obj) : obj :=
  if has_key k o then update k v o
  else match array_index k with
       | Some n => insert_index n k v o
       | None => o ++ [(k, v)]
       end.

(** [Object.assign(target, source)] *)
Definition assign (target source : obj) : obj :=
  fold_left (fun t kv => set (fst kv) (snd kv) t) source target.

(** ** Arrays of strings *)

(** [arr.indexOf(x)], [-1] when absent. *)
Fixpoint indexOf (x : string) (arr : list string) : Z :=
  match arr with
  | [] => (-1)%Z
  | y :: rest =>
      if String.eqb y x then 0%Z
      else let i := indexOf x rest in
           if (i =? -1)%Z then (-1)%Z else (i + 1)%Z
  end.

(** [arr.splice(start, deleteCount, ...items)]: the array after the edit.
    A negative [start] counts from the end, and the range is clamped to the
    array. *)
Definition splice (start deleteCount : Z) (items arr : list string) : list string :=
  let len := Z.of_nat (length arr) in
  let actualStart :=
    if (start <? 0)%Z then Z.max (len + start) 0 else Z.min start len in
  let actualDelete := Z.min (Z.max deleteCount 0) (len - actualStart) in
  firstn (Z.to_nat actualStart) arr ++ items
    ++ skipn (Z.to_nat (actualStart + actualDelete)) arr.

(** [arr.join(sep)] *)
Fixpoint join (sep : string) (arr : list string) : string :=
  match arr with
  | [] => ""
  | [x] => x
  | x :: rest => x ++ sep ++ join sep rest
  end.

(** ** [Map] with string keys: [set] keeps the position of an existing key
    and appends a new one. *)
Section StringMap.
Context {V : Type}.

Fixpoint map_get (k : string) (m : list (string * V)) : option V :=
  match m with
  | [] => None
  | (k', v) :: m' => if String.eqb k' k then Some v else map_get k m'
  end.

Definition map_has (k : string) (m : list (string * V)) : bool :=
  match map_get k m with Some _ => true | None => false end.

Fixpoint map_set (k : string) (v : V) (m : list (string * V)) : list (string * V) :=
  match m with
  | [] => [(k, v)]
  | (k', v') :: m' =>
      if String.eqb k' k then (k', v) :: m' else (k', v') :: map_set k v m'
  end.

End StringMap.

End Js.

(* ===================================================================== *)
(** * The helper module: exec-argv extraction *)
(* ===================================================================== *)

Module Helper.
Import Js.

(** The debug/inspect family of [extractExecArgv]. *)
Definition debug_family : list string :=
  ["debug"; "debug-brk"; "debug-port"; "inspect"; "inspect-brk"; "inspect-port"].

(** [arr.includes(key)] *)
Definition includes (key : string) (arr : list string) : bool :=
  existsb (String.eqb key) arr.

(** [match(key, ['es_staging', 'expose_debug_as', /^harmony.*/])]: the
    regular expression accepts exactly the keys that start with [harmony]. *)
Definition match_exec_key (key : string) : bool :=
  String.eqb "es_staging" key || String.eqb "expose_debug_as" key
  || String.prefix "harmony" key.

#[global] Arguments includes : simpl never.
#[global] Arguments match_exec_key : simpl never.

(** The result record [{ debugPort, debugOptions, execArgvObj }]. *)
Record Extracted := mkExtracted {
  debugPort : value;
  debugOptions : obj;
  execArgvObj : obj
}.

(** One iteration of the loop over [Object.keys(argv)]. *)
Definition extract_step (argv : obj) (acc : Extracted) (key : string) : Extracted :=
  let value := get argv key in
  if is_undefined value then acc
  else if includes key debug_family then
    {| debugPort := if is_number value then value else debugPort acc;
       debugOptions := set key (get argv key) (debugOptions acc);
       execArgvObj := set key (get argv key) (execArgvObj acc) |}
  else if match_exec_key key then
    {| debugPort := debugPort acc;
       debugOptions := debugOptions acc;
       execArgvObj := set key (get argv key) (execArgvObj acc) |}
  else acc.

Definition extractExecArgv (argv : obj) : Extracted :=
  fold_left (extract_step argv) (keys argv)
    {| debugPort := VUndefined; debugOptions := []; execArgvObj := [] |}.

(** The keys of the debug/inspect family whose value is a number, in the
    order of [Object.keys(argv)]. *)
Definition numeric_family_keys (argv : obj) : list string :=
  List.filter (fun k => includes k debug_family && is_number (get argv k))
              (keys argv).

(** ** What the loop has established after a prefix of the keys *)

Definition family_key (argv : obj) (k : string) : Prop :=
  includes k debug_family = true /\ is_undefined (get argv k) = false.

Definition exec_key (argv : obj) (k : string) : Prop :=
  (includes k debug_family = true \/ match_exec_key k = true)
  /\ is_undefined (get argv k) = false.

Record extract_inv (argv : obj) (seen : list string) (acc : Extracted) : Prop := {
  inv_options : forall k,
    lookup k (debugOptions acc) =
    match lookup k (debugOptions acc) with
    | Some _ => Some (get argv k) | None => None end;
  inv_options_dom : forall k,
    lookup k (debugOptions acc) <> None <-> (In k seen /\ family_key argv k);
  inv_exec : forall k,
    lookup k (execArgvObj acc) =
    match lookup k (execArgvObj acc) with
    | Some _ => Some (get argv k) | None => None end;
  inv_exec_dom : forall k,
    lookup k (execArgvObj acc) <> None <-> (In k seen /\ exec_key argv k);
  inv_port : debugPort acc <> VUndefined <->
    exists k, In k seen /\ includes k debug_family = true
              /\ is_number (get argv k) = true;
  inv_port_num : debugPort acc = VUndefined \/ is_number (debugPort acc) = true
}.


(* --------------------------------------------------------------------- *)
(** ** The process supervisor: [gracefull], [forkNode], [spawn] *)
(* --------------------------------------------------------------------- *)

Inductive Signal := SIGINT | SIGQUIT | SIGTERM.

(** A [ChildProcess] object, known by its identity: the n-th handle created
    by [cp.fork] or [spawn]. *)
Definition Handle := nat.

(** The [code] argument of a child's ['exit'] event: a number, or [null]
    ([None]) when a signal ended the child. *)
Definition ExitCode := option Z.

(** Error objects. [Error msg c] is [new Error(msg)], [c] being its [code]
    property when one was assigned; [SystemError] is the error object that
    [child_process] hands to an ['error'] listener. *)
Inductive JsError :=
| Error (message : string) (code : option ExitCode)
| SystemError (message : string).

(** A call of [resolve()] or of [reject(err)]. *)
Inductive Settlement :=
| Resolved
| Rejected (err : JsError).

Inductive Launch :=
| Fork (modulePath : string) (args : list string)
| Spawn (cmd : string) (args : list string).

(** Per handle: how it was launched, which [once] listeners are still
    attached, and the calls made so far to the [resolve]/[reject] pair of
    the promise returned for it (oldest first). *)
Record Child := mkChild {
  launch : Launch;
  once_exit : bool;
  once_error : bool;
  settle_calls : list Settlement
}.

(** A promise keeps its first settlement; later calls are ignored. *)
Definition promise_state (c : Child) : option Settlement := head (settle_calls c).

(** Events of the parent [process] for which [gracefull] registers a
    [once] listener. The listener of a signal stores the signal and calls
    [process.exit(0)]; the listener of ['exit'] kills the registered
    children. *)
Inductive ProcessEvent :=
| OnSignal (s : Signal)
| OnExit.

Inductive Status :=
| Running
| Exited (code : Z)
| Killed (s : Signal).

Record World := mkWorld {
  childs : list Handle;                   (* the [Set], in insertion order *)
  hadHook : bool;
  signal : option Signal;                 (* [let signal], [None] = undefined *)
  process_once : list ProcessEvent;       (* listeners of [process], in order *)
  children : list Child;                  (* every handle created, by number *)
  kills : list (Handle * option Signal);  (* calls [child.kill(signal)], in order *)
  deletions : list Handle;                (* calls [childs.delete(proc)], in order *)
  reported : list Handle;                 (* ['exit'] events emitted on handles *)
  exiting : bool;                         (* [process._exiting] *)
  status : Status
}.

Definition init : World :=
  {| childs := []; hadHook := false; signal := None; process_once := [];
     children := []; kills := []; deletions := []; reported := [];
     exiting := false; status := Running |}.

Definition with_childs (f : list Handle -> list Handle) (w : World) : World :=
  mkWorld (f (childs w)) (hadHook w) (signal w) (process_once w) (children w)
          (kills w) (deletions w) (reported w) (exiting w) (status w).

Definition with_hook (w : World) : World :=
  mkWorld (childs w) true (signal w)
          (process_once w ++ [OnSignal SIGINT; OnSignal SIGQUIT; OnSignal SIGTERM; OnExit])
          (children w) (kills w) (deletions w) (reported w) (exiting w) (status w).

Definition with_signal (s : Signal) (w : World) : World :=
  mkWorld (childs w) (hadHook w) (Some s) (process_once w) (children w)
          (kills w) (deletions w) (reported w) (exiting w) (status w).

Definition with_process_once (l : list ProcessEvent) (w : World) : World :=
  mkWorld (childs w) (hadHook w) (signal w) l (children w)
          (kills w) (deletions w) (reported w) (exiting w) (status w).

Definition with_children (f : list Child -> list Child) (w : World) : World :=
  mkWorld (childs w) (hadHook w) (signal w) (process_once w) (f (children w))
          (kills w) (deletions w) (reported w) (exiting w) (status w).

Definition with_kills (l : list (Handle * option Signal)) (w : World) : World :=
  mkWorld (childs w) (hadHook w) (signal w) (process_once w) (children w)
          l (deletions w) (reported w) (exiting w) (status w).

Definition with_deletion (h : Handle) (w : World) : World :=
  mkWorld (childs w) (hadHook w) (signal w) (process_once w) (children w)
          (kills w) (deletions w ++ [h]) (reported w) (exiting w) (status w).

Definition with_reported (h : Handle) (w : World) : World :=
  mkWorld (childs w) (hadHook w) (signal w) (process_once w) (children w)
          (kills w) (deletions w) (reported w ++ [h]) (exiting w) (status w).

Definition with_exiting (w : World) : World :=
  mkWorld (childs w) (hadHook w) (signal w) (process_once w) (children w)
          (kills w) (deletions w) (reported w) true (status w).

Definition with_status (s : Status) (w : World) : World :=
  mkWorld (childs w) (hadHook w) (signal w) (process_once w) (children w)
          (kills w) (deletions w) (reported w) (exiting w) s.

(** [childs.add(proc)] and [childs.delete(proc)] *)
Definition set_add (h : Handle) (s : list Handle) : list Handle :=
  if existsb (Nat.eqb h) s then s else s ++ [h].

Definition set_delete (h : Handle) (s : list Handle) : list Handle :=
  List.filter (fun x => negb (Nat.eqb x h)) s.

Definition gracefull (proc : Handle) (w : World) : World :=
  let w := with_childs (set_add proc) w in
  if hadHook w then w else with_hook w.

Definition is_exit_listener (e : ProcessEvent) : bool :=
  match e with OnExit => true | OnSignal _ => false end.

Definition Signal_eqb (a b : Signal) : bool :=
  match a, b with
  | SIGINT, SIGINT | SIGQUIT, SIGQUIT | SIGTERM, SIGTERM => true
  | _, _ => false
  end.

Definition is_signal_listener (s : Signal) (e : ProcessEvent) : bool :=
  match e with OnSignal s' => Signal_eqb s s' | OnExit => false end.

(** The ['exit'] listener: [for (const child of childs) child.kill(signal)]. *)
Definition reap (w : World) : World :=
  with_kills (kills w ++ map (fun child => (child, signal w)) (childs w)) w.

(** [process.emit('exit')]: the [once] listeners of ['exit'] are detached
    and each of them runs. *)
Definition emit_exit (w : World) : World :=
  let listeners := List.filter is_exit_listener (process_once w) in
  let w := with_process_once
             (List.filter (fun e => negb (is_exit_listener e)) (process_once w)) w in
  fold_left (fun w _ => reap w) listeners w.

(** [process.exit(code)]: emits ['exit'] unless the process is already
    exiting, then ends the process. *)
Definition process_exit (code : Z) (w : World) : World :=
  let w := if exiting w then w else emit_exit (with_exiting w) in
  with_status (Exited code) w.

(** Detach the first listener satisfying [p]. *)
Fixpoint detach (p : ProcessEvent -> bool) (l : list ProcessEvent) : list ProcessEvent :=
  match l with
  | [] => []
  | e :: l' => if p e then l' else e :: detach p l'
  end.

(** The parent receives signal [s]. Without a listener the default
    disposition ends the process at once, and no ['exit'] event is emitted.
    With a listener, the first one is detached and runs
    [signal = event; process.exit(0)], which does not return. *)
Definition receive_signal (s : Signal) (w : World) : World :=
  if existsb (is_signal_listener s) (process_once w) then
    let w := with_process_once (detach (is_signal_listener s) (process_once w)) w in
    process_exit 0 (with_signal s w)
  else with_status (Killed s) w.

(** Rendering of [${code}] in a template string. *)
Definition show_code (code : ExitCode) : string :=
  match code with
  | Some z => NilZero.string_of_int (Z.to_int z)
  | None => "null"
  end.

(** [code !== 0] *)
Definition nonzero (code : ExitCode) : bool :=
  match code with Some z => negb (z =? 0)%Z | None => true end.

Definition new_child (l : Launch) : Child :=
  {| launch := l; once_exit := false; once_error := false; settle_calls := [] |}.

Definition listen_exit (c : Child) : Child :=
  mkChild (launch c) true (once_error c) (settle_calls c).

Definition listen_error (c : Child) : Child :=
  mkChild (launch c) (once_exit c) true (settle_calls c).

Definition unlisten_exit (c : Child) : Child :=
  mkChild (launch c) false (once_error c) (settle_calls c).

Definition unlisten_error (c : Child) : Child :=
  mkChild (launch c) (once_exit c) false (settle_calls c).

Definition settle (s : Settlement) (c : Child) : Child :=
  mkChild (launch c) (once_exit c) (once_error c) (settle_calls c ++ [s]).

Definition on_child (h : Handle) (f : Child -> Child) (w : World) : World :=
  with_children (fun cs => match cs !! h with
                           | Some c => <[h := f c]> cs
                           | None => cs
                           end) w.

(** [exports.forkNode]: the handle, and the world after the call. *)
Definition forkNode (modulePath : string) (args : list string) (w : World)
  : Handle * World :=
  let proc := length (children w) in
  let w := with_children (fun cs => cs ++ [new_child (Fork modulePath args)]) w in
  let w := gracefull proc w in
  (proc, on_child proc listen_exit w).

(** [exports.spawn] *)
Definition spawn (cmd : string) (args : list string) (w : World)
  : Handle * World :=
  let proc := length (children w) in
  let w := with_children (fun cs => cs ++ [new_child (Spawn cmd args)]) w in
  let w := gracefull proc w in
  let w := on_child proc listen_error w in
  (proc, on_child proc listen_exit w).

(** The body of the ['exit'] listener of a handle, after
    [childs.delete(proc)]. *)
Definition exit_settlement (l : Launch) (code : ExitCode) : Settlement :=
  match l with
  | Fork modulePath args =>
      if nonzero code
      then Rejected (Error (modulePath ++ " " ++ join "," args
                              ++ " exit with code " ++ show_code code)
                           (Some code))
      else Resolved
  | Spawn cmd args =>
      if nonzero code
      then Rejected (Error ("spawn " ++ cmd ++ " " ++ join " " args
                              ++ " fail, exit code: " ++ show_code code)
                           None)
      else Resolved
  end.

(** [proc.emit('exit', code)] *)
Definition child_exit (h : Handle) (code : ExitCode) (w : World) : World :=
  match children w !! h with
  | None => w
  | Some c =>
      let w := with_reported h w in
      if once_exit c then
        let w := on_child h unlisten_exit w in
        let w := with_deletion h (with_childs (set_delete h) w) in
        on_child h (settle (exit_settlement (launch c) code)) w
      else w
  end.

(** [proc.emit('error', err)]. An ['error'] event without a listener is
    thrown by the emitter; nothing catches it, so the process ends with
    status 1 after emitting ['exit']. *)
Definition child_error (h : Handle) (err : string) (w : World) : World :=
  match children w !! h with
  | None => w
  | Some c =>
      if once_error c then
        let w := on_child h unlisten_error w in
        on_child h (settle (Rejected (SystemError err))) w
      else process_exit 1 w
  end.

(** What can happen to the supervisor, from outside. *)
Inductive Input :=
| CallFork (modulePath : string) (args : list string)
| CallSpawn (cmd : string) (args : list string)
| ChildExit (h : Handle) (code : ExitCode)
| ChildError (h : Handle) (err : string)
| Receive (s : Signal)
| ParentExit (code : Z).

(** Nothing runs once the process has ended. *)
Definition step (w : World) (i : Input) : World :=
  match status w with
  | Running =>
      match i with
      | CallFork modulePath args => snd (forkNode modulePath args w)
      | CallSpawn cmd args => snd (spawn cmd args w)
      | ChildExit h code => child_exit h code w
      | ChildError h err => child_error h err w
      | Receive s => receive_signal s w
      | ParentExit code => process_exit code w
      end
  | _ => w
  end.

Definition run (inputs : list Input) (w : World) : World := fold_left step inputs w.

(** The settlement of the promise returned for handle [h]. *)
Definition settlement (h : Handle) (w : World) : option Settlement :=
  match children w !! h with
  | Some c => promise_state c
  | None => None
  end.

(** Number of [once] listeners registered for a signal. *)
Definition hooks_for (s : Signal) (w : World) : nat :=
  length (List.filter (is_signal_listener s) (process_once w)).


(** ** Invariants of the supervisor *)

(** The registry and the [once('exit')] listeners: a registered handle has
    not reported its exit, a handle listens for ['exit'] until it reports
    it, and [childs.delete] has been called once for each handle that
    reported its exit. *)
Record registry_inv (w : World) : Prop := {
  inv_nodup : NoDup (childs w);
  inv_registered : forall h, In h (childs w) ->
    h < length (children w) /\ ~ In h (reported w);
  inv_reported : forall h, In h (reported w) -> h < length (children w);
  inv_listening : forall h c, children w !! h = Some c ->
    (once_exit c = true <-> ~ In h (reported w));
  inv_deletions : NoDup (deletions w)
    /\ forall h, In h (deletions w) <-> In h (reported w)
}.

(** The hooks: while the process runs nothing has been killed; the four
    listeners are registered from the first launch on, and not before. *)
Record hooks_inv (w : World) : Prop := {
  inv_running : status w = Running -> exiting w = false /\ kills w = [];
  inv_hooked : status w = Running -> hadHook w = true ->
    process_once w = [OnSignal SIGINT; OnSignal SIGQUIT; OnSignal SIGTERM; OnExit];
  inv_unhooked : hadHook w = false ->
    process_once w = [] /\ childs w = [] /\ children w = []
}.

(** A child that has been launched and has not reported its exit is in
    the registry. *)
Definition tracked_inv (w : World) : Prop :=
  forall h, h < length (children w) -> ~ In h (reported w) -> In h (childs w).

(** While the process runs, no signal has been stored. *)
Definition signal_inv (w : World) : Prop :=
  status w = Running -> signal w = None.

(** The promise of a child that still listens for ['exit']: a forked child
    has no ['error'] listener and its promise is pending; the promise of a
    spawned child is pending while the ['error'] listener is attached, and
    rejected with the system error once that listener has run. *)
Definition promise_inv (w : World) : Prop :=
  forall h c, children w !! h = Some c -> once_exit c = true ->
    match launch c with
    | Fork _ _ => once_error c = false /\ settle_calls c = []
    | Spawn _ _ =>
        (once_error c = true /\ settle_calls c = [])
        \/ (once_error c = false
            /\ exists err, settle_calls c = [Rejected (SystemError err)])
    end.

(** The promises of [w'] continue those of [w]: every handle is still
    there, with the calls to [resolve]/[reject] it had, possibly followed
    by more. *)
Definition continues (w w' : World) : Prop :=
  forall h c, children w !! h = Some c ->
    exists c' more,
      children w' !! h = Some c' /\ settle_calls c' = settle_calls c ++ more.

(* --------------------------------------------------------------------- *)
(** ** Registry URLs and package installation *)
(* --------------------------------------------------------------------- *)

(** What [getRegistryByType] reads from its host. *)
Record Host := mkHost {
  host_env : string -> option string;      (* [process.env[name]] *)
  host_homedir : string;                   (* [homedir()] *)
  host_join : string -> string -> string;  (* [path.join] *)
  host_existsSync : string -> bool         (* [fs.existsSync] *)
}.

(** [s.replace(/\/$/, '')]: without a final slash. *)
Fixpoint strip_slash (s : string) : string :=
  match s with
  | EmptyString => EmptyString
  | String c rest =>
      if String.eqb s "/" then EmptyString else String c (strip_slash rest)
  end.

(** [/^https?:/.test(key)] *)
Definition is_http (key : string) : bool :=
  String.prefix "http:" key || String.prefix "https:" key.

(** [a || b] for an environment variable [a]. *)
Definition env_or (a : option string) (b : string) : string :=
  match a with
  | Some s => if String.eqb s "" then b else s
  | None => b
  end.

(** The [default] branch of the switch, for a key that is not a URL. *)
Definition registry_from_host (H : Host) : string :=
  let url := env_or (host_env H "npm_registry")
               (env_or (host_env H "npm_config_registry")
                       "https://registry.cnpmjs.org") in
  let url :=
    if host_existsSync H (host_join H (host_homedir H) ".cnpmrc")
       || host_existsSync H (host_join H (host_homedir H) ".tnpmrc")
    then "https://r.tnpm.oa.com" else url in
  strip_slash url.

(** [exports.getRegistryByType]; [None] is a call without a key. *)
Definition getRegistryByType (H : Host) (key : option string) : string :=
  match key with
  | Some k =>
      if String.eqb k "tnpm" then "http://r.tnpm.oa.com"
      else if String.eqb k "china" then "https://registry.npm.taobao.org"
      else if String.eqb k "npm" then "https://registry.npmjs.org"
      else if is_http k then strip_slash k
      else registry_from_host H
  | None => registry_from_host H
  end.

(** [exports.npmInstall] *)
Definition npmInstall (npmCli name : string) (w : World) : Handle * World :=
  spawn npmCli ["i"; name] w.

(** [exports.installToolkit]: the child it spawns. *)
Definition installToolkit (H : Host) (pkgName : string) (args : list string)
    (w : World) : Handle * World :=
  let localArgs := ["install"; pkgName] ++ args in
  let registryUrl := getRegistryByType H (Some "tnpm") in
  let localArgs :=
    if String.eqb registryUrl "" then localArgs
    else localArgs ++ ["--registry"; registryUrl] in
  spawn "npm" localArgs w.

(** The promise that [installToolkit] returns for the child [h]. Its
    [resolve] is called in the [then] of the promise of [spawn], which has
    no rejection handler; its [reject] is called only if [spawn] throws,
    which it does not do. *)
Definition installToolkit_promise (h : Handle) (w : World) : option Settlement :=
  match settlement h w with
  | Some Resolved => Some Resolved
  | _ => None
  end.

End Helper.

(* ===================================================================== *)
(** * [CommonBin]: registry, context and dispatch *)
(* ===================================================================== *)

Module Command.
Import Js.

(** A command class, known by its number in the class table. *)
Definition ClassId := nat.

(** Arrays of arguments live in a store and are known by their location:
    [this.rawArgv], the array given to [yargs(...)] and [context.rawArgv]
    are one array, while [slice()] makes a new one. *)
Definition loc := nat.

Inductive Error :=
| AssertionError (message : string)   (* a failed [assert] *)
| ParseError (message : string)       (* the [err] of [yargs.parse] *)
| RunError (message : string).        (* thrown or rejected by [run] *)

(** [this.parserOptions] *)
Record ParserOptions := mkParserOptions {
  opt_execArgv : bool;
  removeAlias : bool;
  removeCamelCase : bool
}.

Definition default_parserOptions : ParserOptions :=
  {| opt_execArgv := true; removeAlias := true; removeCamelCase := false |}.

(** The context object. The last four fields exist only when exec-argv
    flags were found; [debugPort] is then present and may hold
    [undefined]. *)
Record Context := mkContext {
  argv : obj;
  cwd : string;
  env : list (string * string);
  rawArgv : loc;
  execArgv : option (list string);
  execArgvObj : option obj;
  debugOptions : option obj;
  debugPort : option value
}.

(** What [add] is given: a command class, or the path of a module. *)
Inductive Target :=
| TClass (c : ClassId)
| TPath (path : string).

(** What a required module exports: a command class, a factory (called with
    the dispatcher; [result] is the class it returns), or something else. *)
Inductive Exports :=
| ExportsClass (c : ClassId)
| ExportsFactory (result : ClassId)
| ExportsOther.

(** The registrations a constructor performs, in order. *)
Inductive Registration :=
| Add (name : string) (target : Target)
| Alias (alias name : string).

(** A subclass of [CommonBin]: its static properties, what its constructor
    sets up, and the outcome of its [run] ([None]: completed, whatever the
    calling convention; [Some e]: threw or rejected). *)
Record Class := mkClass {
  class_name : string;
  class_alias : option string;
  class_description : string;
  class_version : option string;
  class_parserOptions : ParserOptions;
  class_setup : list Registration;
  class_run : Context -> option Error
}.

(** The collaborators outside the repository. *)
Record Platform := mkPlatform {
  camel : string -> string;                  (* [changeCase.camel] *)
  parser : string -> obj;                    (* [yargs-parser], on [$NODE_DEBUG_OPTION] *)
  unparse : obj -> list string;              (* [dargs] *)
  yargs_parse : ClassId -> list string -> Error + obj;
                                             (* [this.yargs.parse(rawArgv, cb)] *)
  yargs_argv : ClassId -> list string -> obj;
      (* [this.yargs.argv], for a vector on which the getter returns; a
         vector on which yargs prints the help or the version and ends
         the process builds no context *)
  yargs_alias : ClassId -> list (string * list string);
                                             (* [this.yargs.getOptions().alias] *)
  process_env : list (string * string);      (* [process.env] *)
  process_cwd : string;                      (* [process.cwd()] *)
  is_file : string -> bool;    (* [fs.existsSync(p) && fs.statSync(p).isFile()] *)
  require : string -> Exports
}.

(** [this[COMMANDS]] *)
Definition Registry := list (string * ClassId).

(** The file-system and path functions that [load] uses. *)
Record Files := mkFiles {
  fs_isDirectory : string -> bool;
                       (* [fs.existsSync(p) && fs.statSync(p).isDirectory()] *)
  fs_readdirSync : string -> list string;
  path_extname : string -> string;
  path_basename : string -> string;
  path_join : string -> string -> string
}.

(** [name.replace(/\.js$/, '')]: without a final [.js]. *)
Fixpoint strip_js (name : string) : string :=
  match name with
  | EmptyString => EmptyString
  | String c rest =>
      if String.eqb name ".js" then EmptyString else String c (strip_js rest)
  end.

(** An instance of a command class. *)
Record Instance := mkInstance {
  this_class : ClassId;
  this_rawArgv : loc;
  this_parserOptions : ParserOptions;
  this_COMMANDS : Registry;
  this_VERSION : option string;
  this_CONTEXT : option Context
}.

(** What a dispatch does to the outside. *)
Inductive Event :=
| Print (line : string)                          (* [console.log] *)
| Completion (c : ClassId) (args : list string)  (* [yargs.getCompletion] *)
| Run (c : ClassId) (ctx : Context)              (* [run] is called *)
| ReportError (e : Error)                        (* [console.error] of [errorHandler] *)
| ProcessExit (code : Z).                        (* [process.exit] *)

Record State := mkState {
  heap : list (list string);
  trace : list Event
}.

Inductive Outcome :=
| Done
| Throw (e : Error)
| OutOfFuel.

Definition read (st : State) (l : loc) : list string :=
  match heap st !! l with Some a => a | None => [] end.

Definition write (l : loc) (a : list string) (st : State) : State :=
  {| heap := <[l := a]> (heap st); trace := trace st |}.

(** A new array; its location is the next free one. *)
Definition alloc (a : list string) (st : State) : loc * State :=
  (length (heap st), {| heap := heap st ++ [a]; trace := trace st |}).

Definition emit (e : Event) (st : State) : State :=
  {| heap := heap st; trace := trace st ++ [e] |}.

(** A property with value [undefined]: the key is there, and reads as
    [undefined]. *)
Definition cleared (k : string) (o : obj) : Prop := lookup k o = Some VUndefined.

(** [o] is [parsed] with some properties set to [undefined]: every key of
    [parsed] is still a key, and a property reads as before or as
    [undefined]. *)
Definition only_cleared_from (parsed o : obj) : Prop :=
  (forall k, In k (keys parsed) -> In k (keys o))
  /\ (forall k, get o k = get parsed k \/ get o k = VUndefined).

Section WithPlatform.
Variable P : Platform.
Variable classes : ClassId -> Class.

(** ** Registry *)

(** [alias(alias, name)] *)
Definition alias (alias name : string) (commands : Registry) : Error + Registry :=
  if String.eqb alias "" then inl (AssertionError "alias command name is required")
  else match map_get name commands with
       | None => inl (AssertionError (name ++ " should be added first"))
       | Some target => inr (map_set alias target commands)
       end.

(** The part of [add] that turns a target that is not a command class into
    one. *)
Definition resolve (target : Target) : Error + ClassId :=
  match target with
  | TClass c => inr c
  | TPath path =>
      if is_file P path then
        match require P path with
        | ExportsClass c => inr c
        | ExportsFactory c => inr c
        | ExportsOther =>
            inl (AssertionError "command class should be sub class of CommonBin")
        end
      else inl (AssertionError (path ++ " is not a file."))
  end.

(** [add(name, target)] *)
Definition add (name : string) (target : Target) (commands : Registry)
  : Error + Registry :=
  if String.eqb name "" then inl (AssertionError (name ++ " is required"))
  else match resolve target with
       | inl e => inl e
       | inr c =>
           let commands := map_set name c commands in
           match class_alias (classes c) with
           | Some a => if String.eqb a "" then inr commands
                       else alias a name commands
           | None => inr commands
           end
       end.

Definition register (r : Registration) (commands : Registry) : Error + Registry :=
  match r with
  | Add name target => add name target commands
  | Alias a name => alias a name commands
  end.

Fixpoint register_all (rs : list Registration) (commands : Registry)
  : Error + Registry :=
  match rs with
  | [] => inr commands
  | r :: rs' =>
      match register r commands with
      | inl e => inl e
      | inr commands' => register_all rs' commands'
      end
  end.

(** [load(fullPath)]: the body of the loop over the files, and the whole.
    An exception of [add] ends the loop. *)
Definition load_file (F : Files) (fullPath : string)
    (commands : Error + Registry) (file : string) : Error + Registry :=
  match commands with
  | inl e => inl e
  | inr commands =>
      if String.eqb (path_extname F file) ".js"
      then add (strip_js (path_basename F file))
               (TPath (path_join F fullPath file)) commands
      else inr commands
  end.

Definition load (F : Files) (fullPath : string) (commands : Registry)
  : Error + Registry :=
  if fs_isDirectory F fullPath
  then fold_left (load_file F fullPath) (fs_readdirSync F fullPath) (inr commands)
  else inl (AssertionError (fullPath ++ " should exist and be a directory")).

(** [new Command(rawArgv)]: the base constructor, then the registrations of
    the subclass. *)
Definition construct (c : ClassId) (rawArgv : loc) : Error + Instance :=
  match register_all (class_setup (classes c)) [] with
  | inl e => inl e
  | inr commands =>
      inr {| this_class := c;
             this_rawArgv := rawArgv;
             this_parserOptions := class_parserOptions (classes c);
             this_COMMANDS := commands;
             this_VERSION := class_version (classes c);
             this_CONTEXT := None |}
  end.

(** ** Context *)

(** [argv[key] = undefined] *)
Definition unset (key : string) (argv : obj) : obj := set key VUndefined argv.

(** [key.includes('-')] *)
Definition includes_dash (key : string) : bool :=
  existsb (Ascii.eqb "-"%char) (list_ascii_of_string key).

Definition remove_aliases (aliases : list (string * list string)) (argv : obj) : obj :=
  fold_left (fun argv entry =>
               fold_left (fun argv item => unset item argv) (snd entry) argv)
            aliases argv.

Definition remove_camel_case (argv : obj) : obj :=
  fold_left (fun argv key =>
               if includes_dash key then unset (camel P key) argv else argv)
            (keys argv) argv.

(** [context.env.NODE_DEBUG_OPTION], when it is a non-empty string. *)
Definition NODE_DEBUG_OPTION (env : list (string * string)) : option string :=
  match map_get "NODE_DEBUG_OPTION" env with
  | Some s => if String.eqb s "" then None else Some s
  | None => None
  end.

(** The merge of what the environment variable yields into what the
    command argv yielded. *)
Definition merge_env (fromArgv obj : Helper.Extracted) : Helper.Extracted :=
  {| Helper.debugPort := or_else (Helper.debugPort obj) (Helper.debugPort fromArgv);
     Helper.debugOptions := assign (Helper.debugOptions fromArgv) (Helper.debugOptions obj);
     Helper.execArgvObj := assign (Helper.execArgvObj fromArgv) (Helper.execArgvObj obj) |}.

Definition extract_all (env : list (string * string)) (argv : obj) : Helper.Extracted :=
  let fromArgv := Helper.extractExecArgv argv in
  match NODE_DEBUG_OPTION env with
  | Some s => merge_env fromArgv (Helper.extractExecArgv (parser P s))
  | None => fromArgv
  end.

Definition remove_exec_keys (execArgvObj argv : obj) : obj :=
  fold_left (fun argv key => unset (camel P key) (unset key argv))
            (keys execArgvObj) argv.

(** [[...new Set(l)]] *)
Fixpoint unique (l : list string) : list string :=
  match l with
  | [] => []
  | x :: l' => x :: List.filter (fun y => negb (String.eqb y x)) (unique l')
  end.

(** [helper.unparseArgv(argv)] *)
Definition unparseArgv (argv : obj) : list string := unique (unparse P argv).

(** [argv.help = undefined; argv.h = undefined; argv.version = undefined;
    argv.v = undefined] *)
Definition clear_globals (argv : obj) : obj :=
  unset "v" (unset "version" (unset "h" (unset "help" argv))).

(** The argv after the global flags, the aliases and (when asked for) the
    camel-case keys have been cleared. *)
Definition clean_argv (options : ParserOptions)
    (aliases : list (string * list string)) (argv : obj) : obj :=
  let argv := clear_globals argv in
  let argv := if removeAlias options then remove_aliases aliases argv else argv in
  if removeCamelCase options then remove_camel_case argv else argv.

(** The body of the [context] getter when nothing is memoized yet. (The
    two console messages of this getter are not part of the model.) *)
Definition derive_context (options : ParserOptions)
    (aliases : list (string * list string)) (argv : obj) (rawArgv : loc) : Context :=
  let env := process_env P in
  let argv := clean_argv options aliases argv in
  if opt_execArgv options then
    let ex := extract_all env argv in
    let argv := remove_exec_keys (Helper.execArgvObj ex) argv in
    match keys (Helper.execArgvObj ex) with
    | [] =>
        {| argv := argv; cwd := process_cwd P; env := env; rawArgv := rawArgv;
           execArgv := None; execArgvObj := None;
           debugOptions := None; debugPort := None |}
    | _ :: _ =>
        {| argv := argv; cwd := process_cwd P; env := env; rawArgv := rawArgv;
           execArgv := Some (unparseArgv (Helper.execArgvObj ex));
           execArgvObj := Some (Helper.execArgvObj ex);
           debugOptions := Some (Helper.debugOptions ex);
           debugPort := Some (Helper.debugPort ex) |}
    end
  else
    {| argv := argv; cwd := process_cwd P; env := env; rawArgv := rawArgv;
       execArgv := None; execArgvObj := None;
       debugOptions := None; debugPort := None |}.

Definition memoize (ctx : Context) (this : Instance) : Instance :=
  mkInstance (this_class this) (this_rawArgv this) (this_parserOptions this)
             (this_COMMANDS this) (this_VERSION this) (Some ctx).

(** [get context()]: built once and memoized. *)
Definition context (this : Instance) (st : State) : Context * Instance :=
  match this_CONTEXT this with
  | Some ctx => (ctx, this)
  | None =>
      let ctx := derive_context (this_parserOptions this)
                   (yargs_alias P (this_class this))
                   (yargs_argv P (this_class this) (read st (this_rawArgv this)))
                   (this_rawArgv this) in
      (ctx, memoize ctx this)
  end.

(** ** Dispatch *)

(** [parsed._[0]]; yargs always supplies the array [_]. *)
Definition first_positional (parsed : obj) : value :=
  match get parsed "_" with
  | VArr (x :: _) => x
  | _ => VUndefined
  end.

(** The first positional token that the parser reports is a token of the
    vector it was given. *)
Definition positional_from_raw : Prop :=
  forall c raw parsed name,
    yargs_parse P c raw = inr parsed ->
    first_positional parsed = VStr name ->
    In name raw.

(** [this[COMMANDS].get(commandName)]: the keys are strings, so only a
    string can be found. *)
Definition find_command (commandName : value) (commands : Registry) : option ClassId :=
  match commandName with
  | VStr name => map_get name commands
  | _ => None
  end.

(** [parsed.version && this.version] *)
Definition version_requested (parsed : obj) (this : Instance) : option string :=
  if truthy (get parsed "version") then
    match this_VERSION this with
    | Some v => if String.eqb v "" then None else Some v
    | None => None
    end
  else None.

(** [rawArgv.indexOf(commandName)] for the string that was found. *)
Definition indexOf_value (commandName : value) (arr : list string) : Z :=
  match commandName with
  | VStr name => indexOf name arr
  | _ => (-1)%Z
  end.

(** The generator [DISPATCH]. What it configures on yargs beforehand (help,
    version, their aliases, completion) and the child commands it registers
    for the help text are part of the parser, a parameter here. Each level
    of recursion into a subcommand uses one unit of [fuel]. *)
Fixpoint DISPATCH (fuel : nat) (this : Instance) (st : State) : Outcome * State :=
  match fuel with
  | 0 => (OutOfFuel, st)
  | S fuel' =>
      match yargs_parse P (this_class this) (read st (this_rawArgv this)) with
      | inl err => (Throw err, st)
      | inr parsed =>
          let commandName := first_positional parsed in
          match version_requested parsed this with
          | Some v => (Done, emit (Print v) st)
          | None =>
              match find_command commandName (this_COMMANDS this) with
              | Some Command =>
                  let (rawArgv, st) := alloc (read st (this_rawArgv this)) st in
                  let st := write rawArgv
                              (splice (indexOf_value commandName (read st rawArgv)) 1 []
                                      (read st rawArgv)) st in
                  match construct Command rawArgv with
                  | inl err => (Throw err, st)
                  | inr command => DISPATCH fuel' command st
                  end
              | None =>
                  let (context, this) := context this st in
                  if truthy (get (argv context) "AUTO_COMPLETIONS") then
                    (Done, emit (Completion (this_class this)
                                   (skipn 1 (read st (this_rawArgv this)))) st)
                  else
                    let st := emit (Run (this_class this) context) st in
                    match class_run (classes (this_class this)) context with
                    | Some err => (Throw err, st)
                    | None => (Done, st)
                    end
              end
          end
      end
  end.

(** [start()] *)
Definition start (fuel : nat) (this : Instance) (st : State) : Outcome * State :=
  let raw := read st (this_rawArgv this) in
  let index := indexOf "--get-yargs-completions" raw in
  let st :=
    if (index =? -1)%Z then st
    else write (this_rawArgv this)
           (splice index 2 [("--AUTO_COMPLETIONS=" ++ join "," raw)%string] raw) st in
  match DISPATCH fuel this st with
  | (Throw err, st) => (Done, emit (ProcessExit 1) (emit (ReportError err) st))
  | r => r
  end.

End WithPlatform.

End Command.
(* ===================================================================== *)
(** * The webpack runner *)
(* ===================================================================== *)

Module Webpack.
Import Js.

(** What the runner uses of a webpack [Stats] object. *)
Record Stats := mkStats {
  hasErrors : bool;
  hasWarnings : bool;
  toString : value -> string
}.

(** [typeof v === 'object' && v !== null] *)
Definition is_object (v : value) : bool :=
  match v with VArr _ | VObj _ => true | _ => false end.

Fixpoint indexed (i : nat) (items : list value) : obj :=
  match items with
  | [] => []
  | x :: rest => (NilZero.string_of_uint (Nat.to_uint i), x) :: indexed (S i) rest
  end.

(** The own enumerable properties that [Object.assign] copies from a
    source. *)
Definition own_properties (v : value) : obj :=
  match v with
  | VObj fields => fields
  | VArr items => indexed 0 items
  | _ => []
  end.

(** [typeof v === 'object' && v !== null ? v : {}], as a source of
    [Object.assign]. *)
Definition object_or_empty (v : value) : obj :=
  if is_object v then own_properties v else [].

Definition default_opts : obj := [("log", VBool true); ("stats", VObj [])].

Definition default_stats : obj :=
  [("colors", VBool true); ("modules", VBool false);
   ("chunkModules", VBool false); ("errorDetails", VBool true)].

(** The options of a run, from the second argument [_opts]. *)
Definition opts (_opts : value) : obj :=
  let opts := assign default_opts (object_or_empty _opts) in
  set "stats" (VObj (assign default_stats (object_or_empty (get opts "stats")))) opts.

(** Reading a property of [undefined]. *)
Inductive Thrown := TypeError.

(** [class WebpackError]: the message, the name, and the two fields behind
    the symbols [ERROR] and [STATS]. *)
Record WebpackError := mkWebpackError {
  message : string;
  name : string;
  ERROR : value;
  STATS : option Stats
}.

(** [new WebpackError(err, stats)] *)
Definition new_WebpackError (err : value) (stats : option Stats)
  : Thrown + WebpackError :=
  if truthy err then inr (mkWebpackError "WebpackRuntimeError" "WebpackError" err stats)
  else match stats with
       | None => inl TypeError
       | Some s =>
           if hasErrors s || hasWarnings s
           then inr (mkWebpackError "WebpackCompilationError" "WebpackError" err stats)
           else inr (mkWebpackError "UnknowWebpackError" "WebpackError" err stats)
       end.

(** The methods [err()] and [stats()]. *)
Definition err (e : WebpackError) : value := ERROR e.
Definition stats (e : WebpackError) : option Stats := STATS e.

Inductive Settled :=
| Resolve (stats : Stats)
| Reject (e : WebpackError).

(** The callback given to [webpack(config).run]: the lines printed with
    [console.log], and the call to [resolve] or [reject], or the exception
    that leaves the callback. *)
Definition callback (opts : obj) (err : value) (stats : option Stats)
  : list string * (Thrown + Settled) :=
  let printed :=
    match stats with
    | Some s => if truthy (get opts "log") then [toString s (get opts "stats")] else []
    | None => []
    end in
  let rejected :=
    match new_WebpackError err stats with
    | inl t => inl t
    | inr e => inr (Reject e)
    end in
  (printed,
   if truthy err then rejected
   else match stats with
        | None => inl TypeError
        | Some s => if hasErrors s then rejected else inr (Resolve s)
        end).

(** The runner, applied to the options and to the outcome [(err, stats)]
    that webpack reports. *)
Definition runner (_opts : value) (err : value) (stats : option Stats)
  : list string * (Thrown + Settled) :=
  callback (opts _opts) err stats.

End Webpack.

(* ===================================================================== *)
(** * Dumping a configuration: [convertObject] and [convertValue] *)
(* ===================================================================== *)

Module Dump.

#[local] Set Warnings "-register-all".

(** The values that [convertValue] tells apart, as a tree: an object that
    is reachable along one path only. [Plain] is an object whose prototype
    is [Object.prototype]; [Instance] is any other object that is not an
    array, a regular expression or a function, with the name of its
    constructor, its length when it is a [Buffer], and its rendering by
    [util.format]. *)
Inductive value :=
| Undefined
| Null
| Boolean (b : bool)
| Number (x : float)
| Str (s : string)
| Symbol (text : string)                  (* [text] is [value.toString()] *)
| RegExp (text : string)                  (* [text] is [value.toString()] *)
| Array (items : list value)
| Plain (fields : list (string * value))
| Class (name : string)
| Function (generator : bool) (name : string)
| Instance (typeName : string) (buffer : option nat) (format : string).

(** An element of the [ignore] array. *)
Inductive Matcher :=
| MString (s : string)
| MRegExp (test : string -> bool)
| MOther.

(** The [ignore] argument of [convertObject]: an array, or one value. *)
Inductive Ignore :=
| Many (l : list Matcher)
| One (m : Matcher).

(** [if (!is.array(ignore)) ignore = [ignore]] *)
Definition as_array (ignore : Ignore) : list Matcher :=
  match ignore with Many l => l | One m => [m] end.

(** The test of one [matchKey] in the loop of [convertValue]. *)
Definition hits (key : string) (matchKey : Matcher) : bool :=
  match matchKey with
  | MString s => String.eqb s key
  | MRegExp test => test key
  | MOther => false
  end.

Definition show_nat (n : nat) : string := NilZero.string_of_uint (Nat.to_uint n).

(** [value.name || 'anonymous'] *)
Definition name_or_anonymous (name : string) : string :=
  if String.eqb name "" then "anonymous" else name.

(** The returns of the block [if (!hit)]. *)
Definition unhit (value : value) : option Dump.value :=
  match value with
  | Symbol text | RegExp text => Some (Str text)
  | Boolean _ | Number _ | Str _ => Some value
  | Array _ => Some value
  | _ => None
  end.

(** The [length] of a string is its number of UTF-16 code units. A string
    is held here as the bytes of its UTF-8 encoding: a byte that continues
    a character (10xxxxxx) adds no unit, the first byte of a four-byte
    character (11110xxx) adds the two units of a surrogate pair, and every
    other byte adds one. *)
Definition utf16_units (c : ascii) : nat :=
  let n := N_of_ascii c in
  if ((128 <=? n) && (n <? 192))%N then 0
  else if (240 <=? n)%N then 2
  else 1.

Fixpoint utf16_length (s : string) : nat :=
  match s with
  | EmptyString => 0
  | String c rest => utf16_units c + utf16_length rest
  end.

(** [value.constructor.name], with [value.length] when [is.buffer(value)]
    or [is.string(value)]. *)
Definition constructor_name (value : value) : string * option nat :=
  match value with
  | Boolean _ => ("Boolean", None)
  | Number _ => ("Number", None)
  | Str s => ("String", Some (utf16_length s))
  | Symbol _ => ("Symbol", None)
  | RegExp _ => ("RegExp", None)
  | Array _ => ("Array", None)
  | Plain _ => ("Object", None)
  | Class _ | Function _ _ => ("Function", None)
  | Instance typeName buffer _ => (typeName, buffer)
  | Undefined | Null => ("", None)
  end.

(** The last part of [convertValue], for a value that is neither a plain
    object, a class nor a function. *)
Definition describe (value : value) : Dump.value :=
  let '(typeName, len) := constructor_name value in
  if String.eqb typeName "" then
    match value with
    | Instance _ _ format => Str format
    | _ => value
    end
  else
    match len with
    | Some n => Str ("<" ++ typeName ++ " len: " ++ show_nat n ++ ">")
    | None => Str ("<" ++ typeName ++ ">")
    end.

(** [convertValue(key, value, ignore)], with the loop of [convertObject]
    over the properties of a plain object. An assignment [obj[key] = ...]
    to a property that exists keeps its place. *)
Fixpoint convertValue (key : string) (value : value) (ignore : list Matcher)
  {struct value} : Dump.value :=
  match value with
  | Undefined | Null => value
  | _ =>
      let hit := existsb (hits key) ignore in
      match (if hit then None else unhit value) with
      | Some r => r
      | None =>
          match value with
          | Plain fields =>
              Plain ((fix each (fs : list (string * Dump.value)) :=
                        match fs with
                        | [] => []
                        | (k, v) :: rest => (k, convertValue k v ignore) :: each rest
                        end) fields)
          | Class name => Str ("<Class " ++ name_or_anonymous name ++ ">")
          | Function generator name =>
              Str (if generator
                   then "<GeneratorFunction " ++ name_or_anonymous name ++ ">"
                   else "<Function " ++ name_or_anonymous name ++ ">")
          | _ => describe value
          end
      end
  end.

(** [convertObject(obj, ignore)]: the properties of [obj] after the call. *)
Definition convertObject (obj : list (string * value)) (ignore : Ignore)
  : list (string * value) :=
  map (fun kv => (fst kv, convertValue (fst kv) (snd kv) (as_array ignore))) obj.

(** What [JSON.stringify] can write without a function, a symbol, a
    regular expression or an instance of a class, arrays left aside. *)
Fixpoint plain_data (v : value) : bool :=
  match v with
  | Undefined | Null | Boolean _ | Number _ | Str _ | Array _ => true
  | Plain fields =>
      (fix all (fs : list (string * value)) :=
         match fs with
         | [] => true
         | (_, v') :: rest => plain_data v' && all rest
         end) fields
  | _ => false
  end.

End Dump.

(* ===================================================================== *)
(** * The [helper] getter of a command *)
(* ===================================================================== *)

Module Binding.

#[local] Set Warnings "-register-all".

(** A property of the helper module, which every command shares: an arrow
    function (as [forkNode], [spawn], [npmInstall], [unparseArgv],
    [extractExecArgv], [getRegistryByType], [getToolkitDir],
    [mergeWebpackConfig] and [dumpConfig] are), a function written with
    [function] or [function*] (as [callFn], [getPackageInfo] and
    [installToolkit] are), the result of [target.bind(this)], or a value
    that is not a function. *)
Inductive Export :=
| Arrow (name : string)
| Function (name : string)
| Bound (this : nat) (target : Export)
| NotFunction.

(** [typeof f === 'function'] *)
Definition is_function (f : Export) : bool :=
  match f with NotFunction => false | _ => true end.

Record State := mkState {
  helper : list (string * Export);   (* the module object *)
  HELPER : list nat                  (* the commands whose [this[HELPER]] is set *)
}.

(** [get helper()] of the command [this]: every function of the module is
    replaced by [helper[key].bind(this)]. *)
Definition get_helper (st : State) (this : nat) : State :=
  if existsb (Nat.eqb this) (HELPER st) then st
  else {| helper := map (fun kv => (fst kv,
                                    if is_function (snd kv)
                                    then Bound this (snd kv) else snd kv))
                        (helper st);
          HELPER := this :: HELPER st |}.

(** The [this] that the body of a function runs with. *)
Inductive Receiver :=
| OfModule              (* that of the module in which an arrow function is written *)
| OfCall                (* the object on which the function is called *)
| OfCommand (this : nat).

(** A call of a bound function runs its target with the bound [this];
    an arrow function takes no [this] from a call, and a target that is
    bound already keeps its own. *)
Fixpoint receiver_of (f : Export) : option Receiver :=
  match f with
  | Arrow _ => Some OfModule
  | Function _ => Some OfCall
  | Bound this target =>
      match receiver_of target with
      | Some OfCall => Some (OfCommand this)
      | r => r
      end
  | NotFunction => None
  end.

(** The [this] that a call of [this.helper[key](...)] runs with. *)
Definition receiver (st : State) (key : string) : option Receiver :=
  match Js.map_get key (helper st) with
  | Some f => receiver_of f
  | None => None
  end.

End Binding.


(* ===================================================================== *)
(** * A concrete platform, for examples *)
(* ===================================================================== *)

(** A small stand-in for the collaborators, following the conventions of
    yargs on the token shapes used in the examples below: [--k=v] sets [k]
    to [v]; [--k] followed by a token that is not a flag takes it as its
    value; a flag alone, and the declared booleans [help], [h], [version],
    [v], are [true]; anything else is positional; digit strings become
    numbers. *)
Module Demo.
Import Js Command.

Definition is_flag (tok : string) : bool := String.prefix "-" tok.

Fixpoint strip_dashes (tok : string) : string :=
  match tok with
  | String c rest => if Ascii.eqb c "-"%char then strip_dashes rest else tok
  | EmptyString => tok
  end.

(** Splits [k=v] at the first [=]. *)
Fixpoint split_eq (s : string) : string * option string :=
  match s with
  | EmptyString => (EmptyString, None)
  | String c rest =>
      if Ascii.eqb c "="%char then (EmptyString, Some rest)
      else let (k, v) := split_eq rest in (String c k, v)
  end.

Definition number_of (n : N) : float :=
  PrimFloat.of_uint63 (Uint63.of_Z (Z.of_N n)).

Definition coerce (s : string) : value :=
  match s with
  | EmptyString => VStr s
  | _ => match digits_value s 0%N with
         | Some n => VNum (number_of n)
         | None => VStr s
         end
  end.

Definition is_boolean_flag (k : string) : bool :=
  Helper.includes k ["help"; "h"; "version"; "v"].

(** The canonical name of a short global flag. *)
Definition long_name (k : string) : string :=
  if String.eqb k "h" then "help" else if String.eqb k "v" then "version" else k.

Definition set_flag (k : string) (v : value) (flags : obj) : obj :=
  set (long_name k) v (set k v flags).

(** Positional tokens with their index in the raw vector, and the flags. *)
Fixpoint scan (raw : list string) (i : nat) (pos : list (nat * string)) (flags : obj)
  : list (nat * string) * obj :=
  match raw with
  | [] => (pos, flags)
  | tok :: rest =>
      if is_flag tok then
        match split_eq (strip_dashes tok) with
        | (k, Some v) => scan rest (S i) pos (set_flag k (coerce v) flags)
        | (k, None) =>
            if is_boolean_flag k then scan rest (S i) pos (set_flag k (VBool true) flags)
            else match rest with
                 | nxt :: rest' =>
                     if is_flag nxt
                     then scan rest (S i) pos (set_flag k (VBool true) flags)
                     else scan rest' (S (S i)) pos (set_flag k (coerce nxt) flags)
                 | [] => (pos, set_flag k (VBool true) flags)
                 end
        end
      else scan rest (S i) (pos ++ [(i, tok)]) flags
  end.

(** The indices, in the raw vector, of the positional tokens. *)
Definition positional_indices (raw : list string) : list nat :=
  map fst (fst (scan raw 0 [] [])).

Definition parse_tokens (raw : list string) : obj :=
  let (pos, flags) := scan raw 0 [] [] in
  ("_", VArr (map (fun p => coerce (snd p)) pos)) :: flags.

(** Words of a command line, separated by single spaces. *)
Fixpoint words_from (s : string) (cur : string) : list string :=
  match s with
  | EmptyString => match cur with EmptyString => [] | _ => [cur] end
  | String c rest =>
      if Ascii.eqb c " "%char
      then match cur with
           | EmptyString => words_from rest EmptyString
           | _ => cur :: words_from rest EmptyString
           end
      else words_from rest (cur ++ String c EmptyString)%string
  end.

Definition upcase (c : ascii) : ascii :=
  let n := N_of_ascii c in
  if ((97 <=? n) && (n <=? 122))%N then ascii_of_N (n - 32) else c.

(** [debug-port] becomes [debugPort]. *)
Fixpoint camel_case (s : string) : string :=
  match s with
  | EmptyString => EmptyString
  | String c rest =>
      if Ascii.eqb c "-"%char then
        match rest with
        | String d rest' => String (upcase d) (camel_case rest')
        | EmptyString => EmptyString
        end
      else String c (camel_case rest)
  end.

Definition render (kv : string * value) : list string :=
  match snd kv with
  | VBool true => [("--" ++ fst kv)%string]
  | VStr s => [("--" ++ fst kv ++ "=" ++ s)%string]
  | _ => [("--" ++ fst kv)%string]
  end.

Definition platform (process_env : list (string * string)) : Platform :=
  {| camel := camel_case;
     parser := fun s => parse_tokens (words_from s EmptyString);
     unparse := fun o => concat (map render o);
     yargs_parse := fun _ raw => inr (parse_tokens raw);
     yargs_argv := fun _ raw => parse_tokens raw;
     yargs_alias := fun _ => [("help", ["h"]); ("version", ["v"])];
     process_env := process_env;
     process_cwd := "/work";
     is_file := fun p => String.eqb p "/cmd/build.js";
     require := fun p => if String.eqb p "/cmd/build.js" then ExportsClass 2
                         else ExportsOther |}.

(** A directory [/cmd] that holds [build.js] and [README.md]; names are
    split at the last dot. *)
Fixpoint ext_from (s : string) (ext : string) (seen_dot : bool) : string :=
  match s with
  | EmptyString => if seen_dot then ext else EmptyString
  | String c rest =>
      if Ascii.eqb c "."%char then ext_from rest (String c EmptyString) true
      else ext_from rest (ext ++ String c EmptyString)%string seen_dot
  end.

Definition files : Files :=
  {| fs_isDirectory := fun p => String.eqb p "/cmd";
     fs_readdirSync := fun p => if String.eqb p "/cmd"
                                then ["README.md"; "build.js"] else [];
     path_extname := fun f => ext_from f EmptyString false;
     path_basename := fun f => f;
     path_join := fun d f => (d ++ "/" ++ f)%string |}.

Definition leaf (name : string) : Class :=
  {| class_name := name; class_alias := None; class_description := "";
     class_version := None; class_parserOptions := default_parserOptions;
     class_setup := []; class_run := fun _ => None |}.

(** Class 0 is the main command with subcommand [deploy] (class 1) and its
    alias [d]; every other class is a command without subcommands. *)
Definition classes (c : ClassId) : Class :=
  match c with
  | 0 => {| class_name := "Main"; class_alias := None; class_description := "";
            class_version := None; class_parserOptions := default_parserOptions;
            class_setup := [Add "deploy" (TClass 1); Alias "d" "deploy"];
            class_run := fun _ => None |}
  | 1 => leaf "Deploy"
  | _ => leaf "Build"
  end.

(** The main command over the array at location 0. *)
Definition main : Instance :=
  {| this_class := 0; this_rawArgv := 0;
     this_parserOptions := default_parserOptions;
     this_COMMANDS := [("deploy", 1); ("d", 1)];
     this_VERSION := None; this_CONTEXT := None |}.

(** The same command with a version string configured. *)
Definition versioned : Instance :=
  {| this_class := 0; this_rawArgv := 0;
     this_parserOptions := default_parserOptions;
     this_COMMANDS := [("deploy", 1); ("d", 1)];
     this_VERSION := Some "1.2.3"; this_CONTEXT := None |}.

Definition state_of (raw : list string) : State := {| heap := [raw]; trace := [] |}.

End Demo.
Module JsFacts.
Import Js.

(** ** Facts about objects *)

Lemma has_key_lookup k o : has_key k o = true <-> lookup k o <> None.
Proof.
  induction o as [|[k' v'] o IH]; simpl.
  - split; [discriminate | congruence].
  - destruct (String.eqb k' k); simpl; [split; [discriminate | reflexivity]|exact IH].
Qed.

Lemma has_key_false k o : has_key k o = false <-> lookup k o = None.
Proof.
  split; intros H.
  - destruct (lookup k o) eqn:E; [|reflexivity].
    assert (has_key k o = true) by (apply has_key_lookup; congruence). congruence.
  - destruct (has_key k o) eqn:E; [|reflexivity].
    apply has_key_lookup in E. congruence.
Qed.

Lemma lookup_update k v o j :
  lookup j (update k v o) =
  if String.eqb k j then (match lookup k o with Some _ => Some v | None => None end)
  else lookup j o.
Proof.
  induction o as [|[k' v'] o IH]; simpl.
  - destruct (String.eqb k j); reflexivity.
  - destruct (String.eqb k' k) eqn:E; simpl.
    + apply String.eqb_eq in E. subst k'.
      destruct (String.eqb k j); reflexivity.
    + rewrite IH. destruct (String.eqb k j) eqn:E2.
      * apply String.eqb_eq in E2. subst j. rewrite E. reflexivity.
      * reflexivity.
Qed.

Lemma lookup_insert_index n k v o j :
  lookup k o = None ->
  lookup j (insert_index n k v o) = if String.eqb k j then Some v else lookup j o.
Proof.
  induction o as [|[k' v'] o IH]; simpl; intros Hk.
  - reflexivity.
  - destruct (String.eqb k' k) eqn:E; [discriminate|].
    assert (Hhead : lookup j ((k, v) :: (k', v') :: o) =
                    if String.eqb k j then Some v
                    else if String.eqb k' j then Some v' else lookup j o)
      by reflexivity.
    destruct (array_index k') as [m|]; [destruct (m <? n)%N|]; try exact Hhead.
    simpl. rewrite (IH Hk).
    destruct (String.eqb k' j) eqn:E2; [|reflexivity].
    apply String.eqb_eq in E2. subst j.
    rewrite String.eqb_sym, E. reflexivity.
Qed.

Lemma lookup_app_single k v o j :
  lookup k o = None ->
  lookup j (o ++ [(k, v)]) = if String.eqb k j then Some v else lookup j o.
Proof.
  induction o as [|[k' v'] o IH]; simpl; intros Hk.
  - reflexivity.
  - destruct (String.eqb k' k) eqn:E; [discriminate|].
    rewrite (IH Hk).
    destruct (String.eqb k' j) eqn:E2; [|reflexivity].
    apply String.eqb_eq in E2. subst j.
    rewrite String.eqb_sym, E. reflexivity.
Qed.

(** Reading after writing. *)
Lemma lookup_set k v o j :
  lookup j (set k v o) = if String.eqb k j then Some v else lookup j o.
Proof.
  unfold set. destruct (has_key k o) eqn:E.
  - rewrite lookup_update. apply has_key_lookup in E.
    destruct (lookup k o); [reflexivity | congruence].
  - apply has_key_false in E.
    destruct (array_index k).
    + apply lookup_insert_index; exact E.
    + apply lookup_app_single; exact E.
Qed.

Lemma get_set_eq k v o : get (set k v o) k = v.
Proof. unfold get. rewrite lookup_set, String.eqb_refl. reflexivity. Qed.

Lemma get_set_ne k v o j : k <> j -> get (set k v o) j = get o j.
Proof.
  intros H. unfold get. rewrite lookup_set.
  destruct (String.eqb k j) eqn:E; [apply String.eqb_eq in E; contradiction|reflexivity].
Qed.

Lemma lookup_In_keys k o v : lookup k o = Some v -> In k (keys o).
Proof.
  induction o as [|[k' v'] o IH]; simpl; [discriminate|].
  destruct (String.eqb k' k) eqn:E.
  - apply String.eqb_eq in E. auto.
  - auto.
Qed.


Lemma lookup_None_keys k o : lookup k o = None <-> ~ In k (keys o).
Proof.
  induction o as [|[k' v'] o IH]; simpl.
  - tauto.
  - destruct (String.eqb k' k) eqn:E.
    + apply String.eqb_eq in E. split; [discriminate | tauto].
    + apply String.eqb_neq in E. tauto.
Qed.

Lemma keys_update k v o : keys (update k v o) = keys o.
Proof.
  induction o as [|[k' v'] o IH]; simpl; [reflexivity|].
  destruct (String.eqb k' k); simpl; [reflexivity | f_equal; exact IH].
Qed.

Lemma In_keys_insert_index n k v o j :
  In j (keys (insert_index n k v o)) <-> k = j \/ In j (keys o).
Proof.
  induction o as [|[k' v'] o IH]; simpl.
  - tauto.
  - destruct (array_index k') as [m|]; [destruct (m <? n)%N|]; simpl; tauto.
Qed.

Lemma NoDup_keys_insert_index n k v o :
  ~ In k (keys o) -> NoDup (keys o) -> NoDup (keys (insert_index n k v o)).
Proof.
  induction o as [|[k' v'] o IH]; simpl; intros Hk Hnd.
  - apply NoDup_singleton.
  - apply NoDup_cons in Hnd as [Hk' Hnd']. rewrite list_elem_of_In in Hk'.
    assert (Hhead : NoDup (k :: k' :: keys o)).
    { apply NoDup_cons. split.
      - rewrite list_elem_of_In. simpl. tauto.
      - apply NoDup_cons. rewrite list_elem_of_In. split; assumption. }
    destruct (array_index k') as [m|]; [destruct (m <? n)%N|]; try exact Hhead.
    simpl. apply NoDup_cons. split.
    + rewrite list_elem_of_In, In_keys_insert_index.
      intros [E|E]; [apply Hk; left; congruence | exact (Hk' E)].
    + apply IH; [intros E; apply Hk; right; exact E | exact Hnd'].
Qed.

(** Writing a property keeps the keys of an object distinct. *)
Lemma NoDup_keys_set k v o : NoDup (keys o) -> NoDup (keys (set k v o)).
Proof.
  intros Hnd. unfold set. destruct (has_key k o) eqn:E.
  - rewrite keys_update. exact Hnd.
  - apply has_key_false, lookup_None_keys in E.
    destruct (array_index k).
    + apply NoDup_keys_insert_index; assumption.
    + unfold keys. rewrite map_app. simpl.
      apply NoDup_app. split; [exact Hnd|]. split.
      * intros x Hx Hx'. apply list_elem_of_In in Hx.
        apply list_elem_of_In in Hx'. destruct Hx' as [<-|[]]. contradiction.
      * apply NoDup_singleton.
Qed.

(** [Object.assign]: a property of the source overwrites that of the
    target; every other property of the target is kept. *)
Lemma lookup_assign source : forall target k,
  NoDup (keys source) ->
  lookup k (assign target source) =
  match lookup k source with Some v => Some v | None => lookup k target end.
Proof.
  unfold assign.
  induction source as [|[k' v'] source IH]; intros target k Hnd; simpl.
  - reflexivity.
  - cbn in Hnd. apply NoDup_cons in Hnd as [Hk' Hnd']. rewrite list_elem_of_In in Hk'.
    rewrite IH by exact Hnd'. rewrite lookup_set. cbn [fst snd].
    destruct (String.eqb k' k) eqn:E.
    + apply String.eqb_eq in E. subst k'.
      apply lookup_None_keys in Hk'. rewrite Hk'. reflexivity.
    + reflexivity.
Qed.

Lemma NoDup_keys_assign source : forall target,
  NoDup (keys target) -> NoDup (keys (assign target source)).
Proof.
  unfold assign. induction source as [|[k v] source IH]; intros target H; simpl.
  - exact H.
  - apply IH, NoDup_keys_set, H.
Qed.

Lemma lookup_keys_nonempty k o v : lookup k o = Some v -> keys o <> [].
Proof. intros H E. apply lookup_In_keys in H. rewrite E in H. destruct H. Qed.

(** A property set to [undefined] stays so under further clearing. *)
Lemma lookup_set_undefined_keeps k j o :
  lookup k o = Some VUndefined -> lookup k (set j VUndefined o) = Some VUndefined.
Proof.
  intros H. rewrite lookup_set. destruct (String.eqb j k); [reflexivity | exact H].
Qed.


(** ** Facts about arrays and maps *)

Lemma indexOf_bound x arr : (-1 <= indexOf x arr < Z.of_nat (length arr))%Z.
Proof.
  induction arr as [|y arr IH]; simpl; [lia|].
  destruct (String.eqb y x); [lia|].
  destruct (indexOf x arr =? -1)%Z eqn:E; lia.
Qed.

Lemma indexOf_absent x arr : ~ In x arr <-> indexOf x arr = (-1)%Z.
Proof.
  induction arr as [|y arr IH]; simpl; [tauto|].
  destruct (String.eqb y x) eqn:E.
  - apply String.eqb_eq in E. split; [tauto | discriminate].
  - apply String.eqb_neq in E.
    pose proof (indexOf_bound x arr) as Hb.
    destruct (indexOf x arr =? -1)%Z eqn:E2.
    + apply Z.eqb_eq in E2. tauto.
    + apply Z.eqb_neq in E2. split; [tauto | intros; lia].
Qed.

(** [indexOf] finds the first occurrence. *)
Lemma indexOf_first x arr :
  In x arr ->
  exists before after,
    arr = before ++ x :: after /\ ~ In x before
    /\ indexOf x arr = Z.of_nat (length before).
Proof.
  induction arr as [|y arr IH]; simpl; [tauto|].
  intros Hin. destruct (String.eqb y x) eqn:E.
  - apply String.eqb_eq in E. subst y. exists [], arr. simpl. tauto.
  - apply String.eqb_neq in E. destruct Hin as [Hin|Hin]; [contradiction|].
    destruct (IH Hin) as (before & after & -> & Hnot & Hidx).
    exists (y :: before), after. simpl. split; [reflexivity|]. split; [tauto|].
    rewrite Hidx. destruct (Z.of_nat (length before) =? -1)%Z eqn:E2; lia.
Qed.

(** [splice(i, 1)] at the position of an element removes that element and
    nothing else. *)
Lemma splice_one before x after :
  splice (Z.of_nat (length before)) 1 [] (before ++ x :: after) = before ++ after.
Proof.
  unfold splice. rewrite length_app. cbn [length].
  destruct (Z.of_nat (length before) <? 0)%Z eqn:E; [apply Z.ltb_lt in E; lia|].
  rewrite Z.min_l by lia.
  replace (Z.min (Z.max 1 0) _) with 1%Z by lia.
  rewrite Nat2Z.id.
  replace (Z.to_nat (Z.of_nat (length before) + 1)) with (length before + 1) by lia.
  rewrite firstn_app, firstn_all, Nat.sub_diag. cbn [firstn].
  rewrite app_nil_r. cbn [app].
  rewrite skipn_app, skipn_all2 by lia.
  replace (length before + 1 - length before) with 1 by lia.
  reflexivity.
Qed.



(** [splice(-1, 1)], the edit made when [indexOf] found nothing, removes
    the last element. *)
Lemma splice_minus_one arr : splice (-1) 1 [] arr = removelast arr.
Proof.
  unfold splice. cbn [Z.ltb Z.compare].
  destruct arr as [|x arr] using rev_ind; [reflexivity|].
  rewrite removelast_last, length_app. cbn [length].
  rewrite Z.max_l by lia.
  replace (Z.min (Z.max 1 0) _) with 1%Z by lia.
  replace (Z.to_nat (Z.of_nat (length arr + 1) + -1)) with (length arr) by lia.
  replace (Z.to_nat (Z.of_nat (length arr + 1) + -1 + 1)) with (length arr + 1) by lia.
  rewrite firstn_app, firstn_all, Nat.sub_diag. cbn [firstn].
  rewrite skipn_all2 by (rewrite length_app; cbn [length]; lia).
  rewrite !app_nil_r. reflexivity.
Qed.

Lemma map_get_set {V} k (v : V) m j :
  map_get j (map_set k v m) = if String.eqb k j then Some v else map_get j m.
Proof.
  induction m as [|[k' v'] m IH]; simpl.
  - reflexivity.
  - destruct (String.eqb k' k) eqn:E; simpl.
    + apply String.eqb_eq in E. subst k'. destruct (String.eqb k j); reflexivity.
    + rewrite IH. destruct (String.eqb k j) eqn:E2; [|reflexivity].
      apply String.eqb_eq in E2. subst j. rewrite E. reflexivity.
Qed.

End JsFacts.
Module ExtractFacts.
Import Js JsFacts Helper.

Lemma is_number_defined v : is_number v = true -> is_undefined v = false.
Proof. destruct v; simpl; congruence. Qed.

Lemma is_number_not_undefined v : is_number v = true -> v <> VUndefined.
Proof. destruct v; simpl; congruence. Qed.

Lemma extract_inv_init argv :
  extract_inv argv [] {| debugPort := VUndefined; debugOptions := []; execArgvObj := [] |}.
Proof.
  constructor; simpl; try reflexivity.
  - intros k. split; [congruence | intros [[] _]].
  - intros k. split; [congruence | intros [[] _]].
  - split; [congruence | intros (k & [] & _)].
  - left; reflexivity.
Qed.

Lemma extract_inv_step argv seen acc key :
  extract_inv argv seen acc ->
  extract_inv argv (seen ++ [key]) (extract_step argv acc key).
Proof.
  intros [Ho Hod He Hed Hp Hpn]. unfold extract_step.
  destruct (is_undefined (get argv key)) eqn:Eu;
    [|destruct (includes key debug_family) eqn:Ef;
      [|destruct (match_exec_key key) eqn:Em]].
  - (* skipped: undefined *)
    constructor; simpl; auto.
    + intros k. rewrite Hod, in_app_iff. simpl. unfold family_key.
      split; [tauto|]. intros [[H|[H|[]]] [H1 H2]]; [tauto|]. subst k. congruence.
    + intros k. rewrite Hed, in_app_iff. simpl. unfold exec_key.
      split; [tauto|]. intros [[H|[H|[]]] [H1 H2]]; [tauto|]. subst k. congruence.
    + rewrite Hp. split; intros (k & Hin & Hf & Hn).
      * exists k. rewrite in_app_iff. tauto.
      * apply in_app_iff in Hin. destruct Hin as [Hin|[Hin|[]]]; [eauto|].
        subst k. apply is_number_defined in Hn. congruence.
  - (* debug / inspect family *)
    constructor; simpl.
    + intros k. rewrite lookup_set.
      destruct (String.eqb key k) eqn:E; [|apply Ho].
      apply String.eqb_eq in E. subst k. reflexivity.
    + intros k. rewrite lookup_set, in_app_iff. simpl. unfold family_key.
      destruct (String.eqb key k) eqn:E.
      * apply String.eqb_eq in E. subst k. split; [intros _|congruence]. tauto.
      * rewrite Hod. unfold family_key. split; [tauto|].
        intros [[H|[H|[]]] H2]; [tauto|]. subst k. rewrite String.eqb_refl in E. discriminate.
    + intros k. rewrite lookup_set.
      destruct (String.eqb key k) eqn:E; [|apply He].
      apply String.eqb_eq in E. subst k. reflexivity.
    + intros k. rewrite lookup_set, in_app_iff. simpl. unfold exec_key.
      destruct (String.eqb key k) eqn:E.
      * apply String.eqb_eq in E. subst k. split; [intros _|congruence]. tauto.
      * rewrite Hed. unfold exec_key. split; [tauto|].
        intros [[H|[H|[]]] H2]; [tauto|]. subst k. rewrite String.eqb_refl in E. discriminate.
    + destruct (is_number (get argv key)) eqn:En.
      * split; [intros _|intros _; apply is_number_not_undefined; exact En].
        exists key. rewrite in_app_iff. simpl. tauto.
      * rewrite Hp. split; intros (k & Hin & Hf & Hn).
        -- exists k. rewrite in_app_iff. tauto.
        -- apply in_app_iff in Hin. destruct Hin as [Hin|[Hin|[]]]; [eauto|].
           subst k. congruence.
    + destruct (is_number (get argv key)) eqn:En; [right; exact En | exact Hpn].
  - (* harmony / staging flags *)
    constructor; simpl; auto.
    + intros k. rewrite Hod, in_app_iff. simpl. unfold family_key.
      split; [tauto|]. intros [[H|[H|[]]] [H1 H2]]; [tauto|]. subst k. congruence.
    + intros k. rewrite lookup_set.
      destruct (String.eqb key k) eqn:E; [|apply He].
      apply String.eqb_eq in E. subst k. reflexivity.
    + intros k. rewrite lookup_set, in_app_iff. simpl. unfold exec_key.
      destruct (String.eqb key k) eqn:E.
      * apply String.eqb_eq in E. subst k. split; [intros _|congruence]. tauto.
      * rewrite Hed. unfold exec_key. split; [tauto|].
        intros [[H|[H|[]]] H2]; [tauto|]. subst k. rewrite String.eqb_refl in E. discriminate.
    + rewrite Hp. split; intros (k & Hin & Hf & Hn).
      * exists k. rewrite in_app_iff. tauto.
      * apply in_app_iff in Hin. destruct Hin as [Hin|[Hin|[]]]; [eauto|].
        subst k. congruence.
  - (* any other key *)
    constructor; simpl; auto.
    + intros k. rewrite Hod, in_app_iff. simpl. unfold family_key.
      split; [tauto|]. intros [[H|[H|[]]] [H1 H2]]; [tauto|]. subst k. congruence.
    + intros k. rewrite Hed, in_app_iff. simpl. unfold exec_key.
      split; [tauto|]. intros [[H|[H|[]]] [[H1|H1] H2]]; try tauto; subst k; congruence.
    + rewrite Hp. split; intros (k & Hin & Hf & Hn).
      * exists k. rewrite in_app_iff. tauto.
      * apply in_app_iff in Hin. destruct Hin as [Hin|[Hin|[]]]; [eauto|].
        subst k. congruence.
Qed.

Lemma extract_inv_fold argv ks : forall seen acc,
  extract_inv argv seen acc ->
  extract_inv argv (seen ++ ks) (fold_left (extract_step argv) ks acc).
Proof.
  induction ks as [|k ks IH]; intros seen acc H; simpl.
  - rewrite app_nil_r. exact H.
  - replace (seen ++ k :: ks) with ((seen ++ [k]) ++ ks)
      by (rewrite <- app_assoc; reflexivity).
    apply IH, extract_inv_step, H.
Qed.

Lemma extractExecArgv_inv argv :
  extract_inv argv (keys argv) (extractExecArgv argv).
Proof. apply (extract_inv_fold argv (keys argv) []), extract_inv_init. Qed.


Lemma includes_In k l : includes k l = true <-> In k l.
Proof.
  unfold includes. rewrite existsb_exists. split.
  - intros (x & Hx & E). apply String.eqb_eq in E. subst x. exact Hx.
  - intros H. exists k. split; [exact H | apply String.eqb_refl].
Qed.

(** The two objects that [extractExecArgv] builds have distinct keys. *)
Lemma extract_step_NoDup argv acc key :
  NoDup (keys (debugOptions acc)) /\ NoDup (keys (execArgvObj acc)) ->
  NoDup (keys (debugOptions (extract_step argv acc key)))
  /\ NoDup (keys (execArgvObj (extract_step argv acc key))).
Proof.
  intros [H1 H2]. unfold extract_step.
  destruct (is_undefined (get argv key)); [split; assumption|].
  destruct (includes key debug_family).
  - split; apply NoDup_keys_set; assumption.
  - destruct (match_exec_key key); [|split; assumption].
    split; [exact H1 | apply NoDup_keys_set; exact H2].
Qed.

Lemma extractExecArgv_NoDup argv :
  NoDup (keys (debugOptions (extractExecArgv argv)))
  /\ NoDup (keys (execArgvObj (extractExecArgv argv))).
Proof.
  unfold extractExecArgv.
  generalize (keys argv) as ks.
  assert (H0 : NoDup (keys (debugOptions (mkExtracted VUndefined [] [])))
               /\ NoDup (keys (execArgvObj (mkExtracted VUndefined [] []))))
    by (split; apply NoDup_nil_2).
  revert H0. generalize (mkExtracted VUndefined [] []) as acc.
  intros acc H0 ks. revert acc H0.
  induction ks as [|k ks IH]; intros acc H0; simpl; [exact H0|].
  apply IH, extract_step_NoDup, H0.
Qed.

Lemma debugOptions_value argv k v :
  lookup k (debugOptions (extractExecArgv argv)) = Some v ->
  v = get argv k /\ In k (keys argv) /\ family_key argv k.
Proof.
  intros H. destruct (extractExecArgv_inv argv) as [Ho Hod _ _ _ _].
  split.
  - specialize (Ho k). rewrite H in Ho. congruence.
  - apply Hod. congruence.
Qed.

Lemma execArgvObj_value argv k v :
  lookup k (execArgvObj (extractExecArgv argv)) = Some v ->
  v = get argv k /\ In k (keys argv) /\ exec_key argv k.
Proof.
  intros H. destruct (extractExecArgv_inv argv) as [_ _ He Hed _ _].
  split.
  - specialize (He k). rewrite H in He. congruence.
  - apply Hed. congruence.
Qed.

Lemma execArgvObj_present argv k :
  In k (keys argv) -> exec_key argv k ->
  lookup k (execArgvObj (extractExecArgv argv)) = Some (get argv k).
Proof.
  intros Hin Hk. destruct (extractExecArgv_inv argv) as [_ _ He Hed _ _].
  destruct (lookup k (execArgvObj (extractExecArgv argv))) eqn:E.
  - specialize (He k). rewrite E in He. congruence.
  - exfalso. apply (proj2 (Hed k)); [split; assumption | exact E].
Qed.

(** Every family key with a defined value is in both objects; every
    matching key is in [execArgvObj]. *)
Lemma extractExecArgv_family argv k :
  In k (keys argv) -> In k debug_family -> get argv k <> VUndefined ->
  lookup k (debugOptions (extractExecArgv argv)) = Some (get argv k)
  /\ lookup k (execArgvObj (extractExecArgv argv)) = Some (get argv k).
Proof.
  intros Hin Hf Hd.
  destruct (extractExecArgv_inv argv) as [Ho Hod He Hed _ _].
  assert (Hu : is_undefined (get argv k) = false)
    by (destruct (get argv k); simpl; congruence).
  apply includes_In in Hf.
  split.
  - rewrite Ho. destruct (lookup k (debugOptions (extractExecArgv argv))) eqn:E;
      [reflexivity|].
    exfalso. apply (proj2 (Hod k)); [|exact E]. split; [exact Hin | split; assumption].
  - rewrite He. destruct (lookup k (execArgvObj (extractExecArgv argv))) eqn:E;
      [reflexivity|].
    exfalso. apply (proj2 (Hed k)); [|exact E].
    split; [exact Hin | split; [left|]; assumption].
Qed.

(** C10: [extractExecArgv] skips every key whose value is [undefined] (it is
    in neither [debugOptions] nor [execArgvObj]); [debugPort] is defined
    exactly when some key of the debug/inspect family has a number as its
    value; a family key with a boolean value is put in [debugOptions] and in
    [execArgvObj], and when no family key has a number [debugPort] stays
    [undefined]. *)
Theorem extractExecArgv_undefined_and_port (argv : obj) :
  (forall k, get argv k = VUndefined ->
     lookup k (debugOptions (extractExecArgv argv)) = None
     /\ lookup k (execArgvObj (extractExecArgv argv)) = None)
  /\ (debugPort (extractExecArgv argv) <> VUndefined <->
      exists k, In k (keys argv) /\ In k debug_family
                /\ is_number (get argv k) = true)
  /\ (forall k b, In k (keys argv) -> In k debug_family -> get argv k = VBool b ->
      lookup k (debugOptions (extractExecArgv argv)) = Some (VBool b)
      /\ lookup k (execArgvObj (extractExecArgv argv)) = Some (VBool b))
  /\ ((forall k, In k (keys argv) -> In k debug_family ->
         is_number (get argv k) = false) ->
      debugPort (extractExecArgv argv) = VUndefined).
Proof.
  pose proof (extractExecArgv_inv argv) as [Ho Hod He Hed Hp Hpn].
  assert (Hport : debugPort (extractExecArgv argv) <> VUndefined <->
      exists k, In k (keys argv) /\ In k debug_family
                /\ is_number (get argv k) = true).
  { rewrite Hp. split; intros (k & H1 & H2 & H3); exists k;
      (split; [exact H1 | split; [apply includes_In; exact H2 | exact H3]]). }
  split; [|split; [exact Hport | split]].
  - intros k Hu. split.
    + destruct (lookup k (debugOptions (extractExecArgv argv))) eqn:E; [|reflexivity].
      assert (Hk : In k (keys argv) /\ family_key argv k)
        by (apply Hod; congruence).
      destruct Hk as [_ [_ Hd]]. rewrite Hu in Hd. discriminate.
    + destruct (lookup k (execArgvObj (extractExecArgv argv))) eqn:E; [|reflexivity].
      assert (Hk : In k (keys argv) /\ exec_key argv k)
        by (apply Hed; congruence).
      destruct Hk as [_ [_ Hd]]. rewrite Hu in Hd. discriminate.
  - intros k b Hin Hf Hb. rewrite <- Hb.
    apply extractExecArgv_family; [exact Hin | exact Hf | rewrite Hb; discriminate].
  - intros Hnone.
    destruct Hpn as [E|E]; [exact E|].
    exfalso. apply is_number_not_undefined in E.
    apply Hport in E as (k & H1 & H2 & H3).
    rewrite (Hnone k H1 H2) in H3. discriminate.
Qed.

(** A bare [--inspect]: kept in both objects, and no port. *)
Example extractExecArgv_bare_inspect :
  extractExecArgv [("_", VArr []); ("inspect", VBool true); ("camel", VUndefined)]
  = {| debugPort := VUndefined;
       debugOptions := [("inspect", VBool true)];
       execArgvObj := [("inspect", VBool true)] |}.
Proof. reflexivity. Qed.

End ExtractFacts.

(* ===================================================================== *)
(** * Properties of the process supervisor *)
(* ===================================================================== *)

Module SupervisorFacts.
Import Helper.

(** ** The registry as a set *)

Lemma In_set_add h x s : In x (set_add h s) <-> x = h \/ In x s.
Proof.
  unfold set_add. destruct (existsb (Nat.eqb h) s) eqn:E.
  - split; [tauto|]. intros [->|H]; [|exact H].
    apply existsb_exists in E as (y & Hy & Heq).
    apply Nat.eqb_eq in Heq. subst y. exact Hy.
  - rewrite in_app_iff. simpl.
    split; [intros [H|[<-|[]]]; auto | intros [->|H]; auto].
Qed.

Lemma NoDup_set_add h s : NoDup s -> NoDup (set_add h s).
Proof.
  intros H. unfold set_add. destruct (existsb (Nat.eqb h) s) eqn:E; [exact H|].
  apply NoDup_app. split; [exact H|]. split; [|apply NoDup_singleton].
  intros x Hx Hx'. apply list_elem_of_In in Hx.
  apply list_elem_of_In in Hx'. destruct Hx' as [<-|[]].
  assert (existsb (Nat.eqb h) s = true); [|congruence].
  apply existsb_exists. exists h. split; [exact Hx | apply Nat.eqb_refl].
Qed.

Lemma In_set_delete h x s : In x (set_delete h s) <-> In x s /\ x <> h.
Proof.
  unfold set_delete. rewrite filter_In, negb_true_iff, Nat.eqb_neq. tauto.
Qed.

Lemma NoDup_set_delete h s : NoDup s -> NoDup (set_delete h s).
Proof.
  unfold set_delete. induction s as [|y s IH]; intros H; [exact H|].
  apply NoDup_cons in H as [Hy H]. cbn [List.filter].
  destruct (negb (Nat.eqb y h)); [|apply IH, H].
  apply NoDup_cons. split; [|apply IH, H].
  rewrite list_elem_of_In, filter_In. rewrite list_elem_of_In in Hy. tauto.
Qed.

(** ** The operations, field by field *)

Definition hooks : list ProcessEvent :=
  [OnSignal SIGINT; OnSignal SIGQUIT; OnSignal SIGTERM; OnExit].

Lemma lookup_last_added {A} (l : list A) (x : A) : (l ++ [x]) !! length l = Some x.
Proof. rewrite lookup_app_r by lia. rewrite Nat.sub_diag. reflexivity. Qed.

Lemma insert_last_added {A} (l : list A) (x y : A) :
  <[length l := y]> (l ++ [x]) = l ++ [y].
Proof. rewrite insert_app_r_alt by lia. rewrite Nat.sub_diag. reflexivity. Qed.

Lemma forkNode_world modulePath args w :
  snd (forkNode modulePath args w) =
  {| childs := set_add (length (children w)) (childs w);
     hadHook := true;
     signal := signal w;
     process_once := if hadHook w then process_once w else process_once w ++ hooks;
     children := children w ++ [mkChild (Fork modulePath args) true false []];
     kills := kills w; deletions := deletions w; reported := reported w;
     exiting := exiting w; status := status w |}.
Proof.
  unfold forkNode, gracefull, on_child, with_children, with_childs, with_hook.
  cbn [snd childs hadHook signal process_once children kills deletions reported
       exiting status].
  destruct (hadHook w) eqn:E;
    cbn [snd childs hadHook signal process_once children kills deletions reported
         exiting status];
    rewrite lookup_last_added, insert_last_added; reflexivity.
Qed.

Lemma spawn_world cmd args w :
  snd (spawn cmd args w) =
  {| childs := set_add (length (children w)) (childs w);
     hadHook := true;
     signal := signal w;
     process_once := if hadHook w then process_once w else process_once w ++ hooks;
     children := children w ++ [mkChild (Spawn cmd args) true true []];
     kills := kills w; deletions := deletions w; reported := reported w;
     exiting := exiting w; status := status w |}.
Proof.
  unfold spawn, gracefull, on_child, with_children, with_childs, with_hook.
  cbn [snd childs hadHook signal process_once children kills deletions reported
       exiting status].
  destruct (hadHook w) eqn:E;
    cbn [snd childs hadHook signal process_once children kills deletions reported
         exiting status];
    rewrite lookup_last_added, insert_last_added;
    rewrite lookup_last_added, insert_last_added; reflexivity.
Qed.

(** The ['exit'] event of a handle whose listener is attached: the handle
    leaves the registry and the promise is settled. *)
Lemma child_exit_listening h code w c :
  children w !! h = Some c -> once_exit c = true ->
  child_exit h code w =
  {| childs := set_delete h (childs w);
     hadHook := hadHook w; signal := signal w; process_once := process_once w;
     children := <[h := mkChild (launch c) false (once_error c)
                          (settle_calls c ++ [exit_settlement (launch c) code])]>
                   (children w);
     kills := kills w;
     deletions := deletions w ++ [h];
     reported := reported w ++ [h];
     exiting := exiting w; status := status w |}.
Proof.
  intros Hc Hl. unfold child_exit. rewrite Hc, Hl.
  unfold on_child, with_children, with_childs, with_deletion, with_reported.
  cbn [childs hadHook signal process_once children kills deletions reported
       exiting status].
  rewrite Hc.
  assert (Hlt : h < length (children w)) by (eapply lookup_lt_Some, Hc).
  rewrite list_lookup_insert_eq by exact Hlt.
  rewrite list_insert_insert_eq. reflexivity.
Qed.

Lemma child_exit_detached h code w c :
  children w !! h = Some c -> once_exit c = false ->
  child_exit h code w = with_reported h w.
Proof. intros Hc Hl. unfold child_exit. rewrite Hc, Hl. reflexivity. Qed.

Lemma child_exit_unknown h code w :
  children w !! h = None -> child_exit h code w = w.
Proof. intros Hc. unfold child_exit. rewrite Hc. reflexivity. Qed.

Lemma process_exit_world code w :
  process_exit code w =
  if exiting w then with_status (Exited code) w
  else
    {| childs := childs w; hadHook := hadHook w; signal := signal w;
       process_once := List.filter (fun e => negb (is_exit_listener e)) (process_once w);
       children := children w;
       kills := kills (fold_left (fun w _ => reap w)
                         (List.filter is_exit_listener (process_once w)) w);
       deletions := deletions w; reported := reported w;
       exiting := true; status := Exited code |}.
Proof.
  unfold process_exit. destruct (exiting w); [reflexivity|].
  unfold emit_exit, with_exiting, with_process_once, with_status.
  cbn [childs hadHook signal process_once children kills deletions reported
       exiting status].
  generalize (List.filter is_exit_listener (process_once w)) as ls.
  generalize (List.filter (fun e => negb (is_exit_listener e)) (process_once w)) as rest.
  intros rest ls.
  assert (H : forall w0 w1,
            childs w0 = childs w1 -> signal w0 = signal w1 -> kills w0 = kills w1 ->
            let r := fold_left (fun w _ => reap w) ls w0 in
            childs r = childs w0 /\ hadHook r = hadHook w0 /\ signal r = signal w0
            /\ process_once r = process_once w0 /\ children r = children w0
            /\ deletions r = deletions w0 /\ reported r = reported w0
            /\ exiting r = exiting w0 /\ status r = status w0
            /\ kills r = kills (fold_left (fun w _ => reap w) ls w1)).
  { induction ls as [|e ls IH]; intros w0 w1 H1 H2 H3; cbn [fold_left].
    - repeat split; assumption.
    - destruct (IH (reap w0) (reap w1)) as (A1&A2&A3&A4&A5&A6&A7&A8&A9&A10).
      + exact H1.
      + exact H2.
      + unfold reap, with_kills. cbn [kills]. rewrite H1, H2, H3. reflexivity.
      + repeat split; assumption. }
  match goal with |- context [fold_left _ ls ?w0] => set (w0' := w0) end.
  destruct (H w0' w eq_refl eq_refl eq_refl) as (A1&A2&A3&A4&A5&A6&A7&A8&A9&A10).
  destruct (fold_left (fun w _ => reap w) ls w0') as [a b c d e f g i j k].
  cbn in *. subst. reflexivity.
Qed.

Lemma hooks_for_hooks s : length (List.filter (is_signal_listener s) hooks) = 1.
Proof. destruct s; reflexivity. Qed.


Lemma on_child_world h f w :
  on_child h f w =
  {| childs := childs w; hadHook := hadHook w; signal := signal w;
     process_once := process_once w;
     children := match children w !! h with
                 | Some c => <[h := f c]> (children w)
                 | None => children w
                 end;
     kills := kills w; deletions := deletions w; reported := reported w;
     exiting := exiting w; status := status w |}.
Proof. reflexivity. Qed.

(** A signal arrives while the four listeners are registered. *)
Lemma receive_signal_hooked s w :
  process_once w = hooks -> exiting w = false -> kills w = [] ->
  receive_signal s w =
  {| childs := childs w; hadHook := hadHook w; signal := Some s;
     process_once := List.filter (fun e => negb (is_exit_listener e))
                       (detach (is_signal_listener s) hooks);
     children := children w;
     kills := map (fun child => (child, Some s)) (childs w);
     deletions := deletions w; reported := reported w;
     exiting := true; status := Exited 0 |}.
Proof.
  intros Hh He Hk. unfold receive_signal. rewrite Hh.
  destruct s; cbn [existsb hooks is_signal_listener Signal_eqb orb detach];
    rewrite process_exit_world;
    unfold with_signal, with_process_once, reap, with_kills;
    cbn [childs hadHook signal process_once children kills deletions reported
         exiting status List.filter is_exit_listener negb fold_left];
    rewrite He, Hk; reflexivity.
Qed.

Lemma receive_signal_unhooked s w :
  process_once w = [] -> receive_signal s w = with_status (Killed s) w.
Proof. intros H. unfold receive_signal. rewrite H. reflexivity. Qed.

(** ** The invariants hold in every reachable world *)

Lemma init_registry_inv : registry_inv init.
Proof.
  constructor; cbn.
  - apply NoDup_nil_2.
  - intros h [].
  - intros h [].
  - intros h c H. rewrite lookup_nil in H. discriminate.
  - split; [apply NoDup_nil_2 | tauto].
Qed.

Lemma init_hooks_inv : hooks_inv init.
Proof. constructor; cbn; auto; discriminate. Qed.

(** A launch: a new handle, listening, is added to the registry. *)
Lemma launch_registry_inv w w' c :
  registry_inv w ->
  childs w' = set_add (length (children w)) (childs w) ->
  children w' = children w ++ [c] ->
  once_exit c = true ->
  deletions w' = deletions w ->
  reported w' = reported w ->
  registry_inv w'.
Proof.
  intros [Hnd Hreg Hrep Hlis Hdel] Hc Hch Hl Hd Hr.
  constructor; rewrite ?Hc, ?Hch, ?Hd, ?Hr.
  - apply NoDup_set_add, Hnd.
  - intros h Hin. rewrite length_app. cbn [length].
    apply In_set_add in Hin as [->|Hin].
    + split; [lia|]. intros Hin. apply Hrep in Hin. lia.
    + destruct (Hreg h Hin). split; [lia | assumption].
  - intros h Hin. rewrite length_app. apply Hrep in Hin. lia.
  - intros h c' Hlook.
    destruct (decide (h < length (children w))) as [Hlt|Hge].
    + rewrite lookup_app_l in Hlook by exact Hlt. apply Hlis, Hlook.
    + rewrite lookup_app_r in Hlook by lia.
      destruct (h - length (children w)) as [|k] eqn:E; [|discriminate].
      injection Hlook as <-. rewrite Hl.
      split; [intros _ Hin; apply Hrep in Hin; lia | reflexivity].
  - exact Hdel.
Qed.

(** Steps that leave the registry, the reports and the [once('exit')]
    listeners alone. *)
Lemma same_registry_inv w w' :
  registry_inv w ->
  childs w' = childs w ->
  length (children w') = length (children w) ->
  (forall h c', children w' !! h = Some c' ->
     exists c, children w !! h = Some c /\ once_exit c' = once_exit c) ->
  deletions w' = deletions w ->
  reported w' = reported w ->
  registry_inv w'.
Proof.
  intros [Hnd Hreg Hrep Hlis Hdel] Hc Hlen Hch Hd Hr.
  constructor; rewrite ?Hc, ?Hlen, ?Hd, ?Hr; try assumption.
  intros h c' Hlook. destruct (Hch h c' Hlook) as (c & Hc' & ->).
  apply Hlis, Hc'.
Qed.

Lemma process_exit_registry_inv code w :
  registry_inv w -> registry_inv (process_exit code w).
Proof.
  intros H. rewrite process_exit_world.
  destruct (exiting w); (apply (same_registry_inv w); [exact H|..]);
    try reflexivity; intros h c' Hl; exists c'; auto.
Qed.

Lemma child_error_registry_inv h err w :
  registry_inv w -> registry_inv (child_error h err w).
Proof.
  intros H. unfold child_error.
  destruct (children w !! h) as [c|] eqn:Hc; [|exact H].
  destruct (once_error c); [|apply process_exit_registry_inv, H].
  assert (Hlt : h < length (children w)) by (eapply lookup_lt_Some, Hc).
  rewrite !on_child_world.
  cbn [childs hadHook signal process_once children kills deletions reported
       exiting status].
  rewrite Hc. rewrite list_lookup_insert_eq by exact Hlt.
  rewrite list_insert_insert_eq.
  apply (same_registry_inv w); [exact H|..]; try reflexivity.
  - cbn [children]. apply length_insert.
  - intros k c' Hl. cbn [children] in Hl.
    destruct (decide (h = k)) as [<-|Hne].
    + rewrite list_lookup_insert_eq in Hl by exact Hlt. injection Hl as <-.
      exists c. split; [exact Hc | reflexivity].
    + rewrite list_lookup_insert_ne in Hl by exact Hne. exists c'. auto.
Qed.

Lemma child_exit_registry_inv h code w :
  registry_inv w -> registry_inv (child_exit h code w).
Proof.
  intros H. pose proof H as [Hnd Hreg Hrep Hlis Hdel].
  destruct (children w !! h) as [c|] eqn:Hc;
    [|rewrite child_exit_unknown by exact Hc; exact H].
  assert (Hlt : h < length (children w)) by (eapply lookup_lt_Some, Hc).
  destruct (once_exit c) eqn:Hl.
  - (* the listener runs: first report of this handle *)
    assert (Hnew : ~ In h (reported w)) by (apply (Hlis h c Hc), Hl).
    rewrite (child_exit_listening h code w c Hc Hl).
    constructor; cbn [childs children deletions reported].
    + apply NoDup_set_delete, Hnd.
    + intros k Hin. apply In_set_delete in Hin as [Hin Hne].
      destruct (Hreg k Hin) as [Hk Hnot]. rewrite length_insert.
      split; [exact Hk|]. rewrite in_app_iff. simpl.
      intros [Hin'|[Heq|[]]]; [contradiction | congruence].
    + intros k Hin. rewrite length_insert.
      apply in_app_iff in Hin as [Hin|[<-|[]]]; [apply Hrep, Hin | exact Hlt].
    + intros k c' Hlook. rewrite in_app_iff. simpl.
      destruct (decide (h = k)) as [<-|Hne].
      * rewrite list_lookup_insert_eq in Hlook by exact Hlt.
        injection Hlook as <-. cbn [once_exit].
        split; [discriminate | tauto].
      * rewrite list_lookup_insert_ne in Hlook by exact Hne.
        rewrite (Hlis k c' Hlook). tauto.
    + destruct Hdel as [Hdn Hdi]. split.
      * apply NoDup_app. split; [exact Hdn|]. split; [|apply NoDup_singleton].
        intros x Hx Hx'. apply list_elem_of_In in Hx.
        apply list_elem_of_In in Hx'. destruct Hx' as [<-|[]].
        apply Hnew, Hdi, Hx.
      * intros k. rewrite !in_app_iff, Hdi. tauto.
  - (* no listener any more: the handle had reported before *)
    assert (Hold : In h (reported w)).
    { destruct (in_dec Nat.eq_dec h (reported w)) as [Hin|Hnot]; [exact Hin|].
      apply (Hlis h c Hc) in Hnot. congruence. }
    rewrite (child_exit_detached h code w c Hc Hl).
    constructor; cbn [with_reported childs children deletions reported].
    + exact Hnd.
    + intros k Hin. destruct (Hreg k Hin) as [Hk Hnot]. split; [exact Hk|].
      rewrite in_app_iff. simpl. intros [Hin'|[<-|[]]]; contradiction.
    + intros k Hin. apply in_app_iff in Hin as [Hin|[<-|[]]];
        [apply Hrep, Hin | exact Hlt].
    + intros k c' Hlook. rewrite (Hlis k c' Hlook), in_app_iff. simpl.
      split; [|tauto]. intros Hnot [Hin|[<-|[]]]; contradiction.
    + destruct Hdel as [Hdn Hdi]. split; [exact Hdn|].
      intros k. rewrite in_app_iff, Hdi. simpl. split; [tauto|].
      intros [Hin|[<-|[]]]; assumption.
Qed.

Lemma receive_signal_registry_inv s w :
  registry_inv w -> registry_inv (receive_signal s w).
Proof.
  intros H. unfold receive_signal.
  destruct (existsb _ _).
  - apply process_exit_registry_inv.
    apply (same_registry_inv w); [exact H|..]; try reflexivity.
    intros h c' Hl; exists c'; auto.
  - apply (same_registry_inv w); [exact H|..]; try reflexivity.
    intros h c' Hl; exists c'; auto.
Qed.

Lemma step_registry_inv w i : registry_inv w -> registry_inv (step w i).
Proof.
  intros H. unfold step. destruct (status w); [|exact H..].
  destruct i as [modulePath args|cmd args|h code|h err|s|code].
  - rewrite forkNode_world.
    eapply (launch_registry_inv w); [exact H|reflexivity..].
  - rewrite spawn_world.
    eapply (launch_registry_inv w); [exact H|reflexivity..].
  - apply child_exit_registry_inv, H.
  - apply child_error_registry_inv, H.
  - apply receive_signal_registry_inv, H.
  - apply process_exit_registry_inv, H.
Qed.

Lemma run_registry_inv inputs : forall w,
  registry_inv w -> registry_inv (run inputs w).
Proof.
  unfold run. induction inputs as [|i inputs IH]; intros w H; cbn [fold_left].
  - exact H.
  - apply IH, step_registry_inv, H.
Qed.


Lemma process_exit_status code w : status (process_exit code w) = Exited code.
Proof. rewrite process_exit_world. destruct (exiting w); reflexivity. Qed.

(** A step that ends the process. *)
Lemma ended_hooks_inv w w' :
  hooks_inv w ->
  status w' <> Running ->
  hadHook w' = hadHook w ->
  (process_once w = [] -> process_once w' = []) ->
  childs w' = childs w ->
  children w' = children w ->
  hooks_inv w'.
Proof.
  intros [Hrun Hhook Hun] Hs Hh Hp Hc Hch.
  constructor; try contradiction.
  rewrite Hh, Hc, Hch. intros E. destruct (Hun E) as (E1 & E2 & E3). auto.
Qed.

Lemma process_exit_hooks_inv code w :
  hooks_inv w -> hooks_inv (process_exit code w).
Proof.
  intros H. apply (ended_hooks_inv w); [exact H|..].
  - rewrite process_exit_status. discriminate.
  - rewrite process_exit_world. destruct (exiting w); reflexivity.
  - intros E. rewrite process_exit_world.
    destruct (exiting w); cbn; rewrite E; reflexivity.
  - rewrite process_exit_world. destruct (exiting w); reflexivity.
  - rewrite process_exit_world. destruct (exiting w); reflexivity.
Qed.

Lemma receive_signal_status s w : status (receive_signal s w) <> Running.
Proof.
  unfold receive_signal. destruct (existsb _ _).
  - rewrite process_exit_status. discriminate.
  - discriminate.
Qed.

Lemma receive_signal_hooks_inv s w :
  hooks_inv w -> hooks_inv (receive_signal s w).
Proof.
  intros H. apply (ended_hooks_inv w); [exact H | apply receive_signal_status |..].
  - unfold receive_signal. destruct (existsb _ _); [|reflexivity].
    rewrite process_exit_world. cbn. destruct (exiting w); reflexivity.
  - intros E. rewrite receive_signal_unhooked by exact E. exact E.
  - unfold receive_signal. destruct (existsb _ _); [|reflexivity].
    rewrite process_exit_world. cbn. destruct (exiting w); reflexivity.
  - unfold receive_signal. destruct (existsb _ _); [|reflexivity].
    rewrite process_exit_world. cbn. destruct (exiting w); reflexivity.
Qed.

(** A launch while the process runs. *)
Lemma launch_hooks_inv w w' :
  hooks_inv w ->
  status w = Running ->
  hadHook w' = true ->
  process_once w' = (if hadHook w then process_once w else process_once w ++ hooks) ->
  kills w' = kills w -> exiting w' = exiting w -> status w' = status w ->
  hooks_inv w'.
Proof.
  intros [Hrun Hhook Hun] Hs Hh Hp Hk He Hst.
  constructor; rewrite ?Hh, ?Hp, ?Hk, ?He, ?Hst; try discriminate.
  - exact Hrun.
  - intros _ _. destruct (hadHook w) eqn:E.
    + apply Hhook; [exact Hs | reflexivity].
    + destruct (Hun eq_refl) as (-> & _). reflexivity.
Qed.

(** A step that only touches the listeners and promises of a handle. *)
Lemma child_hooks_inv w w' h c :
  hooks_inv w ->
  children w !! h = Some c ->
  hadHook w' = hadHook w -> process_once w' = process_once w ->
  kills w' = kills w -> exiting w' = exiting w -> status w' = status w ->
  hooks_inv w'.
Proof.
  intros [Hrun Hhook Hun] Hc Hh Hp Hk He Hst.
  constructor; rewrite ?Hh, ?Hp, ?Hk, ?He, ?Hst; try assumption.
  intros E. destruct (Hun E) as (_ & _ & E3). rewrite E3 in Hc.
  rewrite lookup_nil in Hc. discriminate.
Qed.

Lemma step_hooks_inv w i : hooks_inv w -> hooks_inv (step w i).
Proof.
  intros H. unfold step. destruct (status w) eqn:Hs; [|exact H..].
  destruct i as [modulePath args|cmd args|h code|h err|s|code].
  - rewrite forkNode_world. apply (launch_hooks_inv w); auto.
  - rewrite spawn_world. apply (launch_hooks_inv w); auto.
  - destruct (children w !! h) as [c|] eqn:Hc;
      [|rewrite child_exit_unknown by exact Hc; exact H].
    destruct (once_exit c) eqn:Hl.
    + rewrite (child_exit_listening h code w c Hc Hl).
      apply (child_hooks_inv w _ h c); auto.
    + rewrite (child_exit_detached h code w c Hc Hl).
      apply (child_hooks_inv w _ h c); auto.
  - unfold child_error. destruct (children w !! h) as [c|] eqn:Hc; [|exact H].
    destruct (once_error c); [|apply process_exit_hooks_inv, H].
    apply (child_hooks_inv w _ h c); auto.
  - apply receive_signal_hooks_inv, H.
  - apply process_exit_hooks_inv, H.
Qed.

Lemma run_hooks_inv inputs : forall w, hooks_inv w -> hooks_inv (run inputs w).
Proof.
  unfold run. induction inputs as [|i inputs IH]; intros w H; cbn [fold_left].
  - exact H.
  - apply IH, step_hooks_inv, H.
Qed.

(** ** Counting *)

Lemma count_occ_NoDup (l : list Handle) (h : Handle) :
  NoDup l -> In h l -> count_occ Nat.eq_dec l h = 1.
Proof.
  induction l as [|x l IH]; intros Hnd Hin; [destruct Hin|].
  apply NoDup_cons in Hnd as [Hx Hnd]. rewrite list_elem_of_In in Hx.
  cbn [count_occ]. destruct (Nat.eq_dec x h) as [->|Hne].
  - f_equal. apply count_occ_not_In, Hx.
  - destruct Hin as [Heq|Hin]; [contradiction|]. apply IH; assumption.
Qed.

(** In the calls [child.kill(signal)] made for a registry without
    repetition, each registered child appears once. *)
Lemma kills_of_child (s : option Signal) (l : list Handle) (h : Handle) :
  NoDup l -> In h l ->
  List.filter (fun k => Nat.eqb (fst k) h) (map (fun child => (child, s)) l)
  = [(h, s)].
Proof.
  induction l as [|x l IH]; intros Hnd Hin; [destruct Hin|].
  apply NoDup_cons in Hnd as [Hx Hnd]. rewrite list_elem_of_In in Hx.
  cbn [map List.filter fst]. destruct (Nat.eqb x h) eqn:E.
  - apply Nat.eqb_eq in E. subst x. f_equal.
    clear IH Hin Hnd. induction l as [|y l IH]; [reflexivity|].
    cbn [map List.filter fst]. simpl in Hx.
    destruct (Nat.eqb y h) eqn:E; [apply Nat.eqb_eq in E; tauto|].
    apply IH. tauto.
  - apply Nat.eqb_neq in E. destruct Hin as [Heq|Hin]; [contradiction|].
    apply IH; assumption.
Qed.


Lemma hooks_for_running w s :
  hooks_inv w -> status w = Running ->
  hooks_for s w = if hadHook w then 1 else 0.
Proof.
  intros [Hrun Hhook Hun] Hs. unfold hooks_for. destruct (hadHook w) eqn:E.
  - rewrite (Hhook Hs eq_refl). apply hooks_for_hooks.
  - destruct (Hun eq_refl) as (-> & _). reflexivity.
Qed.

(** ** The claims *)

(** C3: the failure that [spawn] reports for a nonzero exit code does not
    carry the code: the error it rejects with has the code in the text of
    its message only and no [code] property, whereas [forkNode] assigns
    [err.code = code]. A spawned [sh -c "exit 2"] that exits with 2 settles
    the promise with such an error. *)
Theorem spawn_rejection_lacks_exit_code :
  (forall cmd args code, nonzero code = true ->
     exists message,
       exit_settlement (Spawn cmd args) code = Rejected (Error message None))
  /\ (forall modulePath args code, nonzero code = true ->
     exists message,
       exit_settlement (Fork modulePath args) code
       = Rejected (Error message (Some code)))
  /\ settlement 0 (run [CallSpawn "sh" ["-c"; "exit 2"]; ChildExit 0 (Some 2%Z)] init)
     = Some (Rejected (Error "spawn sh -c exit 2 fail, exit code: 2" None))
  /\ settlement 0 (run [CallFork "job.js" ["x"]; ChildExit 0 (Some 2%Z)] init)
     = Some (Rejected (Error "job.js x exit with code 2" (Some (Some 2%Z)))).
Proof.
  split; [|split; [|split; reflexivity]].
  - intros cmd args code H. unfold exit_settlement. rewrite H. eauto.
  - intros modulePath args code H. unfold exit_settlement. rewrite H. eauto.
Qed.

(** C4: when the parent receives a termination signal while it runs,
    nothing has been killed before; the signal makes the parent exit, and
    on its ['exit'] event [child.kill] is called with that signal once for
    each child in the registry, in order, and for no one else. Emitting
    ['exit'] again kills nobody. The listeners are registered by the first
    launch, one per signal, and later launches add none. *)
Theorem signal_reaches_each_child_once (inputs : list Input) (s : Signal) :
  status (run inputs init) = Running ->
  let w := run inputs init in
  let w' := step w (Receive s) in
  kills w = []
  /\ kills w' = map (fun child => (child, Some s)) (childs w)
  /\ (forall h, In h (childs w) ->
      List.filter (fun k => Nat.eqb (fst k) h) (kills w') = [(h, Some s)])
  /\ kills (emit_exit w') = kills w'
  /\ status w' <> Running
  /\ (forall s', hooks_for s' w = if hadHook w then 1 else 0)
  /\ (hadHook w = false -> children w = [])
  /\ (forall i s',
       (exists a b, i = CallFork a b \/ i = CallSpawn a b) ->
       hadHook (step w i) = true /\ hooks_for s' (step w i) = 1).
Proof.
  intros Hs w w'.
  pose proof (run_hooks_inv inputs init init_hooks_inv) as Hh. fold w in Hh.
  pose proof (run_registry_inv inputs init init_registry_inv) as Hr. fold w in Hr.
  fold w in Hs.
  pose proof Hh as [Hrun Hhook Hun]. destruct (Hrun Hs) as [Hex Hk].
  assert (Hw' : w' = receive_signal s w) by (subst w'; unfold step; rewrite Hs; reflexivity).
  assert (Hkills : kills w' = map (fun child => (child, Some s)) (childs w)
                   /\ kills (emit_exit w') = kills w').
  { rewrite Hw'. destruct (hadHook w) eqn:E.
    - rewrite (receive_signal_hooked s w (Hhook Hs eq_refl) Hex Hk).
      split; [reflexivity|]. destruct s; reflexivity.
    - destruct (Hun eq_refl) as (Hp & Hc & _).
      rewrite (receive_signal_unhooked s w Hp).
      unfold emit_exit, with_status. cbn [process_once kills]. rewrite Hp.
      cbn. rewrite Hk, Hc. split; reflexivity. }
  destruct Hkills as [Hkills Hagain].
  split; [exact Hk|]. split; [exact Hkills|]. split; [|split; [exact Hagain|split]].
  - intros h Hin. rewrite Hkills.
    apply kills_of_child; [apply (inv_nodup w Hr) | exact Hin].
  - rewrite Hw'. apply receive_signal_status.
  - split; [intros s'; apply hooks_for_running; assumption|].
    split; [intros E; apply (Hun E)|].
    intros i s' (a & b & Hi).
    assert (Hlaunch : hadHook (step w i) = true /\ status (step w i) = Running).
    { unfold step. rewrite Hs.
      destruct Hi as [-> | ->]; [rewrite forkNode_world | rewrite spawn_world];
        cbn; auto. }
    destruct Hlaunch as [Hhad Hst]. split; [exact Hhad|].
    rewrite (hooks_for_running (step w i) s' (step_hooks_inv w i Hh) Hst), Hhad.
    reflexivity.
Qed.

(** Witness for C4: two children, then
    [SIGTERM]. *)
Lemma signal_reaches_each_child_once_witness :
  kills (step (run [CallFork "job.js" []; CallSpawn "ls" ["-l"]] init)
              (Receive SIGTERM))
  = [(0, Some SIGTERM); (1, Some SIGTERM)].
Proof.
  destruct (signal_reaches_each_child_once
              [CallFork "job.js" []; CallSpawn "ls" ["-l"]] SIGTERM eq_refl)
    as (_ & H & _).
  exact H.
Defined.

(** C5: in every reachable world, a handle that has reported its exit is
    not in the registry, and [childs.delete] has been called for it exactly
    once (and never for a handle that has not reported its exit). The exit
    notification of a launched handle removes it whatever the exit code,
    that is, whether the promise is resolved or rejected. *)
Theorem registry_excludes_exited_children (inputs : list Input) (h : Handle) :
  let w := run inputs init in
  (In h (reported w) -> ~ In h (childs w))
  /\ (In h (reported w) -> count_occ Nat.eq_dec (deletions w) h = 1)
  /\ (~ In h (reported w) -> count_occ Nat.eq_dec (deletions w) h = 0)
  /\ (forall code c,
       status w = Running -> children w !! h = Some c ->
       In h (reported (step w (ChildExit h code)))
       /\ ~ In h (childs (step w (ChildExit h code)))).
Proof.
  intros w.
  pose proof (run_registry_inv inputs init init_registry_inv) as Hr. fold w in Hr.
  pose proof Hr as [Hnd Hreg Hrep Hlis [Hdn Hdi]].
  split; [|split; [|split]].
  - intros Hin Hc. destruct (Hreg h Hc) as [_ Hnot]. contradiction.
  - intros Hin. apply count_occ_NoDup; [exact Hdn | apply Hdi, Hin].
  - intros Hnot. apply count_occ_not_In. rewrite Hdi. exact Hnot.
  - intros code c Hs Hc.
    pose proof (step_registry_inv w (ChildExit h code) Hr) as Hr'.
    assert (Hstep : step w (ChildExit h code) = child_exit h code w)
      by (unfold step; rewrite Hs; reflexivity).
    assert (Hin : In h (reported (step w (ChildExit h code)))).
    { rewrite Hstep. unfold child_exit. rewrite Hc.
      destruct (once_exit c); cbn; rewrite in_app_iff; simpl; auto. }
    split; [exact Hin|].
    intros Hch. destruct (inv_registered _ Hr' h Hch) as [_ Hnot]. contradiction.
Qed.

End SupervisorFacts.

(* ===================================================================== *)
(** * Properties of the execution context *)
(* ===================================================================== *)

Module ContextFacts.
Import Js JsFacts Command.

Section WithPlatform.
Variable P : Platform.

Lemma cleared_get k o : cleared k o -> get o k = VUndefined.
Proof. unfold cleared, get. intros ->. reflexivity. Qed.

Lemma cleared_unset k j o : cleared k o -> cleared k (unset j o).
Proof. apply lookup_set_undefined_keeps. Qed.

Lemma cleared_unset_eq k o : cleared k (unset k o).
Proof. unfold cleared, unset. rewrite lookup_set, String.eqb_refl. reflexivity. Qed.

Lemma fold_left_keeps {A B} (inv : A -> Prop) (f : A -> B -> A) (l : list B) :
  (forall a x, inv a -> inv (f a x)) -> forall a, inv a -> inv (fold_left f l a).
Proof.
  intros Hf. induction l as [|x l IH]; intros a Ha; simpl; [exact Ha|].
  apply IH, Hf, Ha.
Qed.

Lemma cleared_remove_aliases k aliases o :
  cleared k o -> cleared k (remove_aliases aliases o).
Proof.
  unfold remove_aliases. apply fold_left_keeps. intros a entry.
  apply fold_left_keeps. intros a' item. apply cleared_unset.
Qed.

Lemma cleared_remove_camel_case k o :
  cleared k o -> cleared k (remove_camel_case P o).
Proof.
  unfold remove_camel_case. apply fold_left_keeps. intros a key Ha.
  destruct (includes_dash key); [apply cleared_unset|]; exact Ha.
Qed.

Lemma cleared_remove_exec_keys k ex o :
  cleared k o -> cleared k (remove_exec_keys P ex o).
Proof.
  unfold remove_exec_keys. apply fold_left_keeps. intros a key Ha.
  apply cleared_unset, cleared_unset, Ha.
Qed.

Lemma cleared_clear_globals k o :
  In k ["help"; "h"; "version"; "v"] -> cleared k (clear_globals o).
Proof.
  unfold clear_globals. simpl.
  intros [<-|[<-|[<-|[<-|[]]]]];
    repeat first [apply cleared_unset_eq | apply cleared_unset].
Qed.

Lemma cleared_clean_argv k options aliases o :
  In k ["help"; "h"; "version"; "v"] -> cleared k (clean_argv P options aliases o).
Proof.
  intros Hk. unfold clean_argv.
  assert (H1 : cleared k (if removeAlias options
                          then remove_aliases aliases (clear_globals o)
                          else clear_globals o)).
  { destruct (removeAlias options);
      [apply cleared_remove_aliases|]; apply cleared_clear_globals, Hk. }
  destruct (removeCamelCase options); [apply cleared_remove_camel_case|]; exact H1.
Qed.

Lemma cleared_derive_context k options aliases o raw :
  In k ["help"; "h"; "version"; "v"] ->
  cleared k (argv (derive_context P options aliases o raw)).
Proof.
  intros Hk. pose proof (cleared_clean_argv k options aliases o Hk) as Hc.
  unfold derive_context.
  destruct (opt_execArgv options); [|exact Hc].
  destruct (keys _); simpl; apply cleared_remove_exec_keys, Hc.
Qed.

(** The getter builds the context with [derive_context] the first time. *)
Lemma context_first this st :
  this_CONTEXT this = None ->
  fst (context P this st) =
  derive_context P (this_parserOptions this) (yargs_alias P (this_class this))
    (yargs_argv P (this_class this) (read st (this_rawArgv this)))
    (this_rawArgv this).
Proof. unfold context. intros ->. reflexivity. Qed.

(** ... and returns the memoized one afterwards. *)
Lemma context_memoized this st st' :
  context P (snd (context P this st)) st' =
  (fst (context P this st), snd (context P this st)).
Proof.
  unfold context. destruct (this_CONTEXT this) eqn:E; cbn; [rewrite E|]; reflexivity.
Qed.

(** C2: whatever the parsed argv, the parser options and the declared
    aliases, each of [help], [h], [version], [v] is a property of the
    derived context's [argv] whose value is [undefined]: the key has been
    assigned [undefined] and reads as [undefined]. *)
Theorem context_clears_help_and_version
    (options : ParserOptions) (aliases : list (string * list string))
    (parsed : obj) (raw : loc) :
  Forall (fun k =>
            lookup k (argv (derive_context P options aliases parsed raw))
              = Some VUndefined
            /\ get (argv (derive_context P options aliases parsed raw)) k
              = VUndefined)
         ["help"; "h"; "version"; "v"].
Proof.
  apply Forall_forall. intros k Hk.
  apply list_elem_of_In in Hk.
  pose proof (cleared_derive_context k options aliases parsed raw Hk) as Hc.
  split; [exact Hc | apply cleared_get, Hc].
Qed.

(** ** Merging the environment override *)

Lemma derive_context_exec options aliases parsed raw :
  opt_execArgv options = true ->
  let ex := extract_all P (process_env P) (clean_argv P options aliases parsed) in
  let ctx := derive_context P options aliases parsed raw in
  (keys (Helper.execArgvObj ex) <> [] ->
     execArgvObj ctx = Some (Helper.execArgvObj ex)
     /\ debugOptions ctx = Some (Helper.debugOptions ex)
     /\ debugPort ctx = Some (Helper.debugPort ex))
  /\ (keys (Helper.execArgvObj ex) = [] ->
     execArgvObj ctx = None /\ debugOptions ctx = None /\ debugPort ctx = None).
Proof.
  intros Hopt ex ctx. subst ctx. unfold derive_context. rewrite Hopt.
  fold ex. destruct (keys (Helper.execArgvObj ex)) eqn:E; simpl.
  - split; [congruence | auto].
  - split; [auto | discriminate].
Qed.

Lemma extract_all_env s o :
  NODE_DEBUG_OPTION (process_env P) = Some s ->
  extract_all P (process_env P) o =
  merge_env (Helper.extractExecArgv o) (Helper.extractExecArgv (parser P s)).
Proof. unfold extract_all. intros ->. reflexivity. Qed.

(** Keys of [debugOptions] are keys of [execArgvObj]. *)
Lemma debugOptions_in_execArgvObj o k v :
  lookup k (Helper.debugOptions (Helper.extractExecArgv o)) = Some v ->
  lookup k (Helper.execArgvObj (Helper.extractExecArgv o)) = Some v.
Proof.
  intros H. apply ExtractFacts.debugOptions_value in H as (-> & Hin & Hf & Hd).
  apply ExtractFacts.execArgvObj_present; [exact Hin|].
  split; [left; exact Hf | exact Hd].
Qed.

(** A defined port comes with a key in [execArgvObj]. *)
Lemma debugPort_has_key o :
  Helper.debugPort (Helper.extractExecArgv o) <> VUndefined ->
  exists k v, lookup k (Helper.execArgvObj (Helper.extractExecArgv o)) = Some v.
Proof.
  intros H.
  destruct (ExtractFacts.extractExecArgv_inv o) as [_ _ _ _ Hp _].
  apply Hp in H as (k & Hin & Hf & Hn).
  exists k, (get o k). apply ExtractFacts.execArgvObj_present; [exact Hin|].
  split; [left; exact Hf | apply ExtractFacts.is_number_defined, Hn].
Qed.

Lemma truthy_defined v : truthy v = true -> v <> VUndefined.
Proof. intros H ->. discriminate. Qed.

(** C6 (amended): when [$NODE_DEBUG_OPTION] is set, every exec-argv key it
    yields is in the context's [execArgvObj] (and every debug key in its
    [debugOptions]) with the value from the environment, whatever the
    command argv said for that key; the keys the environment does not
    yield keep the value from the command argv. The debug port follows the
    same priority: it is the port of the environment whenever that one is
    truthy, and the port of the command argv only otherwise. *)
Theorem env_wins_in_exec_argv
    (options : ParserOptions) (aliases : list (string * list string))
    (parsed : obj) (raw : loc) (s : string) :
  opt_execArgv options = true ->
  NODE_DEBUG_OPTION (process_env P) = Some s ->
  let fromArgv := Helper.extractExecArgv (clean_argv P options aliases parsed) in
  let fromEnv := Helper.extractExecArgv (parser P s) in
  let ctx := derive_context P options aliases parsed raw in
  (forall k v, lookup k (Helper.execArgvObj fromEnv) = Some v ->
     exists o, execArgvObj ctx = Some o /\ lookup k o = Some v)
  /\ (forall k v, lookup k (Helper.debugOptions fromEnv) = Some v ->
     exists o, debugOptions ctx = Some o /\ lookup k o = Some v)
  /\ (forall k o, execArgvObj ctx = Some o ->
     lookup k (Helper.execArgvObj fromEnv) = None ->
     lookup k o = lookup k (Helper.execArgvObj fromArgv))
  /\ (truthy (Helper.debugPort fromEnv) = true ->
     debugPort ctx = Some (Helper.debugPort fromEnv))
  /\ (truthy (Helper.debugPort fromEnv) = false ->
     forall o, execArgvObj ctx = Some o ->
     debugPort ctx = Some (Helper.debugPort fromArgv)).
Proof.
  intros Hopt Henv fromArgv fromEnv ctx.
  destruct (derive_context_exec options aliases parsed raw Hopt) as [Hsome Hnone].
  rewrite (extract_all_env s _ Henv) in Hsome, Hnone.
  fold fromArgv fromEnv ctx in Hsome, Hnone.
  destruct (ExtractFacts.extractExecArgv_NoDup (parser P s)) as [Hnd1 Hnd2].
  fold fromEnv in Hnd1, Hnd2.
  assert (Hexec : forall k v, lookup k (Helper.execArgvObj fromEnv) = Some v ->
            lookup k (Helper.execArgvObj (merge_env fromArgv fromEnv)) = Some v).
  { intros k v H. simpl. rewrite lookup_assign by exact Hnd2. rewrite H. reflexivity. }
  assert (Hnonempty : forall k v, lookup k (Helper.execArgvObj fromEnv) = Some v ->
            keys (Helper.execArgvObj (merge_env fromArgv fromEnv)) <> []).
  { intros k v H. eapply lookup_keys_nonempty, Hexec, H. }
  assert (Hcases : keys (Helper.execArgvObj (merge_env fromArgv fromEnv)) = []
                   \/ keys (Helper.execArgvObj (merge_env fromArgv fromEnv)) <> [])
    by (destruct (keys _); [left; reflexivity | right; discriminate]).
  repeat split.
  - intros k v H. destruct (Hsome (Hnonempty k v H)) as (E & _ & _).
    exists (Helper.execArgvObj (merge_env fromArgv fromEnv)).
    split; [exact E | apply Hexec, H].
  - intros k v H.
    pose proof (debugOptions_in_execArgvObj _ _ _ H) as H'. fold fromEnv in H'.
    destruct (Hsome (Hnonempty k v H')) as (_ & E & _).
    exists (Helper.debugOptions (merge_env fromArgv fromEnv)).
    split; [exact E|]. simpl. rewrite lookup_assign by exact Hnd1.
    rewrite H. reflexivity.
  - intros k o Ho Hk.
    destruct Hcases as [E|Hne].
    + destruct (Hnone E) as (E' & _). congruence.
    + destruct (Hsome Hne) as (E' & _). rewrite E' in Ho. injection Ho as <-.
      simpl. rewrite lookup_assign by exact Hnd2. rewrite Hk. reflexivity.
  - intros Ht.
    destruct (debugPort_has_key (parser P s) (truthy_defined _ Ht)) as (k & v & Hk).
    destruct (Hsome (Hnonempty k v Hk)) as (_ & _ & E).
    rewrite E. simpl. unfold or_else. fold fromEnv. rewrite Ht. reflexivity.
  - intros Ht o Ho.
    destruct Hcases as [E|Hne].
    + destruct (Hnone E) as (E' & _). congruence.
    + destruct (Hsome Hne) as (_ & _ & E'). rewrite E'.
      simpl. unfold or_else. fold fromEnv. rewrite Ht. reflexivity.
Qed.

End WithPlatform.

(** A scenario of the specification: [--debug-port=9229] and no
    environment override. The port is 9229, and [debug-port] is cleared
    from the context's argv together with its camel-case variant. *)
Example context_debug_port_9229 :
  let ctx := derive_context (Demo.platform []) default_parserOptions
               [("help", ["h"]); ("version", ["v"])]
               (Demo.parse_tokens ["--debug-port=9229"; "app"]) 0 in
  debugPort ctx = Some (VNum 9229)
  /\ execArgvObj ctx = Some [("debug-port", VNum 9229)]
  /\ get (argv ctx) "debug-port" = VUndefined
  /\ get (argv ctx) "debugPort" = VUndefined.
Proof. repeat split; reflexivity. Qed.

(** Witness for C6: the command line says
    [--harmony_x=a --debug-port=5000], the environment
    [--debug-port=6000 --harmony_x=b]. *)
Lemma env_wins_in_exec_argv_witness :
  let P := Demo.platform [("NODE_DEBUG_OPTION", "--debug-port=6000 --harmony_x=b")] in
  let parsed := Demo.parse_tokens ["--harmony_x=a"; "--debug-port=5000"; "app"] in
  exists o, execArgvObj (derive_context P default_parserOptions [] parsed 0) = Some o
            /\ lookup "harmony_x" o = Some (VStr "b").
Proof.
  intros P parsed.
  destruct (env_wins_in_exec_argv P default_parserOptions [] parsed 0
              "--debug-port=6000 --harmony_x=b" eq_refl eq_refl) as (H & _).
  apply (H "harmony_x" (VStr "b")). reflexivity.
Defined.

(** C6, as stated, fails: the command line sets the debug port to 5000, the
    environment variable to 6000, and the context's port is 6000, not the
    5000 of the command line. *)
Lemma env_port_replaces_argv_port :
  let P := Demo.platform [("NODE_DEBUG_OPTION", "--debug-port=6000")] in
  let parsed := Demo.parse_tokens ["--debug-port=5000"] in
  Helper.debugPort
    (Helper.extractExecArgv (clean_argv P default_parserOptions [] parsed))
    = VNum 5000
  /\ debugPort (derive_context P default_parserOptions [] parsed 0)
     = Some (VNum 6000)
  /\ debugPort (derive_context P default_parserOptions [] parsed 0)
     <> Some (VNum 5000).
Proof.
  repeat split; try reflexivity.
  intros H.
  apply (f_equal (fun o => match o with
                           | Some (VNum x) => PrimFloat.eqb x 5000
                           | _ => false
                           end)) in H.
  vm_compute in H. discriminate.
Qed.

End ContextFacts.

(* ===================================================================== *)
(** * Properties of the registry *)
(* ===================================================================== *)

Module RegistryFacts.
Import Js JsFacts Command.

Section WithPlatform.
Variable P : Platform.
Variable classes : ClassId -> Class.


Lemma alias_registered (a n : string) (commands : Registry) (c : ClassId) :
  a <> "" -> map_get n commands = Some c ->
  alias a n commands = inr (map_set a c commands).
Proof.
  intros Ha Hn. unfold alias. apply String.eqb_neq in Ha. rewrite Ha, Hn. reflexivity.
Qed.

(** C7 (amended): [add] never rejects a name because it is registered
    already. Whenever the name is not empty and the target resolves to a
    command class, the call succeeds and the name maps to that class from
    then on, replacing any earlier registration; the names other than the
    new one and the alias of its class keep their command. *)
Theorem add_replaces_registered_name
    (name : string) (target : Target) (c : ClassId) (commands : Registry) :
  name <> "" ->
  resolve P target = inr c ->
  exists commands',
    add P classes name target commands = inr commands'
    /\ map_get name commands' = Some c
    /\ (forall other, other <> name -> class_alias (classes c) <> Some other ->
        map_get other commands' = map_get other commands).
Proof.
  intros Hname Hres. unfold add.
  apply String.eqb_neq in Hname. rewrite Hname, Hres.
  assert (Hplain : map_get name (map_set name c commands) = Some c
                   /\ (forall other, other <> name ->
                       map_get other (map_set name c commands) = map_get other commands)).
  { split.
    - rewrite map_get_set, String.eqb_refl. reflexivity.
    - intros other Ho. rewrite map_get_set.
      destruct (String.eqb name other) eqn:E; [|reflexivity].
      apply String.eqb_eq in E. congruence. }
  destruct Hplain as [Hget Hother].
  destruct (class_alias (classes c)) as [a|] eqn:Ea.
  - destruct (String.eqb a "") eqn:E.
    + eexists. split; [reflexivity|]. split; [exact Hget|].
      intros other Ho _. apply Hother, Ho.
    + apply String.eqb_neq in E.
      rewrite (alias_registered a name _ c E Hget).
      eexists. split; [reflexivity|]. split.
      * rewrite map_get_set. destruct (String.eqb a name); [reflexivity | exact Hget].
      * intros other Ho Ha. rewrite map_get_set.
        destruct (String.eqb a other) eqn:E2.
        -- apply String.eqb_eq in E2. congruence.
        -- apply Hother, Ho.
  - eexists. split; [reflexivity|]. split; [exact Hget|].
    intros other Ho _. apply Hother, Ho.
Qed.

End WithPlatform.

(** Witness for C7: [build] is registered for
    class 1, then again from a module file that exports class 2. *)
Lemma add_replaces_registered_name_witness :
  exists commands',
    add (Demo.platform []) Demo.classes "build" (TPath "/cmd/build.js")
        [("build", 1)] = inr commands'
    /\ map_get "build" commands' = Some 2.
Proof.
  destruct (add_replaces_registered_name (Demo.platform []) Demo.classes
              "build" (TPath "/cmd/build.js") 2 [("build", 1)])
    as (commands' & H1 & H2 & _).
  - discriminate.
  - reflexivity.
  - exists commands'. split; assumption.
Defined.

(** C7, as stated, fails: registering [build] a second time is accepted, and
    the second class silently takes the place of the first. *)
Lemma second_add_is_not_rejected :
  exists commands,
    add (Demo.platform []) Demo.classes "build" (TClass 1) [] = inr commands
    /\ map_get "build" commands = Some 1
    /\ add (Demo.platform []) Demo.classes "build" (TClass 2) commands
       = inr [("build", 2)].
Proof. exists [("build", 1)]. repeat split; reflexivity. Qed.

End RegistryFacts.

(* ===================================================================== *)
(** * Properties of dispatch *)
(* ===================================================================== *)

Module DispatchFacts.
Import Js JsFacts Command.

Section WithPlatform.
Variable P : Platform.
Variable classes : ClassId -> Class.

Abbreviation DISPATCH := (Command.DISPATCH P classes).
Abbreviation construct := (Command.construct P classes).
Abbreviation context := (Command.context P).

(** ** The store *)

Lemma state_eta st : st = {| heap := heap st; trace := trace st |}.
Proof. destruct st; reflexivity. Qed.

Lemma read_app st hs l :
  l < length (heap st) ->
  read {| heap := heap st ++ hs; trace := trace st |} l = read st l.
Proof. intros H. unfold read. simpl. rewrite lookup_app_l by exact H. reflexivity. Qed.

Lemma read_fresh h a tr : read {| heap := h ++ [a]; trace := tr |} (length h) = a.
Proof.
  unfold read. simpl. rewrite lookup_app_r by lia.
  rewrite Nat.sub_diag. reflexivity.
Qed.

(** Writing to the array that was allocated last. *)
Lemma write_fresh h a x tr :
  write (length h) x {| heap := h ++ [a]; trace := tr |}
  = {| heap := h ++ [x]; trace := tr |}.
Proof.
  unfold write. cbn [heap trace]. f_equal.
  rewrite insert_app_r_alt by lia. rewrite Nat.sub_diag. reflexivity.
Qed.

(** ** Equations of [DISPATCH] *)

Lemma DISPATCH_parse_error fuel this st err :
  yargs_parse P (this_class this) (read st (this_rawArgv this)) = inl err ->
  DISPATCH (S fuel) this st = (Throw err, st).
Proof. intros H. cbn [Command.DISPATCH]. rewrite H. reflexivity. Qed.

Lemma DISPATCH_version fuel this st parsed v :
  yargs_parse P (this_class this) (read st (this_rawArgv this)) = inr parsed ->
  version_requested parsed this = Some v ->
  DISPATCH (S fuel) this st = (Done, emit (Print v) st).
Proof. intros H1 H2. cbn [Command.DISPATCH]. rewrite H1, H2. reflexivity. Qed.

(** The subcommand branch. *)
Lemma DISPATCH_subcommand fuel this st parsed Command :
  yargs_parse P (this_class this) (read st (this_rawArgv this)) = inr parsed ->
  version_requested parsed this = None ->
  find_command (first_positional parsed) (this_COMMANDS this) = Some Command ->
  DISPATCH (S fuel) this st =
  let st1 := {| heap := heap st
                  ++ [splice (indexOf_value (first_positional parsed)
                                (read st (this_rawArgv this))) 1 []
                             (read st (this_rawArgv this))];
                trace := trace st |} in
  match construct Command (length (heap st)) with
  | inl err => (Throw err, st1)
  | inr command => DISPATCH fuel command st1
  end.
Proof.
  intros H1 H2 H3. cbn [Command.DISPATCH]. rewrite H1, H2, H3.
  unfold alloc. cbv beta iota zeta.
  rewrite read_fresh, write_fresh. reflexivity.
Qed.

(** The branch in which the command runs itself. *)
Lemma DISPATCH_self fuel this st parsed :
  yargs_parse P (this_class this) (read st (this_rawArgv this)) = inr parsed ->
  version_requested parsed this = None ->
  find_command (first_positional parsed) (this_COMMANDS this) = None ->
  DISPATCH (S fuel) this st =
  let ctx := fst (context this st) in
  if truthy (get (argv ctx) "AUTO_COMPLETIONS") then
    (Done, emit (Completion (this_class this)
                   (skipn 1 (read st (this_rawArgv this)))) st)
  else
    match class_run (classes (this_class this)) ctx with
    | Some err => (Throw err, emit (Run (this_class this) ctx) st)
    | None => (Done, emit (Run (this_class this) ctx) st)
    end.
Proof.
  intros H1 H2 H3. cbn [Command.DISPATCH]. rewrite H1, H2, H3.
  unfold Command.context.
  destruct (this_CONTEXT this); cbn [fst this_class this_rawArgv memoize];
    destruct (truthy _); try reflexivity;
    destruct (class_run _ _); reflexivity.
Qed.

Lemma construct_fields c l command :
  construct c l = inr command ->
  this_rawArgv command = l /\ this_CONTEXT command = None /\ this_class command = c.
Proof.
  unfold Command.construct. destruct (register_all _ _ _ _); [discriminate|].
  intros H. injection H as <-. auto.
Qed.

Lemma context_rawArgv this st :
  this_CONTEXT this = None -> rawArgv (fst (context this st)) = this_rawArgv this.
Proof.
  intros H. unfold Command.context. rewrite H. cbn [fst].
  unfold derive_context.
  destruct (opt_execArgv _); [destruct (keys _)|]; reflexivity.
Qed.

Lemma context_reads_own_array this st1 st2 :
  read st1 (this_rawArgv this) = read st2 (this_rawArgv this) ->
  context this st1 = context this st2.
Proof. intros H. unfold Command.context. rewrite H. reflexivity. Qed.

(** ** What a dispatch does to the store and to the outside *)

(** [DISPATCH] reads the array of its instance and nothing else: from two
    stores of the same size that agree on that array it gives the same
    outcome, appends the same arrays and emits the same events. Existing
    arrays are never written. *)
Lemma DISPATCH_frame fuel : forall this st1 st2,
  length (heap st1) = length (heap st2) ->
  read st1 (this_rawArgv this) = read st2 (this_rawArgv this) ->
  exists r hs evs,
    DISPATCH fuel this st1
      = (r, {| heap := heap st1 ++ hs; trace := trace st1 ++ evs |})
    /\ DISPATCH fuel this st2
      = (r, {| heap := heap st2 ++ hs; trace := trace st2 ++ evs |}).
Proof.
  induction fuel as [|fuel IH]; intros this st1 st2 Hlen Hread.
  - exists OutOfFuel, [], []. cbn. rewrite !app_nil_r, <- !state_eta. auto.
  - destruct (yargs_parse P (this_class this) (read st1 (this_rawArgv this)))
      as [err|parsed] eqn:Hp1.
    { exists (Throw err), [], []. rewrite !app_nil_r, <- !state_eta.
      split; apply DISPATCH_parse_error; [|rewrite <- Hread]; exact Hp1. }
    assert (Hp2 := Hp1). rewrite Hread in Hp2.
    destruct (version_requested parsed this) as [v|] eqn:Hv.
    { exists Done, [], [Print v]. rewrite !app_nil_r.
      rewrite (DISPATCH_version fuel this st1 parsed v Hp1 Hv).
      rewrite (DISPATCH_version fuel this st2 parsed v Hp2 Hv).
      split; reflexivity. }
    destruct (find_command (first_positional parsed) (this_COMMANDS this))
      as [Command|] eqn:Hf.
    + rewrite (DISPATCH_subcommand fuel this st1 parsed Command Hp1 Hv Hf).
      rewrite (DISPATCH_subcommand fuel this st2 parsed Command Hp2 Hv Hf).
      cbv zeta. rewrite <- Hread, <- Hlen.
      set (reduced := splice _ 1 [] _).
      destruct (construct Command (length (heap st1))) as [err|command] eqn:Hc.
      * exists (Throw err), [reduced], []. rewrite !app_nil_r. split; reflexivity.
      * destruct (construct_fields Command _ command Hc) as (Hl & _ & _).
        destruct (IH command
                    {| heap := heap st1 ++ [reduced]; trace := trace st1 |}
                    {| heap := heap st2 ++ [reduced]; trace := trace st2 |})
          as (r & hs & evs & E1 & E2).
        -- cbn [heap]. rewrite !length_app. cbn [length]. lia.
        -- rewrite Hl, read_fresh. rewrite Hlen, read_fresh. reflexivity.
        -- exists r, (reduced :: hs), evs. rewrite E1, E2. cbn [heap trace].
           rewrite <- !app_assoc. split; reflexivity.
    + rewrite (DISPATCH_self fuel this st1 parsed Hp1 Hv Hf).
      rewrite (DISPATCH_self fuel this st2 parsed Hp2 Hv Hf).
      cbv zeta. rewrite <- (context_reads_own_array this st1 st2 Hread), <- Hread.
      destruct (truthy _).
      * exists Done, [], [Completion (this_class this)
                            (skipn 1 (read st1 (this_rawArgv this)))].
        rewrite !app_nil_r. split; reflexivity.
      * destruct (class_run _ _) as [err|];
          [exists (Throw err) | exists Done];
          exists [], [Run (this_class this) (fst (context this st1))];
          rewrite !app_nil_r; split; reflexivity.
Qed.

(** The [run] behaviours that a dispatch invokes are that of its own
    instance and those of instances built on arrays allocated during the
    dispatch. *)
Lemma DISPATCH_effect fuel : forall this st,
  this_CONTEXT this = None ->
  exists r hs evs,
    DISPATCH fuel this st
      = (r, {| heap := heap st ++ hs; trace := trace st ++ evs |})
    /\ forall c ctx, In (Run c ctx) evs ->
         rawArgv ctx = this_rawArgv this \/ length (heap st) <= rawArgv ctx.
Proof.
  induction fuel as [|fuel IH]; intros this st Hmemo.
  - exists OutOfFuel, [], []. cbn. rewrite !app_nil_r, <- state_eta.
    split; [reflexivity | intros c ctx []].
  - destruct (yargs_parse P (this_class this) (read st (this_rawArgv this)))
      as [err|parsed] eqn:Hp.
    { exists (Throw err), [], []. rewrite !app_nil_r, <- state_eta.
      split; [apply DISPATCH_parse_error, Hp | intros c ctx []]. }
    destruct (version_requested parsed this) as [v|] eqn:Hv.
    { exists Done, [], [Print v]. rewrite !app_nil_r.
      split; [apply (DISPATCH_version _ _ _ parsed), Hv; exact Hp|].
      intros c ctx [H|[]]. discriminate. }
    destruct (find_command (first_positional parsed) (this_COMMANDS this))
      as [Command|] eqn:Hf.
    + rewrite (DISPATCH_subcommand fuel this st parsed Command Hp Hv Hf).
      cbv zeta. set (reduced := splice _ 1 [] _).
      destruct (construct Command (length (heap st))) as [err|command] eqn:Hc.
      * exists (Throw err), [reduced], []. rewrite !app_nil_r.
        split; [reflexivity | intros c ctx []].
      * destruct (construct_fields Command _ command Hc) as (Hl & Hm & _).
        destruct (IH command
                    {| heap := heap st ++ [reduced]; trace := trace st |} Hm)
          as (r & hs & evs & E & Hruns).
        exists r, (reduced :: hs), evs. rewrite E. cbn [heap trace].
        rewrite <- !app_assoc. split; [reflexivity|].
        intros c ctx Hin. right.
        destruct (Hruns c ctx Hin) as [H|H].
        -- rewrite H, Hl. lia.
        -- cbn [heap] in H. rewrite length_app in H. lia.
    + rewrite (DISPATCH_self fuel this st parsed Hp Hv Hf). cbv zeta.
      destruct (truthy _).
      * exists Done, [], [Completion (this_class this)
                            (skipn 1 (read st (this_rawArgv this)))].
        rewrite !app_nil_r. split; [reflexivity|].
        intros c ctx [H|[]]. discriminate.
      * destruct (class_run _ _) as [err|];
          [exists (Throw err) | exists Done];
          exists [], [Run (this_class this) (fst (context this st))];
          rewrite !app_nil_r; (split; [reflexivity|]);
          intros c ctx [H|[]]; injection H as _ <-; left;
          apply context_rawArgv, Hmemo.
Qed.

(** A dispatch leaves every array that existed before it as it was. *)
Lemma DISPATCH_preserves fuel this st l a :
  heap st !! l = Some a ->
  heap (snd (DISPATCH fuel this st)) !! l = Some a.
Proof.
  intros H.
  destruct (DISPATCH_frame fuel this st st eq_refl eq_refl) as (r & hs & evs & E & _).
  rewrite E. cbn [snd heap]. apply lookup_app_l_Some, H.
Qed.

(** With a parser whose first positional token comes from the vector, each
    delegation shortens the vector, so a dispatch finishes: fuel beyond the
    length of the vector is never used up. *)
Lemma DISPATCH_total fuel : forall this st,
  positional_from_raw P ->
  length (read st (this_rawArgv this)) < fuel ->
  fst (DISPATCH fuel this st) <> OutOfFuel.
Proof.
  induction fuel as [|fuel IH]; intros this st Hpos Hlen; [lia|].
  destruct (yargs_parse P (this_class this) (read st (this_rawArgv this)))
    as [err|parsed] eqn:Hp.
  { rewrite (DISPATCH_parse_error fuel this st err Hp). discriminate. }
  destruct (version_requested parsed this) as [v|] eqn:Hv.
  { rewrite (DISPATCH_version fuel this st parsed v Hp Hv). discriminate. }
  destruct (find_command (first_positional parsed) (this_COMMANDS this))
    as [Command|] eqn:Hf.
  - rewrite (DISPATCH_subcommand fuel this st parsed Command Hp Hv Hf). cbv zeta.
    destruct (construct Command (length (heap st))) as [err|command] eqn:Hc;
      [discriminate|].
    destruct (construct_fields Command _ command Hc) as (Hl & _ & _).
    apply IH; [exact Hpos|]. rewrite Hl, read_fresh.
    destruct (first_positional parsed) as [| | | |name| |] eqn:Hn;
      try discriminate.
    pose proof (Hpos _ _ _ _ Hp Hn) as Hin.
    destruct (indexOf_first name _ Hin) as (before & after & Hraw & _ & Hidx).
    cbn [indexOf_value]. rewrite Hidx, Hraw, splice_one.
    rewrite Hraw in Hlen. rewrite length_app in *. cbn [length] in Hlen. lia.
  - rewrite (DISPATCH_self fuel this st parsed Hp Hv Hf). cbv zeta.
    destruct (truthy _); [discriminate|].
    destruct (class_run _ _); discriminate.
Qed.

Lemma start_heap fuel this st :
  heap (snd (start P classes fuel this st)) =
  heap (snd (DISPATCH fuel this
               (if (indexOf "--get-yargs-completions" (read st (this_rawArgv this))
                    =? -1)%Z
                then st
                else write (this_rawArgv this)
                       (splice (indexOf "--get-yargs-completions"
                                  (read st (this_rawArgv this))) 2
                          [("--AUTO_COMPLETIONS="
                              ++ join "," (read st (this_rawArgv this)))%string]
                          (read st (this_rawArgv this))) st))).
Proof.
  unfold start. destruct (DISPATCH _ _ _) as [[| |] st']; reflexivity.
Qed.

(** The subcommand branch as the code has it: when the first positional
    token is the name (or an alias) of a registered command and no version
    is to be printed, [DISPATCH] copies the raw vector, takes out of the
    copy the element that [indexOf] finds, builds the command on the
    reduced copy and continues with the dispatch of that command. The
    vector of the parent is not changed, the [run] of the parent is not
    invoked, and with a parser that takes positional tokens from the vector
    the dispatch finishes. *)
Lemma subcommand_branch
    (fuel : nat) (this : Instance) (st : State) (parsed : obj)
    (name : string) (Command : ClassId) :
  this_rawArgv this < length (heap st) ->
  yargs_parse P (this_class this) (read st (this_rawArgv this)) = inr parsed ->
  first_positional parsed = VStr name ->
  version_requested parsed this = None ->
  map_get name (this_COMMANDS this) = Some Command ->
  In name (read st (this_rawArgv this)) ->
  exists before after hs evs,
    read st (this_rawArgv this) = before ++ name :: after
    /\ ~ In name before
    /\ DISPATCH (S fuel) this st =
       match construct Command (length (heap st)) with
       | inl err =>
           (Throw err,
            {| heap := heap st ++ [before ++ after]; trace := trace st |})
       | inr command =>
           DISPATCH fuel command
             {| heap := heap st ++ [before ++ after]; trace := trace st |}
       end
    /\ snd (DISPATCH (S fuel) this st) =
       {| heap := heap st ++ (before ++ after) :: hs;
          trace := trace st ++ evs |}
    /\ read (snd (DISPATCH (S fuel) this st)) (this_rawArgv this)
       = before ++ name :: after
    /\ (forall c ctx, In (Run c ctx) evs -> rawArgv ctx <> this_rawArgv this)
    /\ (positional_from_raw P ->
        length (read st (this_rawArgv this)) <= fuel ->
        fst (DISPATCH (S fuel) this st) <> OutOfFuel).
Proof.
  intros Hloc Hp Hn Hv Hc Hin.
  destruct (indexOf_first name _ Hin) as (before & after & Hraw & Hnot & Hidx).
  assert (Hf : find_command (first_positional parsed) (this_COMMANDS this)
               = Some Command) by (rewrite Hn; exact Hc).
  pose proof (DISPATCH_subcommand fuel this st parsed Command Hp Hv Hf) as Heq.
  cbv zeta in Heq. rewrite Hn in Heq. cbn [indexOf_value] in Heq.
  rewrite Hidx, Hraw, splice_one in Heq.
  set (st1 := {| heap := heap st ++ [before ++ after]; trace := trace st |}) in *.
  assert (Hshape : exists hs evs,
            snd (DISPATCH (S fuel) this st) =
              {| heap := heap st ++ (before ++ after) :: hs;
                 trace := trace st ++ evs |}
            /\ forall c ctx, In (Run c ctx) evs -> rawArgv ctx <> this_rawArgv this).
  { rewrite Heq.
    destruct (construct Command (length (heap st))) as [err|command] eqn:Hcon.
    - exists [], []. rewrite app_nil_r. split; [reflexivity | intros c ctx []].
    - destruct (construct_fields Command _ command Hcon) as (Hl & Hm & _).
      destruct (DISPATCH_effect fuel command st1 Hm) as (r & hs & evs & E & Hruns).
      exists hs, evs. rewrite E. cbn [snd heap trace st1].
      rewrite <- app_assoc. split; [reflexivity|].
      intros c ctx Hrun. destruct (Hruns c ctx Hrun) as [H|H].
      + rewrite H, Hl. lia.
      + cbn [heap st1] in H. rewrite length_app in H. lia. }
  destruct Hshape as (hs & evs & Hsnd & Hruns).
  exists before, after, hs, evs.
  split; [exact Hraw|]. split; [exact Hnot|]. split; [exact Heq|].
  split; [exact Hsnd|]. split; [|split; [exact Hruns|]].
  - rewrite Hsnd, <- Hraw. apply read_app, Hloc.
  - intros Hpos Hlen. apply DISPATCH_total; [exact Hpos | lia].
Qed.

(** C8 (amended): a dispatch never changes an array that existed before
    it, so the raw vector of the command is as it was (the edit is made on
    a copy); construction and context derivation return no store at all.
    [start] is the exception: when the vector contains
    [--get-yargs-completions], it replaces in place that element and the
    next one by [--AUTO_COMPLETIONS=] followed by the elements of the vector
    joined by commas; without that marker it leaves the vector as it
    was, and it changes no other array in either case. *)
Theorem rawArgv_changed_only_by_start
    (fuel : nat) (this : Instance) (st : State) (l : loc) (a : list string) :
  heap st !! l = Some a ->
  heap (snd (DISPATCH fuel this st)) !! l = Some a
  /\ (~ In "--get-yargs-completions" (read st (this_rawArgv this)) ->
      heap (snd (start P classes fuel this st)) !! l = Some a)
  /\ (l <> this_rawArgv this ->
      heap (snd (start P classes fuel this st)) !! l = Some a)
  /\ (l = this_rawArgv this -> In "--get-yargs-completions" a ->
      heap (snd (start P classes fuel this st)) !! l =
      Some (splice (indexOf "--get-yargs-completions" a) 2
              [("--AUTO_COMPLETIONS=" ++ join "," a)%string] a)).
Proof.
  intros Hl. split; [apply DISPATCH_preserves, Hl|].
  rewrite start_heap.
  split; [|split].
  - intros Hnot. apply indexOf_absent in Hnot. rewrite Hnot. cbn [Z.eqb].
    apply DISPATCH_preserves, Hl.
  - intros Hne. apply DISPATCH_preserves.
    destruct (_ =? _)%Z; [exact Hl|].
    unfold write. cbn [heap]. rewrite list_lookup_insert_ne by congruence. exact Hl.
  - intros -> Hin.
    assert (Hread : read st (this_rawArgv this) = a) by (unfold read; rewrite Hl; reflexivity).
    rewrite Hread.
    destruct (indexOf "--get-yargs-completions" a =? -1)%Z eqn:E.
    + apply Z.eqb_eq, indexOf_absent in E. contradiction.
    + apply DISPATCH_preserves. unfold write. cbn [heap].
      apply list_lookup_insert_eq. eapply lookup_lt_Some, Hl.
Qed.


End WithPlatform.

(** ** The example platform *)

Lemma coerce_string s t : Demo.coerce s = VStr t -> t = s.
Proof.
  unfold Demo.coerce. destruct s as [|c s]; [congruence|].
  destruct (digits_value _ _); [discriminate | congruence].
Qed.

Lemma scan_positionals n : forall raw,
  length raw <= n ->
  forall (R : list string) i pos flags,
    (forall p, In p pos -> In (snd p) R) ->
    (forall t, In t raw -> In t R) ->
    forall p, In p (fst (Demo.scan raw i pos flags)) -> In (snd p) R.
Proof.
  induction n as [|n IH]; intros raw Hlen R i pos flags Hpos Hraw p.
  - destruct raw; [|simpl in Hlen; lia]. simpl. apply Hpos.
  - destruct raw as [|tok rest]; [simpl; apply Hpos|].
    simpl in Hlen. cbn [Demo.scan].
    assert (Hrest : forall t, In t rest -> In t R)
      by (intros t Ht; apply Hraw; right; exact Ht).
    destruct (Demo.is_flag tok).
    + destruct (Demo.split_eq (Demo.strip_dashes tok)) as [k [v|]].
      * apply IH; [lia | exact Hpos | exact Hrest].
      * destruct (Demo.is_boolean_flag k);
          [apply IH; [lia | exact Hpos | exact Hrest]|].
        destruct rest as [|nxt rest']; [simpl; apply Hpos|].
        destruct (Demo.is_flag nxt).
        -- apply IH; [simpl in *; lia | exact Hpos | exact Hrest].
        -- apply IH; [simpl in *; lia | exact Hpos|].
           intros t Ht. apply Hrest. right. exact Ht.
    + apply IH; [lia | | exact Hrest].
      intros q Hq. apply in_app_iff in Hq. destruct Hq as [Hq|[<-|[]]].
      * apply Hpos, Hq.
      * apply Hraw. left. reflexivity.
Qed.

(** The example parser takes its positional tokens from the vector. *)
Lemma demo_positional_from_raw env : positional_from_raw (Demo.platform env).
Proof.
  intros c raw parsed name Hp Hn. cbn in Hp. injection Hp as <-.
  unfold Demo.parse_tokens in Hn.
  pose proof (scan_positionals (length raw) raw (Nat.le_refl _) raw 0 [] []) as Hs.
  destruct (Demo.scan raw 0 [] []) as [pos flags].
  unfold first_positional, get in Hn. cbn [lookup String.eqb Ascii.eqb Bool.eqb] in Hn.
  destruct pos as [|p pos]; [discriminate|]. cbn [map] in Hn.
  apply coerce_string in Hn. subst name.
  apply Hs; [intros q [] | auto | left; reflexivity].
Qed.

(** The scenario of the specification: [deploy --env=prod] with [deploy]
    registered. The copy without [deploy] is handed to the subcommand, which
    runs on it. *)
Example dispatch_deploy :
  exists ctx,
    Command.DISPATCH (Demo.platform []) Demo.classes 2 Demo.main
      (Demo.state_of ["deploy"; "--env=prod"])
    = (Done, {| heap := [["deploy"; "--env=prod"]; ["--env=prod"]];
                trace := [Run 1 ctx] |})
    /\ rawArgv ctx = 1.
Proof. eexists. split; reflexivity. Qed.

(** The branch on the scenario of the specification. *)
Example subcommand_branch_deploy :
  exists before after,
    read (Demo.state_of ["deploy"; "--env=prod"]) 0 = before ++ "deploy" :: after
    /\ ~ In "deploy" before
    /\ fst (Command.DISPATCH (Demo.platform []) Demo.classes 3 Demo.main
              (Demo.state_of ["deploy"; "--env=prod"])) <> OutOfFuel.
Proof.
  destruct (subcommand_branch (Demo.platform []) Demo.classes
              2 Demo.main (Demo.state_of ["deploy"; "--env=prod"])
              (Demo.parse_tokens ["deploy"; "--env=prod"]) "deploy" 1)
    as (before & after & hs & evs & H1 & H2 & _ & _ & _ & _ & H3).
  - cbn. lia.
  - reflexivity.
  - reflexivity.
  - reflexivity.
  - reflexivity.
  - cbn. auto.
  - exists before, after. split; [exact H1|]. split; [exact H2|].
    apply H3; [apply demo_positional_from_raw | cbn; lia].
Qed.

(** C1 (code bug): the dispatch is meant to take the token that named the
    command out of the vector it hands down, and it looks for that token
    with [rawArgv.indexOf(commandName)], which finds the first element
    equal to the name. In [--env deploy --a=1 deploy] the token that names
    the command is the positional one at index 3, and the first element
    equal to it is the value of [--env] at index 1. The dispatch removes
    that value: the command [deploy] receives [--env --a=1 deploy], in
    which [--env] has lost its value and the naming token is still
    present, and not [--env deploy --a=1]. *)
Theorem dispatch_removes_flag_value_equal_to_name :
  let raw := ["--env"; "deploy"; "--a=1"; "deploy"] in
  first_positional (Demo.parse_tokens raw) = VStr "deploy"
  /\ Demo.positional_indices raw = [3]
  /\ map_get "deploy" (this_COMMANDS Demo.main) = Some 1
  /\ indexOf "deploy" raw = 1%Z
  /\ (exists ctx,
        Command.DISPATCH (Demo.platform []) Demo.classes 2 Demo.main
          (Demo.state_of raw)
        = (Done, {| heap := [raw; ["--env"; "--a=1"; "deploy"]];
                    trace := [Run 1 ctx] |})
        /\ rawArgv ctx = 1)
  /\ ["--env"; "--a=1"; "deploy"] <> delete 3 raw
  /\ delete 3 raw = ["--env"; "deploy"; "--a=1"].
Proof.
  cbv zeta. split; [reflexivity|]. split; [reflexivity|].
  split; [reflexivity|]. split; [reflexivity|].
  split; [eexists; split; reflexivity|].
  split; [discriminate | reflexivity].
Qed.

(** The version gate comes before the subcommand branch: with a version
    configured, [deploy --version] prints it and delegates to nobody. *)
Example version_gate_before_subcommand :
  first_positional (Demo.parse_tokens ["deploy"; "--version"]) = VStr "deploy"
  /\ map_get "deploy" (this_COMMANDS Demo.versioned) = Some 1
  /\ Command.DISPATCH (Demo.platform []) Demo.classes 2 Demo.versioned
       (Demo.state_of ["deploy"; "--version"])
     = (Done, {| heap := [["deploy"; "--version"]]; trace := [Print "1.2.3"] |}).
Proof. repeat split. Qed.

(** Witness for C8: the vector of the scenario is intact after the dispatch. *)
Lemma rawArgv_changed_only_by_start_witness :
  heap (snd (Command.DISPATCH (Demo.platform []) Demo.classes 2 Demo.main
               (Demo.state_of ["deploy"; "--env=prod"]))) !! 0
  = Some ["deploy"; "--env=prod"].
Proof.
  destruct (rawArgv_changed_only_by_start (Demo.platform []) Demo.classes 2
              Demo.main (Demo.state_of ["deploy"; "--env=prod"]) 0
              ["deploy"; "--env=prod"]) as [H _].
  - reflexivity.
  - exact H.
Defined.

(** C8, as stated, fails: [start] edits the raw vector of the command in
    place when it holds the completion marker. *)
Lemma start_rewrites_rawArgv_in_place :
  let st := Demo.state_of ["--get-yargs-completions"; "reco"; "de"] in
  let st' := snd (start (Demo.platform []) Demo.classes 2 Demo.main st) in
  read st (this_rawArgv Demo.main) = ["--get-yargs-completions"; "reco"; "de"]
  /\ read st' (this_rawArgv Demo.main)
     = ["--AUTO_COMPLETIONS=--get-yargs-completions,reco,de"; "de"]
  /\ read st' (this_rawArgv Demo.main) <> read st (this_rawArgv Demo.main).
Proof. repeat split; try reflexivity. discriminate. Qed.

(** [d] and [deploy] as first token: the same dispatch. *)
Example dispatch_alias_d :
  Command.DISPATCH (Demo.platform []) Demo.classes 2 Demo.main
    (Demo.state_of ["d"; "--env=prod"])
  = (fst (Command.DISPATCH (Demo.platform []) Demo.classes 2 Demo.main
            (Demo.state_of ["deploy"; "--env=prod"])),
     {| heap := [["d"; "--env=prod"]; ["--env=prod"]];
        trace := trace (snd (Command.DISPATCH (Demo.platform []) Demo.classes 2
                               Demo.main (Demo.state_of ["deploy"; "--env=prod"]))) |}).
Proof. reflexivity. Qed.


End DispatchFacts.

(* ===================================================================== *)
(** * Further properties of the helper module: argv transformations *)
(* ===================================================================== *)

Module ExtractMore.
Import Js JsFacts Helper.

Lemma defined_key_present argv k :
  is_undefined (get argv k) = false -> In k (keys argv).
Proof.
  unfold get. destruct (lookup k argv) eqn:E; [|discriminate].
  intros _. eapply lookup_In_keys, E.
Qed.

(** X1: [extractExecArgv] sorts the keys exactly. A key is in
    [execArgvObj], with the value it has in argv, precisely when that value
    is not [undefined] and the key is of the debug/inspect family or is
    [es_staging], [expose_debug_as] or starts with [harmony]; it is in
    [debugOptions] precisely when the value is not [undefined] and the key
    is of the family. Nothing else gets in. *)
Theorem extractExecArgv_exact (argv : obj) (k : string) :
  lookup k (execArgvObj (extractExecArgv argv))
  = (if negb (is_undefined (get argv k))
        && (includes k debug_family || match_exec_key k)
     then Some (get argv k) else None)
  /\ lookup k (debugOptions (extractExecArgv argv))
  = (if negb (is_undefined (get argv k)) && includes k debug_family
     then Some (get argv k) else None).
Proof.
  destruct (ExtractFacts.extractExecArgv_inv argv) as [Ho Hod He Hed _ _].
  split.
  - destruct (lookup k (execArgvObj (extractExecArgv argv))) as [v|] eqn:E.
    + assert (Hk : In k (keys argv) /\ exec_key argv k) by (apply Hed; congruence).
      destruct Hk as [_ [Hm Hd]]. rewrite Hd.
      specialize (He k). rewrite E in He.
      destruct (includes k debug_family), (match_exec_key k);
        try (destruct Hm; discriminate); cbn; congruence.
    + destruct (is_undefined (get argv k)) eqn:Hd; [reflexivity|].
      destruct (includes k debug_family || match_exec_key k) eqn:Hm; [|reflexivity].
      exfalso. apply (proj2 (Hed k)); [|exact E].
      split; [apply defined_key_present, Hd|]. split; [|exact Hd].
      apply orb_true_iff in Hm. exact Hm.
  - destruct (lookup k (debugOptions (extractExecArgv argv))) as [v|] eqn:E.
    + assert (Hk : In k (keys argv) /\ family_key argv k) by (apply Hod; congruence).
      destruct Hk as [_ [Hm Hd]]. rewrite Hd, Hm.
      specialize (Ho k). rewrite E in Ho. cbn. congruence.
    + destruct (is_undefined (get argv k)) eqn:Hd; [reflexivity|].
      destruct (includes k debug_family) eqn:Hm; [|reflexivity].
      exfalso. apply (proj2 (Hod k)); [|exact E].
      split; [apply defined_key_present, Hd|]. split; assumption.
Qed.


Lemma debugPort_step argv acc k :
  debugPort (extract_step argv acc k)
  = if includes k debug_family && is_number (get argv k)
    then get argv k else debugPort acc.
Proof.
  unfold extract_step.
  destruct (is_undefined (get argv k)) eqn:Hu.
  - assert (is_number (get argv k) = false)
      by (destruct (get argv k); simpl in *; congruence).
    rewrite H, andb_false_r. reflexivity.
  - destruct (includes k debug_family); cbn.
    + destruct (is_number (get argv k)); reflexivity.
    + destruct (match_exec_key k); reflexivity.
Qed.

Lemma debugPort_fold argv ks : forall acc,
  debugPort (fold_left (extract_step argv) ks acc)
  = match last (List.filter
                  (fun k => includes k debug_family && is_number (get argv k)) ks)
    with
    | Some k => get argv k
    | None => debugPort acc
    end.
Proof.
  induction ks as [|k ks IH]; intros acc; cbn [fold_left List.filter].
  - reflexivity.
  - rewrite IH, debugPort_step.
    destruct (includes k debug_family && is_number (get argv k)) eqn:E.
    + clear IH. generalize (List.filter
        (fun k => includes k debug_family && is_number (get argv k)) ks) as fl.
      intros [|k' l]; [reflexivity|].
      rewrite last_cons_cons.
      destruct (last (k' :: l)) eqn:El; [reflexivity|].
      apply last_None in El. discriminate.
    + reflexivity.
Qed.

(** X2: when several keys of the debug/inspect family hold a number, the
    port is the value of the last of them in the order of the keys of argv;
    when none does, the port is [undefined]. *)
Theorem debugPort_is_last_numeric (argv : obj) :
  debugPort (extractExecArgv argv)
  = match last (numeric_family_keys argv) with
    | Some k => get argv k
    | None => VUndefined
    end.
Proof. unfold extractExecArgv, numeric_family_keys. apply debugPort_fold. Qed.

(** [--inspect=9229 --debug-port=5858]: the later key gives the port. *)
Example debugPort_two_flags :
  debugPort (extractExecArgv
               [("_", VArr []); ("inspect", VNum 9229); ("debug-port", VNum 5858)])
  = VNum 5858.
Proof. reflexivity. Qed.

End ExtractMore.

Module UnparseMore.
Import Js Command.

Lemma In_unique x l : In x (unique l) <-> In x l.
Proof.
  induction l as [|y l IH]; cbn [unique]; [tauto|].
  simpl. rewrite filter_In, IH, negb_true_iff, String.eqb_neq.
  destruct (String.eqb_spec y x) as [->|Hne]; [tauto|].
  split; [tauto|]. intros [H|H]; [tauto|]. right. split; [exact H|].
  intros ->. contradiction.
Qed.

Lemma NoDup_list_filter {A} (f : A -> bool) (l : list A) :
  NoDup l -> NoDup (List.filter f l).
Proof.
  induction l as [|y l IH]; intros H; [exact H|].
  apply NoDup_cons in H as [Hy H]. cbn [List.filter].
  destruct (f y); [|apply IH, H].
  apply NoDup_cons. split; [|apply IH, H].
  rewrite list_elem_of_In, filter_In. rewrite list_elem_of_In in Hy. tauto.
Qed.

Lemma NoDup_unique l : NoDup (unique l).
Proof.
  induction l as [|y l IH]; cbn [unique]; [apply NoDup_nil_2|].
  apply NoDup_cons. split; [|apply NoDup_list_filter, IH].
  rewrite list_elem_of_In, filter_In, String.eqb_refl. cbn. intros [_ H]. discriminate.
Qed.

Lemma filter_all {A} (f : A -> bool) (l : list A) :
  (forall x, In x l -> f x = true) -> List.filter f l = l.
Proof.
  induction l as [|y l IH]; intros H; [reflexivity|].
  cbn [List.filter]. rewrite (H y) by (left; reflexivity).
  f_equal. apply IH. intros x Hx. apply H. right. exact Hx.
Qed.

Lemma unique_NoDup l : NoDup l -> unique l = l.
Proof.
  induction l as [|y l IH]; intros H; [reflexivity|].
  apply NoDup_cons in H as [Hy H]. rewrite list_elem_of_In in Hy.
  cbn [unique]. rewrite (IH H). f_equal. apply filter_all.
  intros x Hx. apply negb_true_iff, String.eqb_neq. intros ->. contradiction.
Qed.

Lemma sublist_list_filter {A} (f : A -> bool) (l : list A) :
  sublist (List.filter f l) l.
Proof.
  induction l as [|y l IH]; cbn [List.filter]; [constructor|].
  destruct (f y); [apply sublist_skip | apply sublist_cons]; exact IH.
Qed.

Lemma sublist_unique l : sublist (unique l) l.
Proof.
  induction l as [|y l IH]; cbn [unique]; [constructor|].
  apply sublist_skip. etransitivity; [apply sublist_list_filter | exact IH].
Qed.

(** X3: [unparseArgv] returns the flag strings of [dargs] without
    repetition: every string of the [dargs] output is in the result, once,
    nothing else is, the strings that remain keep their relative order, and
    an output without repetition is returned as it is. *)
Theorem unparseArgv_removes_duplicates (P : Platform) (argv : obj) :
  NoDup (unparseArgv P argv)
  /\ (forall x, In x (unparseArgv P argv) <-> In x (unparse P argv))
  /\ sublist (unparseArgv P argv) (unparse P argv)
  /\ (NoDup (unparse P argv) -> unparseArgv P argv = unparse P argv).
Proof.
  unfold unparseArgv. split; [apply NoDup_unique|].
  split; [intros x; apply In_unique|].
  split; [apply sublist_unique | apply unique_NoDup].
Qed.

(** [dargs] emits [debug-brk] and [debugBrk] as the same flag twice. *)
Example unique_keeps_first :
  unique ["--debug=7000"; "--debug-brk"; "--debug=7000"; "--debug-brk"; "--x"]
  = ["--debug=7000"; "--debug-brk"; "--x"].
Proof. reflexivity. Qed.

End UnparseMore.

(* ===================================================================== *)
(** * Further properties of the execution context *)
(* ===================================================================== *)

Module ContextMore.
Import Js JsFacts Command.

Lemma In_keys_set k v o j : In j (keys (set k v o)) <-> k = j \/ In j (keys o).
Proof.
  unfold set. destruct (has_key k o) eqn:E.
  - rewrite keys_update. split; [tauto|]. intros [<-|H]; [|exact H].
    apply has_key_lookup in E.
    destruct (in_dec string_dec k (keys o)) as [Hin|Hnot]; [exact Hin|].
    apply lookup_None_keys in Hnot. contradiction.
  - destruct (array_index k).
    + apply In_keys_insert_index.
    + unfold keys. rewrite map_app, in_app_iff. simpl. tauto.
Qed.

Lemma get_unset j o k :
  get (unset j o) k = if String.eqb j k then VUndefined else get o k.
Proof. unfold unset, get. rewrite lookup_set. destruct (String.eqb j k); reflexivity. Qed.

Section WithPlatform.
Variable P : Platform.

(** ** Keys removed because they went to [execArgvObj] *)

Lemma cleared_exec_fold l : forall o k,
  In k l ->
  cleared k (fold_left (fun a key => unset (camel P key) (unset key a)) l o)
  /\ cleared (camel P k)
       (fold_left (fun a key => unset (camel P key) (unset key a)) l o).
Proof.
  induction l as [|x l IH]; intros o k Hin; [destruct Hin|].
  cbn [fold_left]. destruct Hin as [->|Hin]; [|apply IH, Hin].
  split; apply ContextFacts.fold_left_keeps;
    try (intros a y Ha; apply ContextFacts.cleared_unset,
           ContextFacts.cleared_unset, Ha).
  - apply ContextFacts.cleared_unset, ContextFacts.cleared_unset_eq.
  - apply ContextFacts.cleared_unset_eq.
Qed.

(** X4: every key that the context reports in [execArgvObj] has been
    cleared from the context's [argv], and so has its camel-case variant:
    an exec-argv flag never remains among the command's own arguments. *)
Theorem exec_keys_leave_argv
    (options : ParserOptions) (aliases : list (string * list string))
    (parsed : obj) (raw : loc) (o : obj) (k : string) :
  execArgvObj (derive_context P options aliases parsed raw) = Some o ->
  In k (keys o) ->
  get (argv (derive_context P options aliases parsed raw)) k = VUndefined
  /\ get (argv (derive_context P options aliases parsed raw)) (camel P k)
     = VUndefined.
Proof.
  unfold derive_context. destruct (opt_execArgv options); [|discriminate].
  set (ex := extract_all P (process_env P) (clean_argv P options aliases parsed)).
  destruct (keys (Helper.execArgvObj ex)) eqn:E; cbn [execArgvObj argv];
    [discriminate|].
  intros H Hin. injection H as <-.
  destruct (cleared_exec_fold (keys (Helper.execArgvObj ex))
              (clean_argv P options aliases parsed) k Hin) as [H1 H2].
  split; apply ContextFacts.cleared_get; assumption.
Qed.

(** ** Aliases and camel-case keys *)

Lemma cleared_alias_item aliases : forall o entry item,
  In entry aliases -> In item (snd entry) ->
  cleared item (remove_aliases aliases o).
Proof.
  unfold remove_aliases.
  induction aliases as [|e aliases IH]; intros o entry item He Hi; [destruct He|].
  cbn [fold_left]. destruct He as [->|He]; [|eapply IH; eassumption].
  apply ContextFacts.fold_left_keeps.
  { intros a e' Ha. apply ContextFacts.fold_left_keeps; [|exact Ha].
    intros a' i Ha'. apply ContextFacts.cleared_unset, Ha'. }
  clear IH. generalize o. induction (snd entry) as [|i items IH]; intros o0;
    [destruct Hi|].
  cbn [fold_left]. destruct Hi as [->|Hi]; [|apply IH, Hi].
  apply ContextFacts.fold_left_keeps.
  - intros a' i' Ha'. apply ContextFacts.cleared_unset, Ha'.
  - apply ContextFacts.cleared_unset_eq.
Qed.

Lemma cleared_camel_fold l : forall o key,
  In key l -> includes_dash key = true ->
  cleared (camel P key)
    (fold_left (fun a k => if includes_dash k then unset (camel P k) a else a) l o).
Proof.
  induction l as [|x l IH]; intros o key Hin Hd; [destruct Hin|].
  cbn [fold_left]. destruct Hin as [->|Hin]; [|apply IH; assumption].
  rewrite Hd. apply ContextFacts.fold_left_keeps.
  - intros a y Ha. destruct (includes_dash y);
      [apply ContextFacts.cleared_unset|]; exact Ha.
  - apply ContextFacts.cleared_unset_eq.
Qed.

Lemma keys_kept_fold {B} (f : obj -> B -> obj) (l : list B) :
  (forall a x k, In k (keys a) -> In k (keys (f a x))) ->
  forall o k, In k (keys o) -> In k (keys (fold_left f l o)).
Proof.
  intros Hf. induction l as [|x l IH]; intros o k H; cbn [fold_left]; [exact H|].
  apply IH, Hf, H.
Qed.

Lemma keys_kept_unset j o k : In k (keys o) -> In k (keys (unset j o)).
Proof. intros H. apply In_keys_set. right. exact H. Qed.

Lemma keys_kept_clear_globals o k : In k (keys o) -> In k (keys (clear_globals o)).
Proof. intros H. unfold clear_globals. repeat apply keys_kept_unset. exact H. Qed.

Lemma keys_kept_remove_aliases aliases o k :
  In k (keys o) -> In k (keys (remove_aliases aliases o)).
Proof.
  unfold remove_aliases. apply keys_kept_fold. intros a e k0.
  apply keys_kept_fold. intros a' i k1. apply keys_kept_unset.
Qed.

Lemma keys_kept_remove_camel_case o k :
  In k (keys o) -> In k (keys (remove_camel_case P o)).
Proof.
  unfold remove_camel_case. apply keys_kept_fold. intros a key k0 H.
  destruct (includes_dash key); [apply keys_kept_unset|]; exact H.
Qed.

Lemma keys_kept_clean_argv options aliases o k :
  In k (keys o) -> In k (keys (clean_argv P options aliases o)).
Proof.
  intros H. unfold clean_argv.
  assert (H1 : In k (keys (if removeAlias options
                           then remove_aliases aliases (clear_globals o)
                           else clear_globals o))).
  { destruct (removeAlias options);
      [apply keys_kept_remove_aliases|]; apply keys_kept_clear_globals, H. }
  destruct (removeCamelCase options); [apply keys_kept_remove_camel_case|]; exact H1.
Qed.

Lemma keys_kept_remove_exec_keys ex o k :
  In k (keys o) -> In k (keys (remove_exec_keys P ex o)).
Proof.
  unfold remove_exec_keys. apply keys_kept_fold. intros a key k0 H.
  apply keys_kept_unset, keys_kept_unset, H.
Qed.

Lemma argv_of_context options aliases parsed raw :
  argv (derive_context P options aliases parsed raw)
  = if opt_execArgv options
    then remove_exec_keys P
           (Helper.execArgvObj
              (extract_all P (process_env P) (clean_argv P options aliases parsed)))
           (clean_argv P options aliases parsed)
    else clean_argv P options aliases parsed.
Proof.
  unfold derive_context. destruct (opt_execArgv options); [|reflexivity].
  destruct (keys _); reflexivity.
Qed.

(** X5: with [removeAlias] on (the default), every name listed as an alias
    in the parser's alias table reads as [undefined] in the context's
    [argv], whatever value the parser gave it. *)
Theorem alias_keys_cleared
    (options : ParserOptions) (aliases : list (string * list string))
    (parsed : obj) (raw : loc) (key item : string) (items : list string) :
  removeAlias options = true ->
  In (key, items) aliases ->
  In item items ->
  get (argv (derive_context P options aliases parsed raw)) item = VUndefined.
Proof.
  intros Hopt He Hi. apply ContextFacts.cleared_get. rewrite argv_of_context.
  assert (Hc : cleared item (clean_argv P options aliases parsed)).
  { unfold clean_argv. rewrite Hopt.
    assert (H1 : cleared item (remove_aliases aliases (clear_globals parsed)))
      by (apply (cleared_alias_item aliases _ (key, items) item He Hi)).
    destruct (removeCamelCase options);
      [apply ContextFacts.cleared_remove_camel_case|]; exact H1. }
  destruct (opt_execArgv options);
    [apply ContextFacts.cleared_remove_exec_keys|]; exact Hc.
Qed.

(** X6: with [removeCamelCase] on, for every key of the parsed argv that
    contains a hyphen the camel-case form of the key reads as [undefined]
    in the context's [argv]. *)
Theorem camel_case_keys_cleared
    (options : ParserOptions) (aliases : list (string * list string))
    (parsed : obj) (raw : loc) (key : string) :
  removeCamelCase options = true ->
  In key (keys parsed) ->
  includes_dash key = true ->
  get (argv (derive_context P options aliases parsed raw)) (camel P key)
  = VUndefined.
Proof.
  intros Hopt Hk Hd. apply ContextFacts.cleared_get. rewrite argv_of_context.
  assert (Hc : cleared (camel P key) (clean_argv P options aliases parsed)).
  { unfold clean_argv. rewrite Hopt. unfold remove_camel_case.
    apply cleared_camel_fold; [|exact Hd].
    destruct (removeAlias options);
      [apply keys_kept_remove_aliases|]; apply keys_kept_clear_globals, Hk. }
  destruct (opt_execArgv options);
    [apply ContextFacts.cleared_remove_exec_keys|]; exact Hc.
Qed.

(** ** The derivation only clears *)

Lemma only_cleared_refl o : only_cleared_from o o.
Proof. split; auto. Qed.

Lemma only_cleared_unset parsed o j :
  only_cleared_from parsed o -> only_cleared_from parsed (unset j o).
Proof.
  intros [Hk Hv]. split.
  - intros k H. apply keys_kept_unset, Hk, H.
  - intros k. rewrite get_unset. destruct (String.eqb j k); [right; reflexivity|].
    apply Hv.
Qed.

Lemma only_cleared_clean_argv options aliases parsed :
  only_cleared_from parsed (clean_argv P options aliases parsed).
Proof.
  unfold clean_argv.
  assert (H0 : only_cleared_from parsed (clear_globals parsed)).
  { unfold clear_globals. repeat apply only_cleared_unset. apply only_cleared_refl. }
  assert (H1 : only_cleared_from parsed
                 (if removeAlias options
                  then remove_aliases aliases (clear_globals parsed)
                  else clear_globals parsed)).
  { destruct (removeAlias options); [|exact H0].
    unfold remove_aliases. apply ContextFacts.fold_left_keeps; [|exact H0].
    intros a e Ha. apply ContextFacts.fold_left_keeps; [|exact Ha].
    intros a' i Ha'. apply only_cleared_unset, Ha'. }
  destruct (removeCamelCase options); [|exact H1].
  unfold remove_camel_case. apply ContextFacts.fold_left_keeps; [|exact H1].
  intros a key Ha. destruct (includes_dash key); [apply only_cleared_unset|]; exact Ha.
Qed.

(** X7: deriving the context only ever clears properties of the parsed
    argv. Every key of the parsed argv is still a key of the context's
    [argv] (nothing is deleted), and every property reads either as the
    parser left it or as [undefined]: no value is invented or altered. *)
Theorem context_only_clears
    (options : ParserOptions) (aliases : list (string * list string))
    (parsed : obj) (raw : loc) :
  (forall k, In k (keys parsed) ->
     In k (keys (argv (derive_context P options aliases parsed raw))))
  /\ (forall k,
       get (argv (derive_context P options aliases parsed raw)) k = get parsed k
       \/ get (argv (derive_context P options aliases parsed raw)) k = VUndefined).
Proof.
  rewrite argv_of_context.
  pose proof (only_cleared_clean_argv options aliases parsed) as Hc.
  destruct (opt_execArgv options); [|exact Hc].
  unfold remove_exec_keys. apply (ContextFacts.fold_left_keeps
    (only_cleared_from parsed)); [|exact Hc].
  intros a key Ha. apply only_cleared_unset, only_cleared_unset, Ha.
Qed.

(** ** The optional fields *)

(** The four optional fields of the context, [execArgv],
    [execArgvObj], [debugOptions] and [debugPort], are present together or
    absent together; when present, [execArgvObj] has at least one key and
    exec-argv extraction is enabled. With extraction disabled they are
    absent whatever the argv holds. *)
Lemma exec_fields_come_together
    (options : ParserOptions) (aliases : list (string * list string))
    (parsed : obj) (raw : loc) :
  let ctx := derive_context P options aliases parsed raw in
  (execArgv ctx = None <-> execArgvObj ctx = None)
  /\ (debugOptions ctx = None <-> execArgvObj ctx = None)
  /\ (debugPort ctx = None <-> execArgvObj ctx = None)
  /\ (forall o, execArgvObj ctx = Some o ->
       keys o <> [] /\ opt_execArgv options = true
       /\ execArgv ctx = Some (unparseArgv P o))
  /\ (opt_execArgv options = false -> execArgvObj ctx = None).
Proof.
  unfold derive_context. destruct (opt_execArgv options).
  - destruct (keys (Helper.execArgvObj _)) eqn:E; cbn.
    + repeat split; auto; discriminate.
    + repeat split; try discriminate.
      * injection H as <-. rewrite E. discriminate.
      * injection H as <-. reflexivity.
  - cbn. repeat split; auto; discriminate.
Qed.

(** X8: when [$NODE_DEBUG_OPTION] is unset or empty, the exec-argv data of
    the context is that of the command argv alone: each flag found there is
    reported in [execArgvObj] with its value, the port is the one found in
    the argv, and the flag is cleared from the context's [argv]. *)
Theorem argv_alone_without_env
    (options : ParserOptions) (aliases : list (string * list string))
    (parsed : obj) (raw : loc) (k : string) (v : value) :
  opt_execArgv options = true ->
  (map_get "NODE_DEBUG_OPTION" (process_env P) = None
   \/ map_get "NODE_DEBUG_OPTION" (process_env P) = Some "") ->
  let fromArgv := Helper.extractExecArgv (clean_argv P options aliases parsed) in
  let ctx := derive_context P options aliases parsed raw in
  lookup k (Helper.execArgvObj fromArgv) = Some v ->
  execArgvObj ctx = Some (Helper.execArgvObj fromArgv)
  /\ debugOptions ctx = Some (Helper.debugOptions fromArgv)
  /\ debugPort ctx = Some (Helper.debugPort fromArgv)
  /\ get (argv ctx) k = VUndefined.
Proof.
  intros Hopt Henv fromArgv ctx Hk.
  assert (Hnone : NODE_DEBUG_OPTION (process_env P) = None).
  { unfold NODE_DEBUG_OPTION. destruct Henv as [-> | ->]; reflexivity. }
  destruct (ContextFacts.derive_context_exec P options aliases parsed raw Hopt)
    as [Hsome _].
  unfold extract_all in Hsome. rewrite Hnone in Hsome. fold fromArgv ctx in Hsome.
  destruct (Hsome (lookup_keys_nonempty _ _ _ Hk)) as (E1 & E2 & E3).
  split; [exact E1|]. split; [exact E2|]. split; [exact E3|].
  subst ctx. rewrite argv_of_context, Hopt.
  unfold extract_all. rewrite Hnone. fold fromArgv.
  apply ContextFacts.cleared_get.
  apply (cleared_exec_fold (keys (Helper.execArgvObj fromArgv))).
  eapply lookup_In_keys, Hk.
Qed.

(** The context is built once. The first read of [context] stores
    what it built in the instance; every later read returns that same
    context, also when the raw vector has been changed in between. *)
Lemma context_built_once (this : Instance) (st st' : State) :
  let first := context P this st in
  context P (snd first) st' = first
  /\ this_CONTEXT (snd first) = Some (fst first)
  /\ (this_CONTEXT this = None ->
      fst first
      = derive_context P (this_parserOptions this) (yargs_alias P (this_class this))
          (yargs_argv P (this_class this) (read st (this_rawArgv this)))
          (this_rawArgv this)).
Proof.
  unfold context. destruct (this_CONTEXT this) eqn:E; cbn.
  - rewrite E. repeat split. discriminate.
  - repeat split.
Qed.

End WithPlatform.

(** Witness for X4: [--inspect] goes to [execArgvObj] and leaves argv. *)
Lemma exec_keys_leave_argv_witness :
  get (argv (derive_context (Demo.platform []) default_parserOptions []
               (Demo.parse_tokens ["--inspect"; "--port=80"]) 0)) "inspect"
  = VUndefined.
Proof.
  destruct (exec_keys_leave_argv (Demo.platform []) default_parserOptions []
              (Demo.parse_tokens ["--inspect"; "--port=80"]) 0
              [("inspect", VBool true)] "inspect") as [H _].
  - reflexivity.
  - cbn. auto.
  - exact H.
Defined.

(** Witness for X5: [-b x] with [b] declared as an alias of [base]; the
    parser stores the value under both names, and the context keeps it
    under [base] only. *)
Lemma alias_keys_cleared_witness :
  get [("_", VArr []); ("b", VStr "x"); ("base", VStr "x")] "b" = VStr "x"
  /\ get (argv (derive_context (Demo.platform []) default_parserOptions
                  [("base", ["b"])]
                  [("_", VArr []); ("b", VStr "x"); ("base", VStr "x")] 0)) "b"
     = VUndefined
  /\ get (argv (derive_context (Demo.platform []) default_parserOptions
                  [("base", ["b"])]
                  [("_", VArr []); ("b", VStr "x"); ("base", VStr "x")] 0)) "base"
     = VStr "x".
Proof.
  split; [reflexivity|]. split; [|reflexivity].
  apply (alias_keys_cleared (Demo.platform []) default_parserOptions
           [("base", ["b"])]
           [("_", VArr []); ("b", VStr "x"); ("base", VStr "x")] 0 "base" "b" ["b"]).
  - reflexivity.
  - cbn. auto.
  - cbn. auto.
Defined.

(** Witness for X6: [--base-dir=x] with camel-case removal on. *)
Lemma camel_case_keys_cleared_witness :
  get (argv (derive_context (Demo.platform [])
               (mkParserOptions true true true) []
               [("_", VArr []); ("base-dir", VStr "x"); ("baseDir", VStr "x")] 0))
      "baseDir"
  = VUndefined.
Proof.
  apply (camel_case_keys_cleared (Demo.platform [])
           (mkParserOptions true true true) []
           [("_", VArr []); ("base-dir", VStr "x"); ("baseDir", VStr "x")] 0
           "base-dir").
  - reflexivity.
  - cbn. auto.
  - reflexivity.
Defined.

(** Witness for X8: [--debug-port=9229] and no environment override. *)
Lemma argv_alone_without_env_witness :
  debugPort (derive_context (Demo.platform []) default_parserOptions []
               (Demo.parse_tokens ["--debug-port=9229"; "app"]) 0)
  = Some (VNum 9229)
  /\ get (argv (derive_context (Demo.platform []) default_parserOptions []
                  (Demo.parse_tokens ["--debug-port=9229"; "app"]) 0))
         "debug-port"
     = VUndefined.
Proof.
  destruct (argv_alone_without_env (Demo.platform []) default_parserOptions []
              (Demo.parse_tokens ["--debug-port=9229"; "app"]) 0
              "debug-port" (VNum 9229)) as (_ & _ & H3 & H4).
  - reflexivity.
  - left. reflexivity.
  - reflexivity.
  - split; [exact H3 | exact H4].
Defined.

End ContextMore.

(* ===================================================================== *)
(** * Further properties of the registry *)
(* ===================================================================== *)

Module RegistryMore.
Import Js JsFacts Command.

Section WithPlatform.
Variable P : Platform.
Variable classes : ClassId -> Class.

Lemma map_get_set_some {V} k (v : V) m j :
  map_get j m <> None -> map_get j (map_set k v m) <> None.
Proof.
  intros H. rewrite map_get_set. destruct (String.eqb k j); [discriminate | exact H].
Qed.

Lemma map_get_set_inv {V} k (v : V) m j :
  map_get j (map_set k v m) <> None -> j = k \/ map_get j m <> None.
Proof.
  rewrite map_get_set. destruct (String.eqb_spec k j) as [->|Hne]; auto.
Qed.

(** What a successful [alias] has done. *)
Lemma alias_inr a n commands commands' :
  alias a n commands = inr commands' ->
  exists c, map_get n commands = Some c /\ commands' = map_set a c commands.
Proof.
  unfold alias. destruct (String.eqb a ""); [discriminate|].
  destruct (map_get n commands) as [c|]; [|discriminate].
  intros H. injection H as <-. eauto.
Qed.

(** What a successful [add] has done. *)
Lemma add_inr name target commands commands' :
  add P classes name target commands = inr commands' ->
  exists c,
    resolve P target = inr c
    /\ (commands' = map_set name c commands
        \/ exists a, class_alias (classes c) = Some a
                     /\ commands' = map_set a c (map_set name c commands)).
Proof.
  unfold add. destruct (String.eqb name ""); [discriminate|].
  destruct (resolve P target) as [e|c]; [discriminate|].
  intros H. exists c. split; [reflexivity|].
  destruct (class_alias (classes c)) as [a|] eqn:Ea.
  - destruct (String.eqb a "").
    + injection H as <-. left. reflexivity.
    + apply alias_inr in H as (c' & Hc' & ->).
      rewrite map_get_set, String.eqb_refl in Hc'. injection Hc' as <-.
      right. exists a. auto.
  - injection H as <-. left. reflexivity.
Qed.

Lemma register_grows r commands commands' :
  register P classes r commands = inr commands' ->
  (forall k, map_get k commands <> None -> map_get k commands' <> None)
  /\ match r with
     | Add name _ => map_get name commands' <> None
     | Alias a n => map_get a commands' <> None /\ map_get n commands' <> None
     end.
Proof.
  destruct r as [name target|a n]; cbn [register]; intros H.
  - apply add_inr in H as (c & _ & [-> | (a & _ & ->)]).
    + split; [intros k; apply map_get_set_some|].
      rewrite map_get_set, String.eqb_refl. discriminate.
    + split; [intros k Hk; apply map_get_set_some, map_get_set_some, Hk|].
      apply map_get_set_some. rewrite map_get_set, String.eqb_refl. discriminate.
  - apply alias_inr in H as (c & Hc & ->).
    split; [intros k; apply map_get_set_some|]. split.
    + rewrite map_get_set, String.eqb_refl. discriminate.
    + apply map_get_set_some. congruence.
Qed.

(** X9: registrations only add. After a constructor's registrations have
    all succeeded, every name that was registered before is still
    registered, every name given to [add] is registered, and for every
    [alias(a, n)] both [a] and its target [n] are registered: an alias is
    never left without its target. *)
Theorem registrations_accumulate
    (rs : list Registration) (commands commands' : Registry) :
  register_all P classes rs commands = inr commands' ->
  (forall k, map_get k commands <> None -> map_get k commands' <> None)
  /\ (forall name target, In (Add name target) rs -> map_get name commands' <> None)
  /\ (forall a n, In (Alias a n) rs ->
      map_get a commands' <> None /\ map_get n commands' <> None).
Proof.
  revert commands. induction rs as [|r rs IH]; intros commands H; cbn in H.
  - injection H as <-. repeat split; auto; intros; contradiction.
  - destruct (register P classes r commands) as [e|mid] eqn:Hr; [discriminate|].
    destruct (register_grows r commands mid Hr) as [Hkeep Hnew].
    destruct (IH mid H) as (Hk & Ha & Hal).
    split; [intros k Hin; apply Hk, Hkeep, Hin|]. split.
    + intros name target [->|Hin]; [apply Hk, Hnew | eapply Ha, Hin].
    + intros a n [->|Hin]; [|apply Hal, Hin].
      destruct Hnew. split; apply Hk; assumption.
Qed.

(** X10: an alias is a copy of the registration of its target, not a link
    to it. When the target name is registered again for another class,
    the name maps to the new class and the alias still maps to the class
    the name had when the alias was made. *)
Theorem alias_keeps_old_target
    (a n : string) (c c2 : ClassId) (commands r1 r2 : Registry) :
  map_get n commands = Some c ->
  alias a n commands = inr r1 ->
  add P classes n (TClass c2) r1 = inr r2 ->
  a <> n ->
  class_alias (classes c2) <> Some a ->
  map_get a r2 = Some c /\ map_get n r2 = Some c2.
Proof.
  intros Hn Hal Hadd Hne Hca.
  apply alias_inr in Hal as (c' & Hc' & ->).
  assert (c' = c) by congruence. subst c'.
  apply add_inr in Hadd as (c2' & Hres & Hshape).
  cbn in Hres. injection Hres as <-.
  assert (Hne' : String.eqb n a = false)
    by (apply String.eqb_neq; congruence).
  destruct Hshape as [-> | (a' & Ha' & ->)].
  - rewrite !map_get_set, String.eqb_refl, Hne', String.eqb_refl. auto.
  - assert (Hna : String.eqb a' a = false)
      by (apply String.eqb_neq; congruence).
    rewrite !map_get_set, Hna, Hne', !String.eqb_refl.
    split; [reflexivity|]. destruct (String.eqb a' n); reflexivity.
Qed.

(** ** Loading a directory *)

Lemma load_file_error F fullPath files e :
  fold_left (load_file P classes F fullPath) files (inl e) = inl e.
Proof. induction files as [|f files IH]; [reflexivity | exact IH]. Qed.

(** X11: [load] refuses a path that is not a directory. When it succeeds,
    every file of the directory whose extension is [.js] has its base name,
    without the final [.js], registered; every name registered before is
    still registered; and any other name that is registered afterwards is
    the alias declared by a command class. Files with another extension
    register nothing. *)
Theorem load_registers_js_files
    (F : Files) (fullPath : string) (commands commands' : Registry) :
  load P classes F fullPath commands = inr commands' ->
  fs_isDirectory F fullPath = true
  /\ (forall file, In file (fs_readdirSync F fullPath) ->
      path_extname F file = ".js" ->
      map_get (strip_js (path_basename F file)) commands' <> None)
  /\ (forall k, map_get k commands <> None -> map_get k commands' <> None)
  /\ (forall k, map_get k commands' <> None ->
      map_get k commands <> None
      \/ (exists file, In file (fs_readdirSync F fullPath)
                       /\ path_extname F file = ".js"
                       /\ k = strip_js (path_basename F file))
      \/ (exists c, class_alias (classes c) = Some k)).
Proof.
  unfold load. destruct (fs_isDirectory F fullPath); [|discriminate].
  intros H. split; [reflexivity|].
  revert commands H.
  induction (fs_readdirSync F fullPath) as [|f files IH]; intros commands H.
  - cbn in H. injection H as <-.
    split; [intros file []|]. split; auto.
  - cbn [fold_left load_file] in H.
    destruct (String.eqb (path_extname F f) ".js") eqn:Hext.
    + destruct (add P classes (strip_js (path_basename F f))
                  (TPath (path_join F fullPath f)) commands) as [e|mid] eqn:Hadd.
      { rewrite load_file_error in H. discriminate. }
      destruct (IH mid H) as (Hjs & Hkeep & Hnew).
      apply add_inr in Hadd as (c & _ & Hshape).
      assert (Hmid : map_get (strip_js (path_basename F f)) mid <> None
                     /\ (forall k, map_get k commands <> None -> map_get k mid <> None)
                     /\ (forall k, map_get k mid <> None ->
                         map_get k commands <> None
                         \/ k = strip_js (path_basename F f)
                         \/ class_alias (classes c) = Some k)).
      { destruct Hshape as [-> | (a & Ha & ->)].
        - split; [rewrite map_get_set, String.eqb_refl; discriminate|].
          split; [intros k; apply map_get_set_some|].
          intros k Hk. apply map_get_set_inv in Hk as [->|Hk]; auto.
        - split; [apply map_get_set_some; rewrite map_get_set, String.eqb_refl;
                  discriminate|].
          split; [intros k Hk; apply map_get_set_some, map_get_set_some, Hk|].
          intros k Hk. apply map_get_set_inv in Hk as [->|Hk]; [auto|].
          apply map_get_set_inv in Hk as [->|Hk]; auto. }
      destruct Hmid as (Hm1 & Hm2 & Hm3).
      split; [|split].
      * intros file [<-|Hin] He; [apply Hkeep, Hm1 | apply Hjs; assumption].
      * intros k Hk. apply Hkeep, Hm2, Hk.
      * intros k Hk. destruct (Hnew k Hk) as [Hk'|[(file & Hin & He & ->)|Hal]].
        -- destruct (Hm3 k Hk') as [H0|[->|H0]]; [auto| |eauto].
           right. left. exists f. split; [left; reflexivity|].
           split; [apply String.eqb_eq, Hext | reflexivity].
        -- right. left. exists file. split; [right; exact Hin | auto].
        -- auto.
    + destruct (IH commands H) as (Hjs & Hkeep & Hnew).
      split; [|split; [exact Hkeep|]].
      * intros file [<-|Hin] He; [|apply Hjs; assumption].
        rewrite He in Hext. discriminate.
      * intros k Hk. destruct (Hnew k Hk) as [Hk'|[(file & Hin & He & ->)|Hal]]; auto.
        right. left. exists file. split; [right; exact Hin | auto].
Qed.

End WithPlatform.

(** Witness for X9: the registrations of the example's main command. *)
Lemma registrations_accumulate_witness :
  map_get "d" [("deploy", 1); ("d", 1)] <> None
  /\ map_get "deploy" [("deploy", 1); ("d", 1)] <> None.
Proof.
  destruct (registrations_accumulate (Demo.platform []) Demo.classes
              [Add "deploy" (TClass 1); Alias "d" "deploy"] []
              [("deploy", 1); ("d", 1)] eq_refl) as (_ & _ & H).
  apply (H "d" "deploy"). cbn. auto.
Defined.

(** Witness for X10: [d] stays with class 1 when [deploy] is registered
    again for class 2. *)
Lemma alias_keeps_old_target_witness :
  map_get "d" [("deploy", 2); ("d", 1)] = Some 1
  /\ map_get "deploy" [("deploy", 2); ("d", 1)] = Some 2.
Proof.
  apply (alias_keeps_old_target (Demo.platform []) Demo.classes
           "d" "deploy" 1 2 [("deploy", 1)] [("deploy", 1); ("d", 1)]
           [("deploy", 2); ("d", 1)]);
    try reflexivity; discriminate.
Defined.

(** The scenario of the specification, with one source file: [build.js]
    is registered as [build], [README.md] is not. *)
Example load_cmd_directory :
  load (Demo.platform []) Demo.classes Demo.files "/cmd" [("deploy", 1)]
  = inr [("deploy", 1); ("build", 2)].
Proof. reflexivity. Qed.

(** Witness for X11. *)
Lemma load_registers_js_files_witness :
  map_get (strip_js "build.js") [("deploy", 1); ("build", 2)] <> None.
Proof.
  destruct (load_registers_js_files (Demo.platform []) Demo.classes Demo.files
              "/cmd" [("deploy", 1)] [("deploy", 1); ("build", 2)] eq_refl)
    as (_ & H & _).
  apply (H "build.js"); [cbn; auto | reflexivity].
Defined.

End RegistryMore.

(* ===================================================================== *)
(** * Further properties of dispatch *)
(* ===================================================================== *)

Module DispatchMore.
Import Js JsFacts Command DispatchFacts.

Section WithPlatform.
Variable P : Platform.
Variable classes : ClassId -> Class.

Abbreviation DISPATCH := (Command.DISPATCH P classes).
Abbreviation construct := (Command.construct P classes).

(** Each delegation hands down a vector that is one shorter. *)
Lemma DISPATCH_depth fuel : forall this st,
  positional_from_raw P ->
  exists r hs evs,
    DISPATCH fuel this st
      = (r, {| heap := heap st ++ hs; trace := trace st ++ evs |})
    /\ forall i a, hs !! i = Some a ->
         length a + i + 1 = length (read st (this_rawArgv this)).
Proof.
  induction fuel as [|fuel IH]; intros this st Hpos.
  - exists OutOfFuel, [], []. cbn. rewrite !app_nil_r, <- state_eta.
    split; [reflexivity|]. intros i a H. rewrite lookup_nil in H. discriminate.
  - destruct (yargs_parse P (this_class this) (read st (this_rawArgv this)))
      as [err|parsed] eqn:Hp.
    { exists (Throw err), [], []. rewrite !app_nil_r, <- state_eta.
      rewrite (DISPATCH_parse_error P classes fuel this st err Hp).
      split; [reflexivity|]. intros i a H. rewrite lookup_nil in H. discriminate. }
    destruct (version_requested parsed this) as [v|] eqn:Hv.
    { exists Done, [], [Print v]. rewrite !app_nil_r.
      rewrite (DISPATCH_version P classes fuel this st parsed v Hp Hv).
      split; [reflexivity|]. intros i a H. rewrite lookup_nil in H. discriminate. }
    destruct (find_command (first_positional parsed) (this_COMMANDS this))
      as [Command|] eqn:Hf.
    + rewrite (DISPATCH_subcommand P classes fuel this st parsed Command Hp Hv Hf).
      cbv zeta.
      destruct (first_positional parsed) as [| | | |name| |] eqn:Hn;
        try discriminate.
      pose proof (Hpos _ _ _ _ Hp Hn) as Hin.
      destruct (indexOf_first name _ Hin) as (before & after & Hraw & _ & Hidx).
      cbn [indexOf_value]. rewrite Hidx, Hraw, splice_one.
      assert (Hlen : length (before ++ after) + 1
                     = length (before ++ name :: after))
        by (rewrite !length_app; cbn [length]; lia).
      destruct (construct Command (length (heap st))) as [err|command] eqn:Hc.
      * exists (Throw err), [before ++ after], []. rewrite !app_nil_r.
        split; [reflexivity|]. intros [|i] a H; cbn in H; [|discriminate].
        injection H as <-. lia.
      * destruct (construct_fields P classes Command _ command Hc) as (Hl & _ & _).
        destruct (IH command
                    {| heap := heap st ++ [before ++ after]; trace := trace st |}
                    Hpos) as (r & hs & evs & E & Hd).
        rewrite Hl, read_fresh in Hd.
        exists r, ((before ++ after) :: hs), evs. rewrite E. cbn [heap trace].
        rewrite <- app_assoc. split; [reflexivity|].
        intros [|i] a H; cbn in H.
        -- injection H as <-. lia.
        -- specialize (Hd i a H). lia.
    + rewrite (DISPATCH_self P classes fuel this st parsed Hp Hv Hf). cbv zeta.
      destruct (truthy _).
      * eexists Done, [], [_]. rewrite !app_nil_r.
        split; [reflexivity|]. intros i a H. rewrite lookup_nil in H. discriminate.
      * destruct (class_run _ _) as [err|];
          [eexists (Throw err), [], [_] | eexists Done, [], [_]];
          rewrite !app_nil_r;
          (split; [reflexivity|]);
          intros i a H; rewrite lookup_nil in H; discriminate.
Qed.

(** X13: with a parser that takes its first positional token from the
    vector, the vectors handed down a chain of delegations shrink by one
    element each time: the i-th array allocated by a dispatch has length
    [n - i - 1], where [n] is the length of the raw vector. So a dispatch
    delegates at most [n] times, whatever the commands registered. *)
Theorem delegation_shortens_vector (fuel : nat) (this : Instance) (st : State) :
  positional_from_raw P ->
  exists r hs evs,
    DISPATCH fuel this st
      = (r, {| heap := heap st ++ hs; trace := trace st ++ evs |})
    /\ (forall i a, hs !! i = Some a ->
        length a + i + 1 = length (read st (this_rawArgv this)))
    /\ length hs <= length (read st (this_rawArgv this)).
Proof.
  intros Hpos.
  destruct (DISPATCH_depth fuel this st Hpos) as (r & hs & evs & E & Hd).
  exists r, hs, evs. split; [exact E|]. split; [exact Hd|].
  destruct hs as [|a0 hs] using rev_ind; [cbn; lia|].
  rewrite length_app. cbn [length].
  specialize (Hd (length hs) a0 (SupervisorFacts.lookup_last_added hs a0)). lia.
Qed.

End WithPlatform.

(** Witness for X13: [deploy --env=prod] delegates once, to a vector of
    length one. *)
Lemma delegation_shortens_vector_witness :
  exists r hs evs,
    Command.DISPATCH (Demo.platform []) Demo.classes 3 Demo.main
      (Demo.state_of ["deploy"; "--env=prod"])
    = (r, {| heap := [["deploy"; "--env=prod"]] ++ hs; trace := [] ++ evs |})
    /\ length hs <= 2.
Proof.
  destruct (delegation_shortens_vector (Demo.platform []) Demo.classes 3 Demo.main
              (Demo.state_of ["deploy"; "--env=prod"])
              (demo_positional_from_raw []))
    as (r & hs & evs & E & _ & H).
  exists r, hs, evs. split; [exact E | exact H].
Defined.

End DispatchMore.

(* ===================================================================== *)
(** * Further properties of the process supervisor *)
(* ===================================================================== *)

Module SupervisorMore.
Import Helper SupervisorFacts.

(** ** Promises settle once *)

Lemma continues_refl w : continues w w.
Proof. intros h c H. exists c, []. rewrite app_nil_r. auto. Qed.

Lemma continues_trans w1 w2 w3 :
  continues w1 w2 -> continues w2 w3 -> continues w1 w3.
Proof.
  intros H12 H23 h c Hc.
  destruct (H12 h c Hc) as (c2 & m1 & Hc2 & E1).
  destruct (H23 h c2 Hc2) as (c3 & m2 & Hc3 & E2).
  exists c3, (m1 ++ m2). split; [exact Hc3|]. rewrite E2, E1, app_assoc. reflexivity.
Qed.

Lemma continues_same w w' : children w' = children w -> continues w w'.
Proof. intros E h c H. exists c, []. rewrite E, app_nil_r. auto. Qed.

Lemma continues_launch w w' c0 :
  children w' = children w ++ [c0] -> continues w w'.
Proof.
  intros E h c H. exists c, []. rewrite E, app_nil_r. split; [|reflexivity].
  apply lookup_app_l_Some, H.
Qed.

Lemma continues_update w w' h0 c0 c1 more :
  children w !! h0 = Some c0 ->
  settle_calls c1 = settle_calls c0 ++ more ->
  children w' = <[h0 := c1]> (children w) ->
  continues w w'.
Proof.
  intros H0 Hs E h c H. rewrite E.
  destruct (decide (h0 = h)) as [<-|Hne].
  - exists c1, more. rewrite list_lookup_insert_eq by (eapply lookup_lt_Some, H0).
    split; [reflexivity|]. congruence.
  - exists c, []. rewrite list_lookup_insert_ne by exact Hne.
    rewrite app_nil_r. auto.
Qed.

Lemma process_exit_children code w : children (process_exit code w) = children w.
Proof. rewrite process_exit_world. destruct (exiting w); reflexivity. Qed.

Lemma receive_signal_children s w : children (receive_signal s w) = children w.
Proof.
  unfold receive_signal. destruct (existsb _ _); [|reflexivity].
  rewrite process_exit_children. reflexivity.
Qed.

(** The ['error'] event of a handle whose listener is attached. *)
Lemma child_error_listening h err w c :
  children w !! h = Some c -> once_error c = true ->
  child_error h err w =
  {| childs := childs w; hadHook := hadHook w; signal := signal w;
     process_once := process_once w;
     children := <[h := mkChild (launch c) (once_exit c) false
                          (settle_calls c ++ [Rejected (SystemError err)])]>
                   (children w);
     kills := kills w; deletions := deletions w; reported := reported w;
     exiting := exiting w; status := status w |}.
Proof.
  intros Hc Hl. unfold child_error. rewrite Hc, Hl.
  rewrite !on_child_world.
  cbn [childs hadHook signal process_once children kills deletions reported
       exiting status].
  rewrite Hc.
  rewrite list_lookup_insert_eq by (eapply lookup_lt_Some, Hc).
  rewrite list_insert_insert_eq. reflexivity.
Qed.

Lemma child_error_unhandled h err w c :
  children w !! h = Some c -> once_error c = false ->
  child_error h err w = process_exit 1 w.
Proof. intros Hc Hl. unfold child_error. rewrite Hc, Hl. reflexivity. Qed.

Lemma step_continues w i : continues w (step w i).
Proof.
  unfold step. destruct (status w); [|apply continues_refl..].
  destruct i as [modulePath args|cmd args|h code|h err|s|code].
  - eapply continues_launch. rewrite forkNode_world. reflexivity.
  - eapply continues_launch. rewrite spawn_world. reflexivity.
  - destruct (children w !! h) as [c|] eqn:Hc;
      [|rewrite child_exit_unknown by exact Hc; apply continues_refl].
    destruct (once_exit c) eqn:Hl.
    + rewrite (child_exit_listening h code w c Hc Hl).
      eapply (continues_update w _ h c); [exact Hc| |reflexivity]. reflexivity.
    + rewrite (child_exit_detached h code w c Hc Hl).
      apply continues_same. reflexivity.
  - destruct (children w !! h) as [c|] eqn:Hc.
    + destruct (once_error c) eqn:Hl.
      * rewrite (child_error_listening h err w c Hc Hl).
        eapply (continues_update w _ h c); [exact Hc| |reflexivity]. reflexivity.
      * rewrite (child_error_unhandled h err w c Hc Hl).
        apply continues_same, process_exit_children.
    + unfold child_error. rewrite Hc. apply continues_refl.
  - apply continues_same, receive_signal_children.
  - apply continues_same, process_exit_children.
Qed.

Lemma run_continues inputs : forall w, continues w (run inputs w).
Proof.
  unfold run. induction inputs as [|i inputs IH]; intros w; cbn [fold_left].
  - apply continues_refl.
  - eapply continues_trans; [apply step_continues | apply IH].
Qed.

Lemma settlement_continues w w' h s :
  continues w w' -> settlement h w = Some s -> settlement h w' = Some s.
Proof.
  unfold settlement, promise_state. intros Hc H.
  destruct (children w !! h) as [c|] eqn:E; [|discriminate].
  destruct (Hc h c E) as (c' & more & Hc' & Hs).
  unfold Handle in *. rewrite Hc', Hs.
  destruct (settle_calls c); [discriminate | exact H].
Qed.

(** X15: a promise settles once. When the promise of a launch is resolved
    or rejected, nothing that happens afterwards (more launches, exit or
    error events of any child, signals, the exit of the parent) changes
    that settlement. *)
Theorem settlement_is_final
    (inputs : list Input) (w : World) (h : Handle) (s : Settlement) :
  settlement h w = Some s -> settlement h (run inputs w) = Some s.
Proof. apply settlement_continues, run_continues. Qed.

(** Witness for X15: a spawn error, then an exit with status 0: the
    promise stays rejected with the error. *)
Lemma settlement_is_final_witness :
  settlement 0 (run [ChildExit 0 (Some 0%Z)]
                    (run [CallSpawn "nope" []; ChildError 0 "ENOENT"] init))
  = Some (Rejected (SystemError "ENOENT")).
Proof.
  apply (settlement_is_final [ChildExit 0 (Some 0%Z)]
           (run [CallSpawn "nope" []; ChildError 0 "ENOENT"] init) 0).
  reflexivity.
Defined.

(** ** More invariants of reachable worlds *)

Lemma init_tracked_inv : tracked_inv init.
Proof. intros h H. cbn in H. lia. Qed.

Lemma init_signal_inv : signal_inv init.
Proof. intros _. reflexivity. Qed.

Lemma init_promise_inv : promise_inv init.
Proof. intros h c H. cbn in H. rewrite lookup_nil in H. discriminate. Qed.

Lemma process_exit_fields code w :
  childs (process_exit code w) = childs w
  /\ reported (process_exit code w) = reported w
  /\ status (process_exit code w) = Exited code.
Proof. rewrite process_exit_world. destruct (exiting w); auto. Qed.

Lemma receive_signal_fields s w :
  childs (receive_signal s w) = childs w
  /\ reported (receive_signal s w) = reported w.
Proof.
  unfold receive_signal. destruct (existsb _ _); [|auto].
  destruct (process_exit_fields 0 (with_signal s
              (with_process_once (detach (is_signal_listener s) (process_once w)) w)))
    as (E1 & E2 & _).
  rewrite E1, E2. auto.
Qed.

Lemma same_tracked_inv w w' :
  tracked_inv w ->
  childs w' = childs w -> length (children w') = length (children w) ->
  reported w' = reported w ->
  tracked_inv w'.
Proof. intros H E1 E2 E3 h. rewrite E1, E2, E3. apply H. Qed.

Lemma launch_tracked_inv w w' c :
  tracked_inv w ->
  childs w' = set_add (length (children w)) (childs w) ->
  children w' = children w ++ [c] ->
  reported w' = reported w ->
  tracked_inv w'.
Proof.
  intros H E1 E2 E3 h. rewrite E1, E2, E3, length_app. cbn [length].
  intros Hlt Hnot. apply In_set_add.
  destruct (decide (h = length (children w))) as [->|Hne]; [left; reflexivity|].
  right. apply H; [lia | exact Hnot].
Qed.

Lemma step_tracked_inv w i : tracked_inv w -> tracked_inv (step w i).
Proof.
  intros H. unfold step. destruct (status w); [|exact H..].
  destruct i as [modulePath args|cmd args|h code|h err|s|code].
  - rewrite forkNode_world. eapply (launch_tracked_inv w); [exact H|reflexivity..].
  - rewrite spawn_world. eapply (launch_tracked_inv w); [exact H|reflexivity..].
  - destruct (children w !! h) as [c|] eqn:Hc;
      [|rewrite child_exit_unknown by exact Hc; exact H].
    destruct (once_exit c) eqn:Hl.
    + rewrite (child_exit_listening h code w c Hc Hl).
      intros k. cbn [childs children reported]. rewrite length_insert, in_app_iff.
      intros Hlt Hnot. apply In_set_delete. split.
      * apply H; [exact Hlt | tauto].
      * intros ->. apply Hnot. right. left. reflexivity.
    + rewrite (child_exit_detached h code w c Hc Hl).
      intros k. cbn [with_reported childs children reported]. rewrite in_app_iff.
      intros Hlt Hnot. apply H; [exact Hlt | tauto].
  - destruct (children w !! h) as [c|] eqn:Hc;
      [|unfold child_error; rewrite Hc; exact H].
    destruct (once_error c) eqn:Hl.
    + rewrite (child_error_listening h err w c Hc Hl).
      apply (same_tracked_inv w); [exact H|..]; try reflexivity.
      cbn [children]. apply length_insert.
    + rewrite (child_error_unhandled h err w c Hc Hl).
      destruct (process_exit_fields 1 w) as (E1 & E2 & _).
      apply (same_tracked_inv w); [exact H|..]; try assumption.
      rewrite process_exit_children. reflexivity.
  - destruct (receive_signal_fields s w) as (E1 & E2).
    apply (same_tracked_inv w); [exact H|..]; try assumption.
    rewrite receive_signal_children. reflexivity.
  - destruct (process_exit_fields code w) as (E1 & E2 & _).
    apply (same_tracked_inv w); [exact H|..]; try assumption.
    rewrite process_exit_children. reflexivity.
Qed.

Lemma run_tracked_inv inputs : forall w, tracked_inv w -> tracked_inv (run inputs w).
Proof.
  unfold run. induction inputs as [|i inputs IH]; intros w H; cbn [fold_left].
  - exact H.
  - apply IH, step_tracked_inv, H.
Qed.

Lemma step_signal_inv w i : signal_inv w -> signal_inv (step w i).
Proof.
  intros H. unfold step. destruct (status w) eqn:Hs; [|exact H..].
  specialize (H Hs).
  destruct i as [modulePath args|cmd args|h code|h err|s|code].
  - rewrite forkNode_world. intros _. exact H.
  - rewrite spawn_world. intros _. exact H.
  - destruct (children w !! h) as [c|] eqn:Hc;
      [|rewrite child_exit_unknown by exact Hc; intros _; exact H].
    destruct (once_exit c) eqn:Hl.
    + rewrite (child_exit_listening h code w c Hc Hl). intros _. exact H.
    + rewrite (child_exit_detached h code w c Hc Hl). intros _. exact H.
  - destruct (children w !! h) as [c|] eqn:Hc;
      [|unfold child_error; rewrite Hc; intros _; exact H].
    destruct (once_error c) eqn:Hl.
    + rewrite (child_error_listening h err w c Hc Hl). intros _. exact H.
    + rewrite (child_error_unhandled h err w c Hc Hl).
      intros E. rewrite process_exit_status in E. discriminate.
  - intros E. exfalso. eapply receive_signal_status, E.
  - intros E. rewrite process_exit_status in E. discriminate.
Qed.

Lemma run_signal_inv inputs : forall w, signal_inv w -> signal_inv (run inputs w).
Proof.
  unfold run. induction inputs as [|i inputs IH]; intros w H; cbn [fold_left].
  - exact H.
  - apply IH, step_signal_inv, H.
Qed.

Lemma same_promise_inv w w' :
  promise_inv w -> children w' = children w -> promise_inv w'.
Proof. intros H E h c. rewrite E. apply H. Qed.

Lemma launch_promise_inv w w' c0 :
  promise_inv w ->
  children w' = children w ++ [c0] ->
  match launch c0 with
  | Fork _ _ => once_error c0 = false
  | Spawn _ _ => once_error c0 = true
  end ->
  settle_calls c0 = [] ->
  promise_inv w'.
Proof.
  intros H E Hl Hs h c Hc Hexit. rewrite E in Hc.
  destruct (decide (h < length (children w))) as [Hlt|Hge].
  - rewrite lookup_app_l in Hc by exact Hlt. apply (H h c Hc Hexit).
  - rewrite lookup_app_r in Hc by lia.
    destruct (h - length (children w)) as [|k]; [|discriminate].
    injection Hc as <-. destruct (launch c0); auto.
Qed.

Lemma update_promise_inv w w' h0 c0 c1 :
  promise_inv w ->
  children w !! h0 = Some c0 ->
  children w' = <[h0 := c1]> (children w) ->
  (once_exit c1 = true ->
   match launch c1 with
   | Fork _ _ => once_error c1 = false /\ settle_calls c1 = []
   | Spawn _ _ =>
       (once_error c1 = true /\ settle_calls c1 = [])
       \/ (once_error c1 = false
           /\ exists err, settle_calls c1 = [Rejected (SystemError err)])
   end) ->
  promise_inv w'.
Proof.
  intros H H0 E H1 h c Hc Hexit. rewrite E in Hc.
  destruct (decide (h0 = h)) as [<-|Hne].
  - rewrite list_lookup_insert_eq in Hc by (eapply lookup_lt_Some, H0).
    injection Hc as <-. apply H1, Hexit.
  - rewrite list_lookup_insert_ne in Hc by exact Hne. apply (H h c Hc Hexit).
Qed.

Lemma step_promise_inv w i : promise_inv w -> promise_inv (step w i).
Proof.
  intros H. unfold step. destruct (status w); [|exact H..].
  destruct i as [modulePath args|cmd args|h code|h err|s|code].
  - rewrite forkNode_world.
    eapply (launch_promise_inv w); [exact H|reflexivity..].
  - rewrite spawn_world.
    eapply (launch_promise_inv w); [exact H|reflexivity..].
  - destruct (children w !! h) as [c|] eqn:Hc;
      [|rewrite child_exit_unknown by exact Hc; exact H].
    destruct (once_exit c) eqn:Hl.
    + rewrite (child_exit_listening h code w c Hc Hl).
      eapply (update_promise_inv w _ h c); [exact H|exact Hc|reflexivity|].
      cbn. discriminate.
    + rewrite (child_exit_detached h code w c Hc Hl).
      apply (same_promise_inv w); [exact H | reflexivity].
  - destruct (children w !! h) as [c|] eqn:Hc;
      [|unfold child_error; rewrite Hc; exact H].
    destruct (once_error c) eqn:Hl.
    + rewrite (child_error_listening h err w c Hc Hl).
      eapply (update_promise_inv w _ h c); [exact H|exact Hc|reflexivity|].
      cbn [once_exit launch once_error settle_calls]. intros Hexit.
      specialize (H h c Hc Hexit).
      destruct (launch c).
      * destruct H as [H _]. congruence.
      * destruct H as [[_ Hs]|[Hf _]]; [|congruence].
        right. split; [reflexivity|]. exists err. rewrite Hs. reflexivity.
    + rewrite (child_error_unhandled h err w c Hc Hl).
      apply (same_promise_inv w); [exact H | apply process_exit_children].
  - apply (same_promise_inv w); [exact H | apply receive_signal_children].
  - apply (same_promise_inv w); [exact H | apply process_exit_children].
Qed.

Lemma run_promise_inv inputs : forall w, promise_inv w -> promise_inv (run inputs w).
Proof.
  unfold run. induction inputs as [|i inputs IH]; intros w H; cbn [fold_left].
  - exact H.
  - apply IH, step_promise_inv, H.
Qed.

(** A launched handle that has not reported its exit still listens. *)
Lemma reachable_listening inputs h c :
  children (run inputs init) !! h = Some c ->
  ~ In h (reported (run inputs init)) ->
  once_exit c = true.
Proof.
  intros Hc Hnot.
  apply (inv_listening _ (run_registry_inv inputs init init_registry_inv) h c Hc).
  exact Hnot.
Qed.

Lemma nonzero_false code : nonzero code = false <-> code = Some 0%Z.
Proof.
  destruct code as [z|]; cbn; [|split; discriminate].
  rewrite negb_false_iff, Z.eqb_eq. split; congruence.
Qed.

Lemma settlement_after_exit h code w c :
  children w !! h = Some c -> once_exit c = true ->
  settlement h (child_exit h code w)
  = head (settle_calls c ++ [exit_settlement (launch c) code]).
Proof.
  intros Hc Hl. rewrite (child_exit_listening h code w c Hc Hl).
  unfold settlement, promise_state. cbn [children].
  unfold Handle in *.
  rewrite list_lookup_insert_eq by (eapply lookup_lt_Some, Hc). reflexivity.
Qed.

(** X16: the promise of [forkNode] follows the exit code. For a forked
    child that has not exited yet the promise is pending; its exit event
    settles it: resolved when the code is 0, and otherwise rejected with an
    error whose [code] property is the exit code ([null] when a signal
    ended the child) and whose message names the module, the arguments
    and the code. *)
Theorem fork_promise_follows_exit_code
    (inputs : list Input) (h : Handle) (c : Child)
    (modulePath : string) (args : list string) (code : ExitCode) :
  status (run inputs init) = Running ->
  children (run inputs init) !! h = Some c ->
  launch c = Fork modulePath args ->
  ~ In h (reported (run inputs init)) ->
  settlement h (run inputs init) = None
  /\ settlement h (step (run inputs init) (ChildExit h code))
     = Some (if nonzero code
             then Rejected (Error (modulePath ++ " " ++ Js.join "," args
                                     ++ " exit with code " ++ show_code code)
                                  (Some code))
             else Resolved)
  /\ (settlement h (step (run inputs init) (ChildExit h code)) = Some Resolved
      <-> code = Some 0%Z).
Proof.
  intros Hs Hc Hl Hnot.
  pose proof (reachable_listening inputs h c Hc Hnot) as Hexit.
  pose proof (run_promise_inv inputs init init_promise_inv h c Hc Hexit) as Hp.
  rewrite Hl in Hp. destruct Hp as [_ Hcalls].
  assert (Hafter : settlement h (step (run inputs init) (ChildExit h code))
                   = Some (exit_settlement (Fork modulePath args) code)).
  { unfold step. rewrite Hs.
    rewrite (settlement_after_exit h code _ c Hc Hexit), Hcalls, Hl. reflexivity. }
  split; [|split].
  - unfold settlement, promise_state. unfold Handle in *. rewrite Hc, Hcalls.
    reflexivity.
  - rewrite Hafter. reflexivity.
  - rewrite Hafter. cbn [exit_settlement]. rewrite <- nonzero_false.
    destruct (nonzero code); split; try discriminate; reflexivity.
Qed.

(** X17: the promise of [spawn]. While the ['error'] listener of a spawned
    child is attached, the promise is pending and the exit event settles
    it: resolved when the code is 0, otherwise rejected with an error whose
    message ends with the code. An ['error'] event rejects the promise with
    the system error and leaves the handle in the registry; the exit event
    that follows, even with code 0, does not change the rejection. *)
Theorem spawn_promise_follows_exit_or_error
    (inputs : list Input) (h : Handle) (c : Child)
    (cmd : string) (args : list string) (code : ExitCode) (err : string) :
  status (run inputs init) = Running ->
  children (run inputs init) !! h = Some c ->
  launch c = Spawn cmd args ->
  ~ In h (reported (run inputs init)) ->
  once_error c = true ->
  let w := run inputs init in
  settlement h w = None
  /\ settlement h (step w (ChildExit h code))
     = Some (if nonzero code
             then Rejected (Error ("spawn " ++ cmd ++ " " ++ Js.join " " args
                                     ++ " fail, exit code: " ++ show_code code)
                                  None)
             else Resolved)
  /\ settlement h (step w (ChildError h err)) = Some (Rejected (SystemError err))
  /\ In h (childs (step w (ChildError h err)))
  /\ settlement h (step (step w (ChildError h err)) (ChildExit h code))
     = Some (Rejected (SystemError err))
  /\ ~ In h (childs (step (step w (ChildError h err)) (ChildExit h code))).
Proof.
  intros Hs Hc Hl Hnot Herr w. subst w.
  pose proof (reachable_listening inputs h c Hc Hnot) as Hexit.
  pose proof (run_promise_inv inputs init init_promise_inv h c Hc Hexit) as Hp.
  rewrite Hl in Hp. destruct Hp as [[_ Hcalls]|[Hf _]]; [|congruence].
  pose proof (run_tracked_inv inputs init init_tracked_inv h
                (lookup_lt_Some _ _ _ Hc) Hnot) as Hin.
  split.
  { unfold settlement, promise_state. unfold Handle in *. rewrite Hc, Hcalls.
    reflexivity. }
  split.
  { unfold step. rewrite Hs.
    rewrite (settlement_after_exit h code _ c Hc Hexit), Hcalls, Hl. reflexivity. }
  assert (Hstep : step (run inputs init) (ChildError h err)
                  = child_error h err (run inputs init))
    by (unfold step; rewrite Hs; reflexivity).
  rewrite Hstep, (child_error_listening h err _ c Hc Herr).
  set (c1 := mkChild (launch c) (once_exit c) false
               (settle_calls c ++ [Rejected (SystemError err)])).
  set (w1 := mkWorld _ _ _ _ _ _ _ _ _ _).
  assert (Hc1 : children w1 !! h = Some c1).
  { subst w1. cbn [children]. unfold Handle in *.
    apply list_lookup_insert_eq. eapply lookup_lt_Some, Hc. }
  assert (Hset : settlement h w1 = Some (Rejected (SystemError err))).
  { unfold settlement, promise_state. unfold Handle in *. rewrite Hc1.
    subst c1. cbn [settle_calls]. rewrite Hcalls. reflexivity. }
  split; [exact Hset|]. split; [exact Hin|].
  assert (Hstep2 : step w1 (ChildExit h code) = child_exit h code w1).
  { unfold step. subst w1. cbn [status]. rewrite Hs. reflexivity. }
  rewrite Hstep2. split.
  - rewrite (settlement_after_exit h code w1 c1 Hc1 Hexit).
    subst c1. cbn [settle_calls]. rewrite Hcalls. reflexivity.
  - rewrite (child_exit_listening h code w1 c1 Hc1 Hexit). cbn [childs].
    rewrite In_set_delete. tauto.
Qed.

(** X18: the registry holds exactly the children that were launched and
    have not reported their exit: none of them is missing, and there is
    nothing else in it. *)
Theorem registry_is_live_children (inputs : list Input) (h : Handle) :
  In h (childs (run inputs init))
  <-> h < length (children (run inputs init))
      /\ ~ In h (reported (run inputs init)).
Proof.
  split.
  - apply (inv_registered _ (run_registry_inv inputs init init_registry_inv)).
  - intros [Hlt Hnot].
    apply (run_tracked_inv inputs init init_tracked_inv h Hlt Hnot).
Qed.

(** X19: when the parent exits without having received a signal, its
    ['exit'] listener still kills every registered child, once each, with
    an [undefined] signal; after that nothing more happens. *)
Theorem exit_without_signal_kills_children
    (inputs : list Input) (code : Z) (i : Input) :
  status (run inputs init) = Running ->
  let w := run inputs init in
  let w' := step w (ParentExit code) in
  kills w' = map (fun child => (child, None)) (childs w)
  /\ status w' = Exited code
  /\ step w' i = w'.
Proof.
  intros Hs w w'.
  pose proof (run_hooks_inv inputs init init_hooks_inv) as [Hrun Hhook Hun].
  pose proof (run_signal_inv inputs init init_signal_inv Hs) as Hsig.
  fold w in Hrun, Hhook, Hun, Hsig, Hs.
  destruct (Hrun Hs) as [Hex Hk].
  assert (Hw' : w' = process_exit code w)
    by (subst w'; unfold step; rewrite Hs; reflexivity).
  assert (Hst : status w' = Exited code)
    by (rewrite Hw'; apply process_exit_status).
  split; [|split; [exact Hst|]].
  - rewrite Hw', process_exit_world, Hex. cbn [kills].
    destruct (hadHook w) eqn:E.
    + rewrite (Hhook Hs eq_refl). cbn. unfold reap, with_kills. cbn [kills].
      rewrite Hk, Hsig. reflexivity.
    + destruct (Hun eq_refl) as (Hp & Hc & _). rewrite Hp, Hc. cbn. exact Hk.
  - unfold step. rewrite Hst. reflexivity.
Qed.

(** Witness for X19. *)
Lemma exit_without_signal_kills_children_witness :
  kills (step (run [CallFork "job.js" []; CallSpawn "ls" []] init) (ParentExit 0))
  = [(0, None); (1, None)].
Proof.
  destruct (exit_without_signal_kills_children
              [CallFork "job.js" []; CallSpawn "ls" []] 0%Z (Receive SIGINT) eq_refl)
    as (H & _).
  exact H.
Defined.

(** Witness for X16. *)
Lemma fork_promise_follows_exit_code_witness :
  settlement 0 (step (run [CallFork "job.js" ["x"]] init) (ChildExit 0 (Some 3%Z)))
  = Some (Rejected (Error "job.js x exit with code 3" (Some (Some 3%Z)))).
Proof.
  destruct (fork_promise_follows_exit_code [CallFork "job.js" ["x"]] 0
              (mkChild (Fork "job.js" ["x"]) true false []) "job.js" ["x"]
              (Some 3%Z)) as (_ & H & _).
  - reflexivity.
  - reflexivity.
  - reflexivity.
  - cbn. tauto.
  - exact H.
Defined.

(** Witness for X17. *)
Lemma spawn_promise_follows_exit_or_error_witness :
  settlement 0 (step (run [CallSpawn "ls" ["-l"]] init) (ChildExit 0 (Some 0%Z)))
  = Some Resolved.
Proof.
  destruct (spawn_promise_follows_exit_or_error [CallSpawn "ls" ["-l"]] 0
              (mkChild (Spawn "ls" ["-l"]) true true []) "ls" ["-l"]
              (Some 0%Z) "ENOENT") as (_ & H & _).
  - reflexivity.
  - reflexivity.
  - reflexivity.
  - cbn. tauto.
  - reflexivity.
  - exact H.
Defined.

End SupervisorMore.
(* ===================================================================== *)
(** * Registry URLs and [installToolkit] *)
(* ===================================================================== *)

Module InstallMore.
Import Helper SupervisorFacts SupervisorMore.

Lemma strip_slash_final (u : string) : strip_slash (u ++ "/") = u.
Proof.
  induction u as [|c u IH]; [reflexivity|].
  change ((String c u ++ "/")%string) with (String c (u ++ "/")).
  cbn [strip_slash]. rewrite IH.
  replace (String.eqb (String c (u ++ "/")) "/") with false; [reflexivity|].
  cbn [String.eqb]. destruct (Ascii.eqb c "/"); [|reflexivity].
  destruct u; reflexivity.
Qed.

Lemma prefix_cons a p u :
  String.prefix (String a p) u = true ->
  exists u', u = String a u' /\ String.prefix p u' = true.
Proof.
  destruct u as [|b u]; cbn; [discriminate|].
  destruct (ascii_dec a b) as [->|]; [|discriminate].
  intros H. exists u. auto.
Qed.

Lemma prefix_app p : forall u x,
  String.prefix p u = true -> String.prefix p (u ++ x) = true.
Proof.
  induction p as [|a p IH]; intros u x H; [destruct (u ++ x)%string; reflexivity|].
  destruct (prefix_cons a p u H) as (u' & -> & H').
  change ((String a u' ++ x)%string) with (String a (u' ++ x)).
  cbn [String.prefix]. destruct (ascii_dec a a); [|congruence]. apply IH, H'.
Qed.

Lemma is_http_app u x : is_http u = true -> is_http (u ++ x) = true.
Proof.
  unfold is_http. rewrite !orb_true_iff.
  intros [H|H]; [left|right]; apply prefix_app, H.
Qed.

Lemma is_http_http u :
  is_http u = true -> exists rest, u = String "h" (String "t" rest).
Proof.
  unfold is_http. rewrite orb_true_iff. intros [H|H];
    apply prefix_cons in H; destruct H as (u1 & -> & H);
    apply prefix_cons in H; destruct H as (u2 & -> & H); eauto.
Qed.

(** A URL is none of the short names. *)
Lemma getRegistryByType_url H k :
  is_http k = true -> getRegistryByType H (Some k) = strip_slash k.
Proof.
  intros Hk. unfold getRegistryByType. rewrite Hk.
  destruct (is_http_http k Hk) as (rest & ->). reflexivity.
Qed.

(** X20: a key that is a URL ([http:] or [https:]) is answered without
    consulting the environment, the home directory or the file system, and
    one final slash is removed from it. *)
Theorem url_key_loses_final_slash (H H' : Host) (u : string) :
  is_http u = true ->
  getRegistryByType H (Some (u ++ "/")%string) = u
  /\ getRegistryByType H (Some u) = getRegistryByType H' (Some u).
Proof.
  intros Hu. split.
  - rewrite getRegistryByType_url by (apply is_http_app, Hu).
    apply strip_slash_final.
  - rewrite !getRegistryByType_url by exact Hu. reflexivity.
Qed.

(** Witness for X20. *)
Lemma url_key_loses_final_slash_witness :
  getRegistryByType (mkHost (fun _ => None) "/home/u" String.append (fun _ => true))
                    (Some "https://r.example.org/")
  = "https://r.example.org".
Proof.
  destruct (url_key_loses_final_slash
              (mkHost (fun _ => None) "/home/u" String.append (fun _ => true))
              (mkHost (fun _ => None) "/home/u" String.append (fun _ => true))
              "https://r.example.org" eq_refl) as [E _].
  exact E.
Defined.

Lemma installToolkit_spawn H pkgName args w :
  installToolkit H pkgName args w
  = spawn "npm" (["install"; pkgName] ++ args
                   ++ ["--registry"; "http://r.tnpm.oa.com"]) w.
Proof.
  unfold installToolkit. cbn [getRegistryByType String.eqb Ascii.eqb Bool.eqb].
  reflexivity.
Qed.

Lemma installToolkit_promise_rejected h w e :
  settlement h w = Some (Rejected e) -> installToolkit_promise h w = None.
Proof. unfold installToolkit_promise. intros ->. reflexivity. Qed.

(** X21: [installToolkit] runs [npm install <pkg> <args> --registry
    http://r.tnpm.oa.com] whatever the host, and its promise settles only on
    success: it is resolved when npm exits with code 0, and it stays
    pending for ever when npm exits with another code or cannot be
    started, whatever happens afterwards. *)
Theorem installToolkit_settles_only_on_success
    (H : Host) (pkgName : string) (args : list string) (w : World)
    (code : ExitCode) (err : string) (more : list Input) :
  status w = Running ->
  let h := fst (installToolkit H pkgName args w) in
  let w1 := snd (installToolkit H pkgName args w) in
  option_map launch (children w1 !! h)
  = Some (Spawn "npm" (["install"; pkgName] ++ args
                         ++ ["--registry"; "http://r.tnpm.oa.com"]))
  /\ installToolkit_promise h w1 = None
  /\ installToolkit_promise h (run more (step w1 (ChildExit h code)))
     = (if nonzero code then None else Some Resolved)
  /\ installToolkit_promise h (run more (step w1 (ChildError h err))) = None.
Proof.
  intros Hs h w1. subst h w1. rewrite installToolkit_spawn.
  set (l := ["install"; pkgName] ++ args ++ ["--registry"; "http://r.tnpm.oa.com"]).
  change (fst (spawn "npm" l w)) with (length (children w)).
  set (h := length (children w)).
  set (c := mkChild (Spawn "npm" l) true true []).
  assert (Hc : children (snd (spawn "npm" l w)) !! h = Some c).
  { rewrite spawn_world. cbn [children]. apply lookup_last_added. }
  assert (Hst : status (snd (spawn "npm" l w)) = Running).
  { rewrite spawn_world. exact Hs. }
  set (w1 := snd (spawn "npm" l w)) in *.
  split; [|split; [|split]].
  - unfold Handle in *. rewrite Hc. reflexivity.
  - unfold installToolkit_promise, settlement. unfold Handle in *.
    rewrite Hc. reflexivity.
  - assert (E : settlement h (step w1 (ChildExit h code))
                = Some (exit_settlement (Spawn "npm" l) code)).
    { unfold step. rewrite Hst.
      rewrite (settlement_after_exit h code w1 c Hc eq_refl). reflexivity. }
    apply (settlement_continues _ (run more (step w1 (ChildExit h code)))) in E;
      [|apply run_continues].
    unfold installToolkit_promise. rewrite E. cbn [exit_settlement].
    destruct (nonzero code); reflexivity.
  - apply (installToolkit_promise_rejected _ _ (SystemError err)).
    apply settlement_continues with (w := step w1 (ChildError h err));
      [apply run_continues|].
    unfold step. rewrite Hst.
    rewrite (child_error_listening h err w1 c Hc eq_refl).
    unfold settlement, promise_state. cbn [children]. unfold Handle in *.
    rewrite list_lookup_insert_eq by (eapply lookup_lt_Some, Hc). reflexivity.
Qed.

(** Witness for X21. *)
Lemma installToolkit_settles_only_on_success_witness :
  installToolkit_promise 0
    (run [ParentExit 0]
       (step (snd (installToolkit
                     (mkHost (fun _ => None) "/home/u" String.append (fun _ => false))
                     "toolkit" ["-g"] init))
             (ChildExit 0 (Some 1%Z))))
  = None.
Proof.
  destruct (installToolkit_settles_only_on_success
              (mkHost (fun _ => None) "/home/u" String.append (fun _ => false))
              "toolkit" ["-g"] init (Some 1%Z) "ENOENT" [ParentExit 0%Z] eq_refl)
    as (_ & _ & E & _).
  exact E.
Defined.

(** X22: [gracefull] hooks once. The first call registers the listeners
    of [SIGINT], [SIGQUIT], [SIGTERM] and ['exit']; any later call, for the
    same handle or another one, leaves the listeners of the parent as they
    are, and a second call for the same handle changes nothing at all. *)
Theorem gracefull_hooks_once (proc other : Handle) (w : World) :
  hadHook (gracefull proc w) = true
  /\ process_once (gracefull other (gracefull proc w))
     = process_once (gracefull proc w)
  /\ gracefull proc (gracefull proc w) = gracefull proc w.
Proof.
  assert (Hh : hadHook (gracefull proc w) = true).
  { unfold gracefull. cbn. destruct (hadHook w) eqn:E; [exact E | reflexivity]. }
  split; [exact Hh|]. split.
  - unfold gracefull at 1. cbn [with_childs hadHook]. rewrite Hh. reflexivity.
  - unfold gracefull at 1. cbn [with_childs hadHook]. rewrite Hh.
    assert (Hin : In proc (childs (gracefull proc w))).
    { unfold gracefull. cbn [with_childs hadHook].
      destruct (hadHook w); cbn [childs with_hook with_childs];
        apply In_set_add; left; reflexivity. }
    unfold with_childs.
    replace (set_add proc (childs (gracefull proc w)))
      with (childs (gracefull proc w)); [destruct (gracefull proc w); reflexivity|].
    unfold set_add.
    replace (existsb (Nat.eqb proc) (childs (gracefull proc w))) with true;
      [reflexivity|].
    symmetry. apply existsb_exists. exists proc. split; [exact Hin|].
    apply Nat.eqb_refl.
Qed.

End InstallMore.
(* ===================================================================== *)
(** * The webpack runner: options and settlement *)
(* ===================================================================== *)

Module WebpackMore.
Import Js JsFacts Webpack.

Lemma get_assign target source k :
  NoDup (keys source) ->
  get (assign target source) k
  = match lookup k source with Some v => v | None => get target k end.
Proof.
  intros H. unfold get. rewrite lookup_assign by exact H.
  destruct (lookup k source); reflexivity.
Qed.

Lemma object_or_empty_non_object v : is_object v = false -> object_or_empty v = [].
Proof. unfold object_or_empty. intros ->. reflexivity. Qed.

(** The properties that [opts.stats] takes its values from. *)
Lemma stats_source _opts :
  NoDup (keys (object_or_empty _opts)) ->
  object_or_empty (get (assign default_opts (object_or_empty _opts)) "stats")
  = object_or_empty (get (object_or_empty _opts) "stats").
Proof.
  intros H. rewrite get_assign by exact H. unfold get at 2.
  destruct (lookup "stats" (object_or_empty _opts)); reflexivity.
Qed.

(** X23: the options of a run. [opts.stats] is always an object; each of
    its properties has the value given in the [stats] object of the caller
    and, when the caller gave none, the default ([colors] and
    [errorDetails] true, [modules] and [chunkModules] false). A [stats]
    option that is not an object, such as a preset name or [false], is
    dropped and the defaults are used. [opts.log] is true unless the caller
    gave a [log] property. *)
Theorem stats_options_keep_defaults (_opts : value) (k : string) :
  NoDup (keys (object_or_empty _opts)) ->
  NoDup (keys (object_or_empty (get (object_or_empty _opts) "stats"))) ->
  exists so,
    get (opts _opts) "stats" = VObj so
    /\ lookup k so
       = match lookup k (object_or_empty (get (object_or_empty _opts) "stats")) with
         | Some v => Some v
         | None => lookup k default_stats
         end
    /\ (is_object (get (object_or_empty _opts) "stats") = false -> so = default_stats)
    /\ get (opts _opts) "log"
       = match lookup "log" (object_or_empty _opts) with
         | Some v => v
         | None => VBool true
         end.
Proof.
  intros Hu Hs. unfold opts. rewrite stats_source by exact Hu.
  eexists. split; [apply get_set_eq|]. split; [|split].
  - apply lookup_assign, Hs.
  - intros E. rewrite (object_or_empty_non_object _ E). reflexivity.
  - rewrite get_set_ne by discriminate. rewrite get_assign by exact Hu.
    reflexivity.
Qed.

(** Witness for X23: a preset name for [stats] is replaced by the
    defaults. *)
Lemma stats_options_keep_defaults_witness :
  get (opts (VObj [("stats", VStr "errors-only")])) "stats" = VObj default_stats.
Proof.
  destruct (stats_options_keep_defaults (VObj [("stats", VStr "errors-only")]) "colors")
    as (so & E & _ & D & _).
  - apply NoDup_singleton.
  - apply NoDup_nil_2.
  - rewrite E, D; reflexivity.
Defined.

(** X24: how the runner settles. It resolves with the stats exactly when
    webpack reports no [err] and the compilation has no errors; warnings do
    not matter. When it rejects, the error is a [WebpackError] that carries
    the [err] and the [stats] it was given; its message is
    ['WebpackRuntimeError'] exactly when [err] is truthy and
    ['WebpackCompilationError'] otherwise; the message
    ['UnknowWebpackError'] is never produced. Without [err] and without
    [stats] the callback throws and the promise is left pending. *)
Theorem runner_settlement (_opts err : value) (stats : option Stats) :
  match snd (runner _opts err stats) with
  | inr (Resolve s) => truthy err = false /\ stats = Some s /\ hasErrors s = false
  | inr (Reject e) =>
      (truthy err = true \/ exists s, stats = Some s /\ hasErrors s = true)
      /\ message e = (if truthy err then "WebpackRuntimeError"
                      else "WebpackCompilationError")
      /\ message e <> "UnknowWebpackError"
      /\ name e = "WebpackError"
      /\ Webpack.err e = err /\ Webpack.stats e = stats
  | inl TypeError => truthy err = false /\ stats = None
  end.
Proof.
  unfold runner, callback, new_WebpackError. cbn [snd].
  destruct (truthy err) eqn:Et.
  - cbn. repeat split; try discriminate; auto.
  - destruct stats as [s|]; [|auto].
    destruct (hasErrors s) eqn:Eh; cbn [orb]; [|auto].
    cbn. repeat split; try discriminate; eauto.
Qed.

End WebpackMore.
(* ===================================================================== *)
(** * [convertObject]: what a dump contains *)
(* ===================================================================== *)

Module DumpMore.
Import Dump.

(** [convertValue] on a plain object is [convertObject] on its
    properties. *)
Lemma convertValue_Plain key fields ignore :
  convertValue key (Plain fields) ignore = Plain (convertObject fields (Many ignore)).
Proof.
  cbn [convertValue unhit]. destruct (existsb (hits key) ignore); f_equal;
    unfold convertObject; cbn [as_array];
    induction fields as [|[k v] rest IH]; cbn [map fst snd]; congruence.
Qed.

Lemma plain_data_Plain fields :
  plain_data (Plain fields) = forallb (fun kv => plain_data (snd kv)) fields.
Proof.
  cbn [plain_data]. induction fields as [|[k v] rest IH]; cbn [forallb snd];
    congruence.
Qed.

(** Induction on values, through the properties of plain objects. *)
Lemma value_induction (P : value -> Prop) :
  (forall v, (forall fields, v <> Plain fields) -> P v) ->
  (forall fields, Forall (fun kv => P (snd kv)) fields -> P (Plain fields)) ->
  forall v, P v.
Proof.
  intros Hleaf Hplain. fix IH 1. intros v.
  destruct v as [| | | | | | | |fields| | |];
    try (apply Hleaf; intros fields'; discriminate).
  apply Hplain. induction fields as [|[k v] rest IHl]; constructor.
  - apply IH.
  - exact IHl.
Qed.

Lemma convertValue_plain_data ignore : forall v key,
  plain_data (convertValue key v ignore) = true.
Proof.
  induction v as [v Hv|fields IH] using value_induction; intros key.
  - destruct v; try reflexivity;
      try (cbn [convertValue unhit]; destruct (existsb (hits key) ignore);
           reflexivity).
    + exfalso. eapply Hv. reflexivity.
    + cbn [convertValue unhit]. destruct (existsb (hits key) ignore);
        unfold describe, constructor_name;
        (destruct (String.eqb typeName ""); [reflexivity|]);
        destruct buffer; reflexivity.
  - rewrite convertValue_Plain, plain_data_Plain. unfold convertObject.
    rewrite forallb_forall. intros [k v] Hin. apply in_map_iff in Hin.
    destruct Hin as ([k0 v0] & [= <- <-] & Hin). cbn [fst snd].
    rewrite Forall_forall in IH. apply (IH (k0, v0)).
    apply list_elem_of_In, Hin.
Qed.

Lemma plain_data_fixed : forall v key,
  plain_data v = true -> convertValue key v [] = v.
Proof.
  induction v as [v Hv|fields IH] using value_induction; intros key H.
  - destruct v; try reflexivity; try discriminate.
    exfalso. eapply Hv. reflexivity.
  - rewrite convertValue_Plain. f_equal. rewrite plain_data_Plain in H.
    unfold convertObject. cbn [as_array].
    induction fields as [|[k v] rest IHl]; [reflexivity|].
    cbn [forallb snd] in H. apply andb_prop in H as [H1 H2].
    apply Forall_cons in IH as [IHv IHrest]. cbn [map fst snd] in IHv |- *.
    rewrite (IHv k H1). f_equal. apply IHl; assumption.
Qed.

(** X25: whatever the [ignore] list, [convertObject] leaves only data in
    an object: [undefined], [null], booleans, numbers, strings, arrays
    (which it does not look into) and plain objects of such values. No
    function, class, symbol, regular expression or instance of a class
    remains outside an array. *)
Theorem convertObject_leaves_data (obj : list (string * value)) (ignore : Ignore) :
  forallb (fun kv => plain_data (snd kv)) (convertObject obj ignore) = true.
Proof.
  rewrite forallb_forall. intros [k v] Hin. unfold convertObject in Hin.
  apply in_map_iff in Hin. destruct Hin as ([k0 v0] & [= <- <-] & _).
  apply convertValue_plain_data.
Qed.

(** X26: with the empty [ignore] list, as [dumpConfig] calls it,
    [convertObject] is idempotent: converting an object that has been
    converted changes nothing. *)
Theorem convertObject_idempotent (obj : list (string * value)) :
  convertObject (convertObject obj (Many [])) (Many []) = convertObject obj (Many []).
Proof.
  unfold convertObject. cbn [as_array]. rewrite map_map. apply map_ext.
  intros [k v]. cbn [fst snd]. f_equal.
  apply plain_data_fixed, convertValue_plain_data.
Qed.

Lemma In_convertObject obj ignore k v :
  In (k, v) obj -> In (k, convertValue k v (as_array ignore)) (convertObject obj ignore).
Proof.
  intros H. unfold convertObject. apply in_map_iff. exists (k, v). auto.
Qed.

(** X27: an ignored key masks a value but not a plain object. A string
    under a key of the [ignore] list is replaced by its length, counted in
    UTF-16 code units as [value.length] counts it; a plain
    object under such a key is converted like any other, so that a string
    in it, under a key that is not ignored, is kept as it is. *)
Theorem ignore_masks_values_not_objects
    (obj : list (string * value)) (ignore : Ignore)
    (key k secret : string) (fields : list (string * value)) :
  existsb (hits key) (as_array ignore) = true ->
  existsb (hits k) (as_array ignore) = false ->
  In (k, Str secret) fields ->
  (In (key, Str secret) obj ->
   In (key, Str ("<String len: " ++ show_nat (utf16_length secret) ++ ">"))
      (convertObject obj ignore))
  /\ (In (key, Plain fields) obj ->
      exists fields',
        In (key, Plain fields') (convertObject obj ignore)
        /\ In (k, Str secret) fields').
Proof.
  intros Hkey Hk Hin. split; intros Hobj.
  - apply (In_convertObject obj ignore) in Hobj.
    cbn [convertValue unhit] in Hobj. rewrite Hkey in Hobj. exact Hobj.
  - exists (convertObject fields (Many (as_array ignore))). split.
    + apply (In_convertObject obj ignore) in Hobj.
      rewrite convertValue_Plain in Hobj. exact Hobj.
    + apply (In_convertObject fields (Many (as_array ignore))) in Hin.
      cbn [convertValue unhit as_array] in Hin. rewrite Hk in Hin. exact Hin.
Qed.

(** Lengths as JavaScript counts them: one unit for an accented letter
    (two bytes), two for a character outside the basic plane (four
    bytes). *)
Example utf16_length_examples :
  utf16_length "admin" = 5
  /\ utf16_length "é" = 1 /\ String.length "é" = 2
  /\ utf16_length "€" = 1 /\ String.length "€" = 3
  /\ utf16_length "😀" = 2 /\ String.length "😀" = 4.
Proof. repeat split. Qed.

(** Witness for X27: [café] under a key that [/^pass/] matches is masked
    with the length 4, and [admin] inside a plain object under such a key
    is kept. *)
Lemma ignore_masks_values_not_objects_witness :
  In ("pass2", Str "<String len: 4>")
     (convertObject [("pass", Plain [("user", Str "admin")]); ("pass2", Str "café")]
                    (One (MRegExp (String.prefix "pass"))))
  /\ exists fields',
       In ("pass", Plain fields')
          (convertObject [("pass", Plain [("user", Str "admin")]); ("pass2", Str "café")]
                         (One (MRegExp (String.prefix "pass"))))
       /\ In ("user", Str "admin") fields'.
Proof.
  split.
  - apply (proj1 (ignore_masks_values_not_objects
                    [("pass", Plain [("user", Str "admin")]); ("pass2", Str "café")]
                    (One (MRegExp (String.prefix "pass")))
                    "pass2" "user" "café" [("user", Str "café")]
                    eq_refl eq_refl (or_introl eq_refl))).
    right. left. reflexivity.
  - apply (proj2 (ignore_masks_values_not_objects
                    [("pass", Plain [("user", Str "admin")]); ("pass2", Str "café")]
                    (One (MRegExp (String.prefix "pass")))
                    "pass" "user" "admin" [("user", Str "admin")]
                    eq_refl eq_refl (or_introl eq_refl))).
    left. reflexivity.
Defined.

End DumpMore.
(* ===================================================================== *)
(** * The helper functions are bound once *)
(* ===================================================================== *)

Module BindingMore.
Import Binding.

Lemma map_get_rebind this key : forall m,
  Js.map_get key (map (fun kv => (fst kv,
                                  if is_function (snd kv)
                                  then Bound this (snd kv) else snd kv)) m)
  = option_map (fun f => if is_function f then Bound this f else f)
               (Js.map_get key m).
Proof.
  induction m as [|[k e] m IH]; [reflexivity|].
  cbn [map fst snd Js.map_get]. destruct (String.eqb k key); [reflexivity | exact IH].
Qed.

(** Binding again changes nothing for a function whose [this] does not
    come from the call. *)
Lemma receiver_of_rebound this f r :
  receiver_of f = Some r -> r <> OfCall ->
  receiver_of (if is_function f then Bound this f else f) = Some r.
Proof.
  intros H Hr. destruct (is_function f); [|exact H].
  cbn [receiver_of]. rewrite H. destruct r; congruence.
Qed.

Lemma receiver_kept st this key r :
  receiver st key = Some r -> r <> OfCall ->
  receiver (get_helper st this) key = Some r.
Proof.
  unfold receiver, get_helper. destruct (existsb _ _); [tauto|].
  cbn [helper]. rewrite map_get_rebind.
  destruct (Js.map_get key (helper st)) as [f|]; [|discriminate].
  cbn [option_map]. apply receiver_of_rebound.
Qed.

Lemma receiver_kept_all readers : forall st key r,
  receiver st key = Some r -> r <> OfCall ->
  receiver (fold_left get_helper readers st) key = Some r.
Proof.
  induction readers as [|x readers IH]; intros st key r H Hr; [exact H|].
  cbn [fold_left]. apply IH; [apply receiver_kept|]; assumption.
Qed.

(** X28: the functions of the helper module are bound once for all
    commands. The module object is shared, and the getter replaces each
    function in it by one bound to the command that reads [helper].
    Starting from the module as it is loaded, a helper written with
    [function] or [function*] ([callFn], [getPackageInfo],
    [installToolkit]) runs with the first command that read [helper] as
    its [this], however many commands read it afterwards; a helper written
    as an arrow function never runs with a command as its [this]. *)
Theorem helper_bound_to_first_reader
    (exports : list (string * Export)) (first : nat) (readers : list nat)
    (key name : string) :
  (Js.map_get key exports = Some (Function name) ->
   receiver (fold_left get_helper (first :: readers) (mkState exports [])) key
   = Some (OfCommand first))
  /\ (Js.map_get key exports = Some (Arrow name) ->
      receiver (fold_left get_helper (first :: readers) (mkState exports [])) key
      = Some OfModule).
Proof.
  split; intros H; cbn [fold_left];
    (apply receiver_kept_all; [|discriminate]);
    unfold receiver, get_helper; cbn [HELPER existsb helper];
    rewrite map_get_rebind, H; reflexivity.
Qed.

(** Witness for X28: read through the second command, [installToolkit]
    runs with the first command as its [this], and [spawn] with that of
    the module. *)
Lemma helper_bound_to_first_reader_witness :
  receiver (fold_left get_helper [1; 2]
              (mkState [("spawn", Arrow "spawn");
                        ("installToolkit", Function "installToolkit")] []))
           "installToolkit"
  = Some (OfCommand 1)
  /\ receiver (fold_left get_helper [1; 2]
                 (mkState [("spawn", Arrow "spawn");
                           ("installToolkit", Function "installToolkit")] []))
              "spawn"
     = Some OfModule.
Proof.
  split.
  - apply (proj1 (helper_bound_to_first_reader
                    [("spawn", Arrow "spawn");
                     ("installToolkit", Function "installToolkit")]
                    1 [2] "installToolkit" "installToolkit")).
    reflexivity.
  - apply (proj2 (helper_bound_to_first_reader
                    [("spawn", Arrow "spawn");
                     ("installToolkit", Function "installToolkit")]
                    1 [2] "spawn" "spawn")).
    reflexivity.
Defined.

End BindingMore.
